(** * RNG: the 1024-bit counter engine (Nasam1024), the ChaCha20 engine
      (csprng) and the bounded sampler, embedded from the C++ headers;
      with them SplitMix64, wyrand, fast and get_entropy.

    Machine integers are mathematical integers ([Z]) with the wrap-around of
    the C++ unsigned types written out; arrays are lists indexed by [nat]. *)

From Stdlib Require Import ZArith List Lia Bool Znumtheory.
Import ListNotations.
Local Open Scope Z_scope.

Ltac Zify.zify_post_hook ::= Z.div_mod_to_equations.

(* ------------------------------------------------------------------------- *)
(** ** Machine words (common.h, umul128.h)                                    *)
(* ------------------------------------------------------------------------- *)

Definition UINT64_MAX : Z := 2 ^ 64 - 1.

(** Conversion to [uint64_t]: reduction modulo 2^64. *)
Definition wrap64 (x : Z) : Z := x mod 2 ^ 64.

Definition is_u64 (x : Z) : Prop := 0 <= x < 2 ^ 64.
Definition is_u32 (x : Z) : Prop := 0 <= x < 2 ^ 32.

(** [umul128(a, b, &hi)]: the 128-bit product, returned as (low, high). *)
Definition umul128 (a b : Z) : Z * Z := (wrap64 (a * b), (a * b) / 2 ^ 64).

(** [std::rotr] on a 64-bit word. *)
Definition rotr64 (v : Z) (r : Z) : Z :=
  Z.lor (Z.shiftr v r) (wrap64 (Z.shiftl v (64 - r))).

(** Array access and update; reading out of range is not reached by the
    modelled code and yields 0 here, writing out of range leaves the array. *)
Definition get (x : list Z) (i : nat) : Z := nth i x 0.

Fixpoint set (x : list Z) (i : nat) (v : Z) : list Z :=
  match x, i with
  | [], _ => []
  | _ :: t, O => v :: t
  | h :: t, S i' => h :: set t i' v
  end.

(* ------------------------------------------------------------------------- *)
(** ** Mixer (Nasam1024.h, [nasam])                                           *)
(* ------------------------------------------------------------------------- *)

Definition nasam (v : Z) : Z :=
  let v := wrap64 (v * 0x9E6F1D9BB2D6C165) in
  let v := Z.lxor v (rotr64 v 26) in
  let v := wrap64 (v * 0x9E6F1D9BB2D6C165) in
  let v := Z.lxor v (Z.lxor (rotr64 v 47) (rotr64 v 21)) in
  let v := wrap64 (v * 0x9FB21C651E98DF25) in
  Z.lxor v (Z.shiftr v 28).

(* ------------------------------------------------------------------------- *)
(** ** Counter_1024 (Nasam1024.h)                                             *)
(* ------------------------------------------------------------------------- *)

Module Counter_1024.

Record t : Type := mk { state : list Z; increment : list Z }.

(** The carry loop of [add_carry]:
    [while (++index < 16) { if (++x[index] != 0) return; }].
    [fuel] bounds the iterations; [add_carry] passes 16, and the loop
    leaves by itself once [index] reaches 16. *)
Fixpoint carry_loop (fuel : nat) (x : list Z) (index : nat) : list Z :=
  match fuel with
  | O => x
  | S fuel' =>
      let index := S index in
      if (index <? 16)%nat then
        let v := wrap64 (get x index + 1) in
        let x := set x index v in
        if v =? 0 then carry_loop fuel' x index else x
      else x
  end.

(** [add_carry(x, incr, index)]. *)
Definition add_carry (x : list Z) (incr : Z) (index : nat) : list Z :=
  if (16 <=? index)%nat then x
  else
    let v := wrap64 (get x index + incr) in
    let x := set x index v in
    if v <? incr then carry_loop 16 x index else x.

(** [initialize_increment]: limb 0 is the golden-ratio constant, limb [i]
    the mix of limb [i-1]. *)
Definition INC : Z := 0x9e3779b97f4a7c15.

Fixpoint initialize_increment_loop (n : nat) (i : nat) (inc : list Z)
  : list Z :=
  match n with
  | O => inc
  | S n' =>
      initialize_increment_loop n' (S i) (set inc i (nasam (get inc (i - 1))))
  end.

Definition initialize_increment (inc : list Z) : list Z :=
  let inc := set inc 0 INC in
  initialize_increment_loop 15 1 inc.

(** The default constructor: zero state, initialised increment. *)
Definition ctor : t :=
  mk (repeat 0 16) (initialize_increment (repeat 0 16)).

(** Prefix [operator++]: [for i in 0..15: add_carry(state, increment[i], i)]. *)
Definition incr (c : t) : t :=
  mk (fold_left (fun st i => add_carry st (get (increment c) i) i)
                (seq 0 16) (state c))
     (increment c).

(** [operator+=(nblocks)]. *)
Definition advance_body (inc : list Z) (nblocks : Z) (st : list Z) (i : nat)
  : list Z :=
  let '(product_lo, product_hi) := umul128 (get inc i) nblocks in
  let st := add_carry st product_lo i in
  if (i <=? 14)%nat then add_carry st product_hi (i + 1) else st.

Definition advance (c : t) (nblocks : Z) : t :=
  if nblocks =? 0 then c
  else if nblocks =? 1 then incr c
  else mk (fold_left (advance_body (increment c) nblocks) (seq 0 16) (state c))
          (increment c).

(** [big_jump(step)]. *)
Definition big_jump_inner (inc : list Z) (step_i : Z) (i : nat)
           (temp : list Z) (j : nat) : list Z :=
  if (i + j <? 16)%nat then
    let '(lo, hi) := umul128 (get inc j) step_i in
    let temp := add_carry temp lo (i + j) in
    add_carry temp hi (i + j + 1)
  else temp.

Definition big_jump_outer (inc : list Z) (step : list Z)
           (temp : list Z) (i : nat) : list Z :=
  if get step i =? 0 then temp
  else fold_left (big_jump_inner inc (get step i) i) (seq 0 16) temp.

Definition big_jump (c : t) (step : list Z) : t :=
  let temp := state c in
  mk (fold_left (big_jump_outer (increment c) step) (seq 0 16) temp)
     (increment c).

(** [operator==] compares the states only. *)
Definition eqb (a b : t) : bool :=
  if list_eq_dec Z.eq_dec (state a) (state b) then true else false.

End Counter_1024.

(* ------------------------------------------------------------------------- *)
(** ** The counter as a number                                                *)
(* ------------------------------------------------------------------------- *)

(** The 16 limbs read as one little-endian integer, and what the proofs
    below say about them. *)
Fixpoint value (x : list Z) : Z :=
  match x with
  | [] => 0
  | a :: t => a + 2 ^ 64 * value t
  end.

Definition weight (i : nat) : Z := 2 ^ (64 * Z.of_nat i).

Definition limbs_ok (x : list Z) : Prop :=
  length x = 16%nat /\ Forall is_u64 x.

Definition M : Z := weight 16.

(** Congruence modulo 2^1024, as an explicit multiple. *)
Definition congr (a b : Z) : Prop := exists k, a = b + k * M.

(** Sum of [d i] over the indices of a loop. *)
Fixpoint sum_over (d : nat -> Z) (l : list nat) : Z :=
  match l with
  | [] => 0
  | i :: t => d i + sum_over d t
  end.

(** 1024-bit addition of two limb vectors, by the code's own limb-wise
    addition with carry propagation. *)
Definition add_1024 (a b : list Z) : list Z :=
  Counter_1024.state (Counter_1024.incr (Counter_1024.mk a b)).

(** Conversion to [int] ([static_cast<int>]). *)
Definition to_int (x : Z) : Z := (x + 2 ^ 31) mod 2 ^ 32 - 2 ^ 31.

(* ------------------------------------------------------------------------- *)
(** ** Nasam1024 (Nasam1024.h)                                                *)
(* ------------------------------------------------------------------------- *)

Module Nasam1024.

Definition BUFFERSIZE : Z := 8.

Record t : Type := mk {
    counter : Counter_1024.t;
    buffer : list Z;            (* uint64_t buffer[BUFFERSIZE] *)
    buffer_position : Z         (* int; BUFFERSIZE means the buffer is empty *)
  }.

(** [refill_buffer]: [++counter], then [buffer[i] = nasam(counter[i + 8])]
    for [i] in 0..7, then [buffer_position = 0]. *)
Definition refill_buffer (g : t) : t :=
  let counter := Counter_1024.incr (counter g) in
  let buffer :=
    fold_left
      (fun buf i => set buf i (nasam (get (Counter_1024.state counter) (i + 8))))
      (seq 0 8) (buffer g) in
  mk counter buffer 0.

Definition is_buffer_empty (g : t) : bool := buffer_position g =? BUFFERSIZE.

(** [operator()()]: the value returned and the engine afterwards. *)
Definition next (g : t) : Z * t :=
  let g := if is_buffer_empty g then refill_buffer g else g in
  (get (buffer g) (Z.to_nat (buffer_position g)),
   mk (counter g) (buffer g) (buffer_position g + 1)).

(** [discard(n)]. *)
Definition discard (g : t) (n : Z) : t :=
  let remaining_in_buffer := wrap64 (BUFFERSIZE - buffer_position g) in
  if n <=? remaining_in_buffer then
    mk (counter g) (buffer g) (buffer_position g + to_int n)
  else
    let n := wrap64 (n - remaining_in_buffer) in
    let full_blocks_to_skip := n / BUFFERSIZE in
    let outputs_in_final_block := n mod BUFFERSIZE in
    let g :=
      if 0 <? full_blocks_to_skip
      then mk (Counter_1024.advance (counter g) full_blocks_to_skip)
              (buffer g) (buffer_position g)
      else g in
    let g := refill_buffer g in
    mk (counter g) (buffer g) (to_int outputs_in_final_block).

(** [k] successive calls of [operator()()]: the last value returned (0
    before any call) and the engine afterwards. *)
Definition calls (k : N) (g : t) : Z * t :=
  N.iter k (fun r => next (snd r)) (0, g).

(** The engine invariant: 16-limb counter, 8-word buffer, cursor in [0,8]. *)
Definition ok (g : t) : Prop :=
  limbs_ok (Counter_1024.state (counter g)) /\
  limbs_ok (Counter_1024.increment (counter g)) /\
  length (buffer g) = 8%nat /\ 0 <= buffer_position g <= 8.

(** The buffer computed from a counter: the mix of its upper 8 limbs. *)
Definition block_of (c : Counter_1024.t) : list Z :=
  map (fun i => nasam (get (Counter_1024.state c) (i + 8))) (seq 0 8).

(** The engine after [k] calls, in closed form. *)
Definition after (g : t) (k : Z) : t :=
  let m := buffer_position g + k in
  if m <=? 8 then mk (counter g) (buffer g) m
  else
    let c := N.iter (Z.to_N ((m - 1) / 8)) Counter_1024.incr (counter g) in
    mk c (block_of c) ((m - 1) mod 8 + 1).

End Nasam1024.

(* ------------------------------------------------------------------------- *)
(** ** Byte streams (the [std::istream] / [std::ostream] of the serializer)   *)
(* ------------------------------------------------------------------------- *)

(** Little-endian bytes of a word, as [memcpy]/[write] see it on the
    little-endian targets the library insists on (common.h). *)
Fixpoint le_bytes (n : nat) (w : Z) : list Z :=
  match n with
  | O => []
  | S n' => w mod 256 :: le_bytes n' (w / 256)
  end.

Fixpoint le_word (bs : list Z) : Z :=
  match bs with
  | [] => 0
  | b :: t => b + 256 * le_word t
  end.

(** The bytes of [count] words of [width] bytes each, and back. *)
Definition bytes_of_words (width count : nat) (ws : list Z) : list Z :=
  flat_map (fun i => le_bytes width (get ws i)) (seq 0 count).

Fixpoint words_of_bytes (width count : nat) (bs : list Z) : list Z :=
  match count with
  | O => []
  | S c => le_word (firstn width bs) :: words_of_bytes width c (skipn width bs)
  end.

(** What a read of [data] leaves in a destination that held [old]. *)
Definition overlay (data old : list Z) : list Z :=
  data ++ skipn (length data) old.

(** An input stream: the bytes still to come and whether the stream is
    good ([!is] is [negb good]). *)
Record istream : Type := mk_istream { pending : list Z; good : bool }.

(** [is.read(buf, n)]: on a failed stream nothing is read; a short read
    delivers what is there and sets the fail state. *)
Definition read (n : nat) (ins : istream) : list Z * istream :=
  if negb (good ins) then ([], ins)
  else if (length (pending ins) <? n)%nat
       then (pending ins, mk_istream [] false)
       else (firstn n (pending ins), mk_istream (skipn n (pending ins)) true).

(** [is.get()]: the next byte, or EOF (-1) with the fail state set. *)
Definition get_char (ins : istream) : Z * istream :=
  if negb (good ins) then (-1, ins)
  else match pending ins with
       | [] => (-1, mk_istream [] false)
       | b :: rest => (b, mk_istream rest true)
       end.

Definition bytes_eqb (a b : list Z) : bool :=
  if list_eq_dec Z.eq_dec a b then true else false.

(* ------------------------------------------------------------------------- *)
(** ** csprng (RNG_csprng.h)                                                  *)
(* ------------------------------------------------------------------------- *)

Module csprng.

(** The [std::runtime_error]s the class throws. *)
Inductive error : Type :=
  | key_nonce_pair_exhausted                  (* refill_buffer *)
  | block_counter_overflow_during_discard     (* discard *)
  | bad_magic                                 (* operator>> *)
  | unsupported_version
  | corrupted_word_index
  | stream_read_error
  | mid_block_state_at_counter_zero.

Record t : Type := mk {
    key : list Z;             (* ChaChaCore::KEY: 8 x u32 *)
    nonce : list Z;           (* ChaChaCore::NONCE: 2 x u32 *)
    block_counter : Z;        (* u64 *)
    buffer : list Z;          (* Block64, read through its u64 view: 8 x u64 *)
    word_index : Z            (* size_t; 8 means exhausted *)
  }.

Definition with_key (rng : t) (k : list Z) : t :=
  mk k (nonce rng) (block_counter rng) (buffer rng) (word_index rng).
Definition with_nonce (rng : t) (n : list Z) : t :=
  mk (key rng) n (block_counter rng) (buffer rng) (word_index rng).
Definition with_block_counter (rng : t) (c : Z) : t :=
  mk (key rng) (nonce rng) c (buffer rng) (word_index rng).
Definition with_buffer (rng : t) (b : list Z) : t :=
  mk (key rng) (nonce rng) (block_counter rng) b (word_index rng).
Definition with_word_index (rng : t) (w : Z) : t :=
  mk (key rng) (nonce rng) (block_counter rng) (buffer rng) w.

(** A member function either returns a value or throws; both leave an
    engine behind (a C++ exception does not roll the object back). *)
Inductive result (A : Type) : Type :=
  | Ok (a : A) (rng : t)
  | Throw (e : error) (rng : t).
Arguments Ok {A} a rng.
Arguments Throw {A} e rng.

Definition bind {A B : Type} (r : result A) (f : A -> t -> result B)
  : result B :=
  match r with
  | Ok a rng => f a rng
  | Throw e rng => Throw e rng
  end.

(** The value returned, if any. *)
Definition returned {A : Type} (r : result A) : option A :=
  match r with
  | Ok a _ => Some a
  | Throw _ _ => None
  end.

(** The engine left behind. *)
Definition engine {A : Type} (r : result A) : t :=
  match r with
  | Ok _ rng => rng
  | Throw _ rng => rng
  end.

(** The magic tag: [static constexpr char magic[8] = "csprng"]. *)
Definition magic : list Z := [99; 115; 112; 114; 110; 103; 0; 0].

(** The string literal ["csprng"] the reader compares with: seven bytes. *)
Definition literal_csprng : list Z := [99; 115; 112; 114; 110; 103; 0].

Definition version : Z := 1.

(** [operator<<]: the bytes written to the stream. *)
Definition serialize (rng : t) : list Z :=
  magic ++ [version]
    ++ bytes_of_words 4 8 (key rng)
    ++ bytes_of_words 4 2 (nonce rng)
    ++ le_bytes 8 (block_counter rng)
    ++ [word_index rng mod 256]
    ++ repeat 0 7.

(** [operator==]. *)
Definition eqb (lhs rhs : t) : bool :=
  let key_diff :=
    fold_left (fun d i => Z.lor d (Z.lxor (get (key lhs) i) (get (key rhs) i)))
              (seq 0 8) 0 in
  let state_match :=
    bytes_eqb (nonce lhs) (nonce rhs)
    && (block_counter lhs =? block_counter rhs)
    && (word_index lhs =? word_index rhs) in
  if negb (key_diff =? 0) || negb state_match then false
  else if word_index lhs <? 8 then
    let buffer_diff :=
      fold_left
        (fun d i => Z.lor d (Z.lxor (get (buffer lhs) i) (get (buffer rhs) i)))
        (seq 0 8) 0 in
    buffer_diff =? 0
  else true.

Section ChaCha.

(** ChaChaCore.h is not among the sources: the state built from key,
    nonce and counter, and the permutation producing the 64-byte block
    (here its eight u64 words), are parameters. *)
Variable ChaCha_state : Type.
Variable build_state : list Z -> list Z -> Z -> ChaCha_state.
Variable permute_block : ChaCha_state -> list Z.

(** [memcmp(magic, "csprng", 8)] compares eight bytes with a literal of
    seven: the eighth byte compared is whatever follows the literal in
    memory. *)
Variable literal_pad : Z.

(** [refill_buffer]. *)
Definition refill_buffer (rng : t) : result unit :=
  let state :=
    build_state (key rng) [get (nonce rng) 0; get (nonce rng) 1]
                (block_counter rng) in
  let rng := with_buffer rng (permute_block state) in
  let rng := with_word_index rng 0 in
  let rng := with_block_counter rng (wrap64 (block_counter rng + 1)) in
  if block_counter rng =? 0
  then Throw key_nonce_pair_exhausted rng
  else Ok tt rng.

(** [operator()()]. *)
Definition next (rng : t) : result Z :=
  bind (if 8 <=? word_index rng then refill_buffer rng else Ok tt rng)
       (fun _ rng =>
          Ok (get (buffer rng) (Z.to_nat (word_index rng)))
             (with_word_index rng (wrap64 (word_index rng + 1)))).

Definition draw64 : t -> result Z := next.

(** [discard(n)]. *)
Definition discard (rng : t) (n : Z) : result unit :=
  if n =? 0 then Ok tt rng
  else
    let remaining := wrap64 (8 - word_index rng) in
    if n <? remaining
    then Ok tt (with_word_index rng (wrap64 (word_index rng + n)))
    else
      let n := wrap64 (n - remaining) in
      let rng := with_word_index rng 8 in
      let full_blocks := n / 8 in
      let remainder := n mod 8 in
      bind (if 0 <? full_blocks then
              if block_counter rng >? UINT64_MAX - full_blocks
              then Throw block_counter_overflow_during_discard rng
              else Ok tt (with_block_counter rng
                            (wrap64 (block_counter rng + full_blocks)))
            else Ok tt rng)
           (fun _ rng =>
              if negb (remainder =? 0) then
                bind (refill_buffer rng)
                     (fun _ rng => Ok tt (with_word_index rng remainder))
              else Ok tt rng).

(** [jump] and [long_jump]. *)
Definition jump (rng : t) : result unit := discard rng (2 ^ 32).
Definition long_jump (rng : t) : result unit := discard rng (2 ^ 48).

(** [reseed(k, n)]. *)
Definition reseed (rng : t) (k n : list Z) : result unit :=
  refill_buffer (with_block_counter (with_nonce (with_key rng k) n) 0).

(** The constructor from key, nonce and initial counter; a throwing
    constructor leaves no engine, the [Throw] here only records why. *)
Definition ctor (k n : list Z) (initial_counter : Z) : result unit :=
  refill_buffer (mk k n initial_counter (repeat 0 8) 8).

(** [operator>>]: returns the stream. *)
Definition deserialize (ins : istream) (rng : t) : result istream :=
  let '(data, ins) := read 8 ins in
  let magic := overlay data (repeat 0 8) in
  if negb (good ins)
     || negb (bytes_eqb magic (literal_csprng ++ [literal_pad]))
  then Throw bad_magic rng
  else
    let '(c, ins) := get_char ins in
    let version := c mod 256 in
    if negb (good ins) || negb (version =? 1)
    then Throw unsupported_version rng
    else
      let '(data, ins) := read 32 ins in
      let rng := with_key rng
        (words_of_bytes 4 8 (overlay data (bytes_of_words 4 8 (key rng)))) in
      let '(data, ins) := read 8 ins in
      let rng := with_nonce rng
        (words_of_bytes 4 2 (overlay data (bytes_of_words 4 2 (nonce rng)))) in
      let '(data, ins) := read 8 ins in
      let rng := with_block_counter rng
        (le_word (overlay data (le_bytes 8 (block_counter rng)))) in
      let '(idx, ins) := get_char ins in
      if negb (good ins) || (idx <? 0) || (idx >? 8)
      then Throw corrupted_word_index rng
      else
        let rng := with_word_index rng idx in
        let '(_, ins) := read 7 ins in
        if negb (good ins) then Throw stream_read_error rng
        else if word_index rng <? 8 then
          let saved_counter := block_counter rng in
          if saved_counter =? 0
          then Throw mid_block_state_at_counter_zero rng
          else
            let rng := with_block_counter rng (wrap64 (block_counter rng - 1)) in
            bind (refill_buffer rng)
                 (fun _ rng =>
                    let rng := with_block_counter rng saved_counter in
                    Ok ins (with_word_index rng idx))
        else Ok ins rng.

(** [k] successive calls of [operator()()]: the last value returned (0
    before any call); a call that throws ends the sequence. *)
Definition calls (k : N) (rng : t) : result Z :=
  N.iter k (fun r => bind r (fun _ => next)) (Ok 0 rng).

(** The first [k] values returned, in order. *)
Fixpoint take (k : nat) (rng : t) : result (list Z) :=
  match k with
  | O => Ok [] rng
  | S k' =>
      bind (next rng)
           (fun v rng => bind (take k' rng) (fun vs rng => Ok (v :: vs) rng))
  end.

(** The keystream block at counter [j] under the key and nonce of [s]. *)
Definition block (s : t) (j : Z) : list Z :=
  permute_block (build_state (key s) [get (nonce s) 0; get (nonce s) 1] j).

(** Word index within [0,8] and a 64-bit block counter. *)
Definition ok (s : t) : Prop :=
  0 <= word_index s <= 8 /\ is_u64 (block_counter s).

(** The engine after [k] calls that did not throw, in closed form. *)
Definition after (s : t) (k : Z) : t :=
  let m := word_index s + k in
  if m <=? 8 then mk (key s) (nonce s) (block_counter s) (buffer s) m
  else
    let q := (m - 1) / 8 in
    mk (key s) (nonce s) (block_counter s + q)
       (block s (block_counter s + q - 1)) ((m - 1) mod 8 + 1).

(** Whether [k] calls complete without exhausting the block counter. *)
Definition survives (s : t) (k : Z) : bool :=
  (word_index s + k <=? 8)
  || (block_counter s + (word_index s + k - 1) / 8 <? 2 ^ 64).

(** While words of the buffer are still to be returned, the buffer is the
    keystream block of the previous block counter. *)
Definition buffer_current (s : t) : Prop :=
  word_index s < 8 -> buffer s = block s (wrap64 (block_counter s - 1)).

Definition inv (s : t) : Prop := ok s /\ buffer_current s.

End ChaCha.

(** Two arrays agree on their first eight words. *)
Definition words_agree (a b : list Z) : Prop :=
  forall i, (i < 8)%nat -> get a i = get b i.

(** Field types: eight 32-bit key words, two 32-bit nonce words, a 64-bit
    block counter. *)
Definition fields_ok (s : t) : Prop :=
  length (key s) = 8%nat /\ Forall is_u32 (key s) /\
  length (nonce s) = 2%nat /\ Forall is_u32 (nonce s) /\
  is_u64 (block_counter s).

(** A stand-in permutation for closed examples: the block at counter [c]
    holds [c] in each of its eight words. *)
Definition toy_build_state (k n : list Z) (c : Z) : Z := c.

Definition toy_permute_block (st : Z) : list Z := repeat st 8.

Definition eq_lhs : t := mk (repeat 3 8) [1; 2] 5 (repeat 0 8) 8.

Definition eq_rhs : t := mk (repeat 3 8) [1; 2] 5 (repeat 9 8) 8.

End csprng.

(* ------------------------------------------------------------------------- *)
(** ** Bounded sampling ([csprng::unbiased], [random_device::unbiased])       *)
(* ------------------------------------------------------------------------- *)

(** The two member functions have the same text and differ in the [draw64]
    they call.  The draw source is the list of the values its successive
    [draw64()] calls return; [None] means the source ended before the
    procedure returned. *)
Definition draw64 (draws : list Z) : option (Z * list Z) :=
  match draws with
  | [] => None
  | x :: rest => Some (x, rest)
  end.

(** [while (l < t) { x = draw64(); l = umul128(x, range, &h); }],
    returning [h] and the draws left. *)
Fixpoint unbiased_redraw (draws : list Z) (range t l h : Z)
  : option (Z * list Z) :=
  if l <? t then
    match draws with
    | [] => None
    | x :: rest =>
        let '(l, h) := umul128 x range in unbiased_redraw rest range t l h
    end
  else Some (h, draws).

Definition unbiased (draws : list Z) (lower_bound upper_bound : Z)
  : option (Z * list Z) :=
  let '(lower_bound, upper_bound) :=
    if lower_bound >? upper_bound
    then (upper_bound, lower_bound) else (lower_bound, upper_bound) in
  if lower_bound =? upper_bound then Some (lower_bound, draws)
  else
    let range := wrap64 (upper_bound - lower_bound + 1) in
    if range =? 0 then draw64 draws
    else
      match draw64 draws with
      | None => None
      | Some (x, draws) =>
          let '(l, h) := umul128 x range in
          let r :=
            if l <? range then
              let t := wrap64 (UINT64_MAX - range + 1) mod range in
              unbiased_redraw draws range t l h
            else Some (h, draws) in
          match r with
          | None => None
          | Some (h, draws) => Some (wrap64 (lower_bound + h), draws)
          end
      end.

(** The rejection loop in normal form: the first draw whose low product
    word reaches the threshold [t] decides; it yields the high word. *)
Fixpoint first_accepted (draws : list Z) (range t : Z) : option (Z * list Z) :=
  match draws with
  | [] => None
  | x :: rest =>
      if fst (umul128 x range) <? t then first_accepted rest range t
      else Some (snd (umul128 x range), rest)
  end.

(* ------------------------------------------------------------------------- *)
(** ** SplitMix64 (RNG_SplitMix64.h)                                          *)
(* ------------------------------------------------------------------------- *)

Module SplitMix64.

Definition INCREMENT : Z := 0x9e3779b97f4a7c15.
Definition MUL1 : Z := 0xbf58476d1ce4e5b9.
Definition MUL2 : Z := 0x94d049bb133111eb.

Record t : Type := mk { state : Z }.

(** [SplitMix64(u64 seed)]. *)
Definition ctor (seed : Z) : t := mk seed.

(** The output function applied to the advanced state. *)
Definition mix (z : Z) : Z :=
  let z := wrap64 (Z.lxor z (Z.shiftr z 30) * MUL1) in
  let z := wrap64 (Z.lxor z (Z.shiftr z 27) * MUL2) in
  Z.lxor z (Z.shiftr z 31).

(** [operator()()]: [z = (state += INCREMENT)], then the three mixing
    lines. *)
Definition next (g : t) : Z * t :=
  let state := wrap64 (state g + INCREMENT) in
  (mix state, mk state).

(** [discard(n)]: [state += INCREMENT * n]. *)
Definition discard (g : t) (n : Z) : t :=
  mk (wrap64 (state g + wrap64 (INCREMENT * n))).

(** [k] successive calls: the last value returned (0 before any call) and
    the generator afterwards. *)
Definition calls (k : N) (g : t) : Z * t :=
  N.iter k (fun r => next (snd r)) (0, g).

End SplitMix64.

(* ------------------------------------------------------------------------- *)
(** ** wyrand (RNG_wyrand.h)                                                  *)
(* ------------------------------------------------------------------------- *)

Module wyrand.

Record t : Type := mk { state : Z }.

(** [wyrand(std::uint64_t seed)]. *)
Definition ctor (seed : Z) : t := mk seed.

(** [operator()()]. *)
Definition next (g : t) : Z * t :=
  let state := wrap64 (state g + 0x2d358dccaa6c78a5) in
  let '(lo, hi) := umul128 state (Z.lxor state 0x8bb84b93962eacc9) in
  (Z.lxor (Z.lxor lo hi) state, mk state).

Definition calls (k : N) (g : t) : Z * t :=
  N.iter k (fun r => next (snd r)) (0, g).

End wyrand.

(* ------------------------------------------------------------------------- *)
(** ** fast (RNG_fast.h)                                                      *)
(* ------------------------------------------------------------------------- *)

Module fast.

Definition BUFFER_SIZE : Z := 8.
Definition INCREMENT : Z := 0x2d358dccaa6c78a5.
Definition MIX : Z := 0x8bb84b93962eacc9.

Record t : Type := mk {
  state : Z;
  buffer : list Z;        (* std::array<uint64_t, 8> *)
  index : Z               (* size_t; BUFFER_SIZE means empty *)
}.

(** The body of the loop of [refill], for one [i]. *)
Definition refill_body (state : Z) (buffer : list Z) (i : nat) : list Z :=
  let S := wrap64 (state + wrap64 ((Z.of_nat i + 1) * INCREMENT)) in
  let '(lo, hi) := umul128 S (Z.lxor S MIX) in
  set buffer i (Z.lxor (Z.lxor lo hi) S).

(** [refill]. *)
Definition refill (g : t) : t :=
  mk (wrap64 (state g + wrap64 (8 * INCREMENT)))
     (fold_left (refill_body (state g)) (seq 0 8) (buffer g))
     0.

(** [fast(std::uint64_t seed)]; [buffer0] is what the uninitialised buffer
    member happens to hold. *)
Definition ctor (buffer0 : list Z) (seed : Z) : t :=
  refill (mk (Z.lxor seed 0x9e3779b97f4a7c15) buffer0 BUFFER_SIZE).

(** [operator()()]. *)
Definition next (g : t) : Z * t :=
  let g := if index g =? BUFFER_SIZE then refill g else g in
  (get (buffer g) (Z.to_nat (index g)),
   mk (state g) (buffer g) (wrap64 (index g + 1))).

(** [discard(nsteps)]: [state += nsteps * INCREMENT]. *)
Definition discard (g : t) (nsteps : Z) : t :=
  mk (wrap64 (state g + wrap64 (nsteps * INCREMENT))) (buffer g) (index g).

(** [jump] and [long_jump]. *)
Definition jump (g : t) : t := discard g (2 ^ 32).
Definition long_jump (g : t) : t := discard g (2 ^ 48).

(** [operator==]: the states only. *)
Definition eqb (lhs rhs : t) : bool := state lhs =? state rhs.

(** The word [refill] stores for the value [S] of its loop (the value
    [wyrand::operator()] returns for the state [S]). *)
Definition word (S : Z) : Z :=
  let '(lo, hi) := umul128 S (Z.lxor S MIX) in
  Z.lxor (Z.lxor lo hi) S.

(** The engine invariant: 8-word buffer, index in [0,8]. *)
Definition ok (g : t) : Prop :=
  length (buffer g) = 8%nat /\ 0 <= index g <= 8.

Definition calls (k : N) (g : t) : Z * t :=
  N.iter k (fun r => next (snd r)) (0, g).

(** [unbiased(lo, hi)], over the list of the values [draw64()] returns, as
    for the other engines; the loop first. *)
Fixpoint unbiased_redraw (draws : list Z) (range t p_lo p_hi : Z)
  : option (Z * Z * list Z) :=
  if p_lo <? t then
    match draws with
    | [] => None
    | x :: rest =>
        let '(p_lo, p_hi) := umul128 x range in
        unbiased_redraw rest range t p_lo p_hi
    end
  else Some (p_lo, p_hi, draws).

Definition unbiased (draws : list Z) (lo hi : Z) : option (Z * list Z) :=
  let '(lo, hi) := if lo >? hi then (hi, lo) else (lo, hi) in
  if lo =? hi then Some (lo, draws)
  else
    let range := wrap64 (hi - lo + 1) in
    if range =? 0 then draw64 draws
    else
      match draw64 draws with
      | None => None
      | Some (x, draws) =>
          let '(p_lo, p_hi) := umul128 x range in
          let r :=
            if p_lo <? range then
              let t := wrap64 (UINT64_MAX - range + p_lo) mod range in
              unbiased_redraw draws range t p_lo p_hi
            else Some (p_lo, p_hi, draws) in
          match r with
          | None => None
          | Some (p_lo, p_hi, draws) => Some (wrap64 (p_lo + p_hi), draws)
          end
      end.

End fast.

(* ------------------------------------------------------------------------- *)
(** ** Nasam1024: jumps, seeding, comparison, bulk output (Nasam1024.h)       *)
(* ------------------------------------------------------------------------- *)

Module Nasam1024_more.
Import Nasam1024.

(** [big_jump(step)]: the counter jumps; buffer and cursor stay. *)
Definition big_jump (g : t) (step : list Z) : t :=
  mk (Counter_1024.big_jump (counter g) step) (buffer g) (buffer_position g).

Definition jump64 (g : t) : t :=
  big_jump g [0; 1; 0; 0; 0; 0; 0; 0; 0; 0; 0; 0; 0; 0; 0; 0].
Definition jump128 (g : t) : t :=
  big_jump g [0; 0; 1; 0; 0; 0; 0; 0; 0; 0; 0; 0; 0; 0; 0; 0].
Definition jump192 (g : t) : t :=
  big_jump g [0; 0; 0; 1; 0; 0; 0; 0; 0; 0; 0; 0; 0; 0; 0; 0].
Definition jump256 (g : t) : t :=
  big_jump g [0; 0; 0; 0; 1; 0; 0; 0; 0; 0; 0; 0; 0; 0; 0; 0].
Definition jump (g : t) : t := jump128 g.
Definition long_jump (g : t) : t := jump256 g.

(** [for (i = 0; i < n; i++) step[i] = gen();]. *)
Fixpoint draw_steps (n : nat) (gen : SplitMix64.t) : list Z :=
  match n with
  | O => []
  | S n' => let '(v, gen) := SplitMix64.next gen in v :: draw_steps n' gen
  end.

(** [reseed(seed)]. *)
Definition reseed (g : t) (seed : Z) : t :=
  let step := draw_steps 16 (SplitMix64.ctor seed) in
  mk (Counter_1024.big_jump Counter_1024.ctor step) (buffer g) BUFFERSIZE.

(** [Nasam1024(uint64_t seed)]; [buffer0] is what the uninitialised buffer
    member happens to hold. *)
Definition ctor_seed (buffer0 : list Z) (seed : Z) : t :=
  reseed (mk Counter_1024.ctor buffer0 BUFFERSIZE) seed.

(** [Nasam1024(const std::array<uint64_t, 16>& initial_state)]. *)
Definition ctor_state (buffer0 : list Z) (initial_state : list Z) : t :=
  mk (Counter_1024.big_jump Counter_1024.ctor initial_state) buffer0 BUFFERSIZE.

(** [operator==]: cursor, counter and the 64 bytes of the buffer. *)
Definition eqb (lhs rhs : t) : bool :=
  (buffer_position lhs =? buffer_position rhs)
  && Counter_1024.eqb (counter lhs) (counter rhs)
  && bytes_eqb (bytes_of_words 8 8 (buffer lhs)) (bytes_of_words 8 8 (buffer rhs)).

(** The first loop of [bulk]:
    [while (n >= bufsize) { refill_buffer(); memcpy(p, buffer, bufsize);
    n -= bufsize; p += bufsize; }], with the bytes written so far. *)
Fixpoint bulk_loop (fuel : nat) (g : t) (n : Z) (out : list Z)
  : t * Z * list Z :=
  match fuel with
  | O => (g, n, out)
  | S fuel' =>
      if 64 <=? n then
        let g := refill_buffer g in
        bulk_loop fuel' g (n - 64) (out ++ bytes_of_words 8 8 (buffer g))
      else (g, n, out)
  end.

(** [bulk(x, n)]: the [n] bytes written to [x] and the engine afterwards.
    Every pass of the loop takes 64 from [n], so [n / 64 + 1] passes are
    never all used. *)
Definition bulk (g : t) (n : Z) : list Z * t :=
  let '(g, n, out) := bulk_loop (Z.to_nat (n / 64) + 1) g n [] in
  let '(g, out) :=
    if 0 <? n then
      let g := refill_buffer g in
      (g, out ++ firstn (Z.to_nat n) (bytes_of_words 8 8 (buffer g)))
    else (g, out) in
  (out, mk (counter g) (buffer g) BUFFERSIZE).

End Nasam1024_more.

(* ------------------------------------------------------------------------- *)
(** ** fill ([csprng::fill], [random_device::fill], [fast::fill])             *)
(* ------------------------------------------------------------------------- *)

(** The three member functions have the same text; as for [unbiased], the
    draw source is the list of the values its [draw64()] calls return.
    [while (size >= 8) { z = draw64(); memcpy(ptr, &z, 8); ptr += 8;
    size -= 8; }], with the bytes written so far. *)
Fixpoint fill_loop (draws : list Z) (size : Z) (out : list Z)
  : option (list Z * Z * list Z) :=
  if 8 <=? size then
    match draws with
    | [] => None
    | z :: rest => fill_loop rest (size - 8) (out ++ le_bytes 8 z)
    end
  else Some (out, size, draws).

(** [fill(data)] for a span of [size] bytes: the bytes written and the
    draws left. *)
Definition fill (draws : list Z) (size : Z) : option (list Z * list Z) :=
  match fill_loop draws size [] with
  | None => None
  | Some (out, size, draws) =>
      if 0 <? size then
        match draw64 draws with
        | None => None
        | Some (z, draws) =>
            Some (out ++ firstn (Z.to_nat size) (le_bytes 8 z), draws)
        end
      else Some (out, draws)
  end.

(* ------------------------------------------------------------------------- *)
(** ** get_entropy (platform_entropy.cpp, the Linux branch)                   *)
(* ------------------------------------------------------------------------- *)

Module platform_entropy.

(** What the operating system answers to one [getrandom] or [read] call:
    [ret > 0] with the bytes it has ready (the call stores at most the
    count asked for), [ret == 0], or [ret < 0] with [errno]. *)
Inductive os_result : Type :=
  | Delivered (b : Z) (bs : list Z)
  | Nothing
  | Failed (errno : Z).

Definition EINTR : Z := 4.
Definition ENOSYS : Z := 38.

(** The answers of the system, call by call. *)
Record os : Type := mk_os {
    getrandom : list os_result;   (* to the successive SYS_getrandom calls *)
    open_urandom : bool;          (* whether open("/dev/urandom") succeeds *)
    urandom : list os_result      (* to the successive read calls *)
  }.

Inductive error : Type :=
  | getrandom_failed
  | open_failed
  | unexpected_EOF
  | read_failed.

(** How a call ends, with the buffer as it is then; [Blocked] when the
    answers ran out inside a loop. *)
Inductive outcome : Type :=
  | Return (buffer : list Z)
  | Throw (e : error) (buffer : list Z)
  | Blocked (buffer : list Z).

(** The bytes [bs] stored at offset [off]. *)
Definition store (buffer : list Z) (off : nat) (bs : list Z) : list Z :=
  firstn off buffer ++ bs ++ skipn (off + length bs) buffer.

(** How the [getrandom] loop is left. *)
Inductive getrandom_exit : Type :=
  | Left_loop (buffer : list Z) (filled : nat)   (* condition false, or break *)
  | Fallback (buffer : list Z)                   (* goto fallback_urandom *)
  | Threw (buffer : list Z)
  | Ran_out (buffer : list Z).

Definition exit_buffer (e : getrandom_exit) : list Z :=
  match e with
  | Left_loop buffer _ | Fallback buffer | Threw buffer | Ran_out buffer =>
      buffer
  end.

(** [while (filled < size) { ret = syscall(SYS_getrandom, buffer + filled,
    size - filled, 0); ... }]. *)
Fixpoint getrandom_loop (answers : list os_result) (buffer : list Z)
                        (size filled : nat) : getrandom_exit :=
  if (filled <? size)%nat then
    match answers with
    | [] => Ran_out buffer
    | Delivered b bs :: rest =>
        let got := firstn (size - filled) (b :: bs) in
        getrandom_loop rest (store buffer filled got) size (filled + length got)
    | Nothing :: _ => Left_loop buffer filled
    | Failed errno :: rest =>
        if errno =? EINTR then getrandom_loop rest buffer size filled
        else if errno =? ENOSYS then Fallback buffer
        else Threw buffer
    end
  else Left_loop buffer filled.

(** [while (remaining > 0) { ret = read(fd, ptr, remaining); ... }], with
    [done] the bytes read so far ([ptr = buffer + done],
    [remaining = size - done]). *)
Fixpoint read_loop (answers : list os_result) (buffer : list Z)
                   (size done : nat) : outcome :=
  if (done <? size)%nat then
    match answers with
    | [] => Blocked buffer
    | Delivered b bs :: rest =>
        let got := firstn (size - done) (b :: bs) in
        read_loop rest (store buffer done got) size (done + length got)
    | Nothing :: _ => Throw unexpected_EOF buffer
    | Failed errno :: rest =>
        if errno =? EINTR then read_loop rest buffer size done
        else Throw read_failed buffer
    end
  else Return buffer.

(** The part from [fallback_urandom:] on. *)
Definition fallback_urandom (sys : os) (buffer : list Z) (size : nat)
  : outcome :=
  if open_urandom sys then read_loop (urandom sys) buffer size 0
  else Throw open_failed buffer.

(** [get_entropy(buffer, size)]. *)
Definition get_entropy (sys : os) (buffer : list Z) (size : nat) : outcome :=
  if (size =? 0)%nat then Return buffer
  else
    match getrandom_loop (getrandom sys) buffer size 0 with
    | Left_loop buffer filled =>
        if (filled =? size)%nat then Return buffer
        else fallback_urandom sys buffer size
    | Fallback buffer => fallback_urandom sys buffer size
    | Threw buffer => Throw getrandom_failed buffer
    | Ran_out buffer => Blocked buffer
    end.

(** All the bytes a list of answers delivers, in order. *)
Definition delivered (answers : list os_result) : list Z :=
  flat_map (fun r => match r with Delivered b bs => b :: bs | _ => [] end)
           answers.

End platform_entropy.

(* ------------------------------------------------------------------------- *)
(** ** A second preimage for the mixer                                        *)
(* ------------------------------------------------------------------------- *)

(** The argument that [nasam] sends to the same value as [v]: the first
    multiplication takes it to the bitwise complement of what it takes [v]
    to (the constant is minus the inverse of the multiplier modulo 2^64). *)
Definition nasam_twin (v : Z) : Z := wrap64 (0x75d41de70f957793 - v).

(* ========================================================================= *)
(** * Properties                                                              *)
(* ========================================================================= *)

(* ------------------------------------------------------------------------- *)
(** ** Counter_1024: the limb operations are arithmetic modulo 2^1024         *)
(* ------------------------------------------------------------------------- *)

Module Counter_1024_facts.
Import Counter_1024.

Lemma weight_0 : weight 0 = 1.
Proof. reflexivity. Qed.

Lemma weight_S i : weight (S i) = 2 ^ 64 * weight i.
Proof.
  unfold weight. rewrite <- Z.pow_add_r by lia. f_equal. lia.
Qed.

Lemma weight_pos i : 0 < weight i.
Proof. unfold weight. apply Z.pow_pos_nonneg; lia. Qed.

Lemma weight_add i j : weight (i + j) = weight i * weight j.
Proof.
  unfold weight. rewrite <- Z.pow_add_r by lia. f_equal. lia.
Qed.

Lemma wrap64_range x : is_u64 (wrap64 x).
Proof. unfold is_u64, wrap64. apply Z.mod_pos_bound. reflexivity. Qed.

Lemma wrap64_id x : is_u64 x -> wrap64 x = x.
Proof. unfold is_u64, wrap64. intros. apply Z.mod_small. assumption. Qed.

Lemma length_set x i v : length (set x i v) = length x.
Proof.
  revert i. induction x as [|h t IH]; intros [|i]; simpl; auto.
Qed.

Lemma Forall_set (P : Z -> Prop) x i v :
  Forall P x -> P v -> Forall P (set x i v).
Proof.
  intros Hx Hv. revert i.
  induction Hx; intros [|i]; simpl; constructor; auto.
Qed.

Lemma limbs_ok_set x i v : limbs_ok x -> is_u64 v -> limbs_ok (set x i v).
Proof.
  intros [Hl Hf] Hv. split.
  - now rewrite length_set.
  - now apply Forall_set.
Qed.

Lemma get_u64 x i : Forall is_u64 x -> is_u64 (get x i).
Proof.
  unfold get. intros H. revert i.
  induction H; intros [|i]; simpl; auto; unfold is_u64; lia.
Qed.

Lemma value_set x i v :
  (i < length x)%nat ->
  value (set x i v) = value x + (v - get x i) * weight i.
Proof.
  unfold get. revert i.
  induction x as [|h t IH]; intros [|i]; simpl length; intros Hi; try lia.
  - cbn [set value nth]. rewrite weight_0. lia.
  - cbn [set value nth]. rewrite IH by lia. rewrite weight_S.
    generalize (weight i) (value t) (2 ^ 64). intros. lia.
Qed.

Lemma value_bound x : Forall is_u64 x -> 0 <= value x < weight (length x).
Proof.
  induction 1 as [|a t Ha Ht IH]; simpl length.
  - rewrite weight_0. cbn [value]. lia.
  - rewrite weight_S. cbn [value]. unfold is_u64 in Ha.
    pose proof (weight_pos (length t)). nia.
Qed.

Lemma value_inj x y :
  length x = length y -> Forall is_u64 x -> Forall is_u64 y ->
  value x = value y -> x = y.
Proof.
  revert y. induction x as [|a t IH]; intros [|b u]; simpl length; intros Hl Hx Hy Hv;
    try lia; auto.
  inversion Hx; subst. inversion Hy; subst.
  cbn [value] in Hv. unfold is_u64 in *.
  assert (a = b) by lia.
  subst. f_equal. apply IH; auto. lia.
Qed.

Lemma congr_trans a b c : congr a b -> congr b c -> congr a c.
Proof. intros [k Hk] [l Hl]. exists (k + l). lia. Qed.

Lemma congr_weight_ge i z : (16 <= i)%nat -> congr (z * weight i) 0.
Proof.
  intros Hi. replace i with (16 + (i - 16))%nat by lia.
  rewrite weight_add. exists (z * weight (i - 16)). unfold M. ring.
Qed.

Lemma carry_loop_spec fuel : forall x index,
  limbs_ok x -> (index < 16)%nat -> (16 <= fuel + S index)%nat ->
  limbs_ok (carry_loop fuel x index) /\
  congr (value (carry_loop fuel x index)) (value x + weight (S index)).
Proof.
  induction fuel as [|fuel IH]; intros x index Hx Hi Hf.
  { cbn [carry_loop]. split; auto.
    destruct (congr_weight_ge (S index) 1 ltac:(lia)) as [k Hk].
    exists (- k). lia. }
  simpl carry_loop.
  destruct (Nat.ltb_spec (S index) 16) as [Hlt|Hge].
  - pose proof (get_u64 x (S index) (proj2 Hx)) as Hg.
    assert (Hset : limbs_ok (set x (S index) (wrap64 (get x (S index) + 1))))
      by (apply limbs_ok_set; auto using wrap64_range).
    assert (Hv := value_set x (S index) (wrap64 (get x (S index) + 1))).
    rewrite (proj1 Hx) in Hv. specialize (Hv Hlt).
    destruct (Z.eqb_spec (wrap64 (get x (S index) + 1)) 0) as [Hz|Hnz].
    + destruct (IH _ (S index) Hset Hlt ltac:(lia)) as [Hok Hc].
      split; auto.
      eapply congr_trans; [exact Hc|].
      rewrite Hv, Hz. rewrite (weight_S (S index)).
      assert (get x (S index) = 2 ^ 64 - 1).
      { unfold wrap64, is_u64 in *. lia. }
      exists 0. lia.
    + split; auto. rewrite Hv.
      assert (wrap64 (get x (S index) + 1) = get x (S index) + 1).
      { unfold wrap64, is_u64 in *. lia. }
      exists 0. lia.
  - split; auto.
    destruct (congr_weight_ge (S index) 1 ltac:(lia)) as [k Hk].
    exists (- k). lia.
Qed.

Lemma add_carry_spec x incr index :
  limbs_ok x -> is_u64 incr ->
  limbs_ok (add_carry x incr index) /\
  congr (value (add_carry x incr index)) (value x + incr * weight index).
Proof.
  intros Hx Hin. unfold add_carry.
  destruct (Nat.leb_spec 16 index) as [Hge|Hlt].
  - split; auto.
    destruct (congr_weight_ge index incr Hge) as [k Hk].
    exists (- k). lia.
  - pose proof (get_u64 x index (proj2 Hx)) as Hg.
    assert (Hset : limbs_ok (set x index (wrap64 (get x index + incr))))
      by (apply limbs_ok_set; auto using wrap64_range).
    assert (Hv := value_set x index (wrap64 (get x index + incr))).
    rewrite (proj1 Hx) in Hv. specialize (Hv Hlt).
    destruct (Z.ltb_spec (wrap64 (get x index + incr)) incr) as [Hc|Hnc].
    + destruct (carry_loop_spec 16 _ index Hset Hlt ltac:(lia)) as [Hok Hcg].
      split; auto.
      eapply congr_trans; [exact Hcg|].
      rewrite Hv, weight_S.
      assert (wrap64 (get x index + incr) = get x index + incr - 2 ^ 64).
      { unfold wrap64, is_u64 in *. lia. }
      exists 0. lia.
    + split; auto. rewrite Hv.
      assert (wrap64 (get x index + incr) = get x index + incr).
      { unfold wrap64, is_u64 in *. lia. }
      exists 0. lia.
Qed.

Lemma sum_over_ext d d' l :
  (forall i, In i l -> d i = d' i) -> sum_over d l = sum_over d' l.
Proof.
  induction l as [|i t IH]; intros H; cbn [sum_over]; auto.
  rewrite H by (left; auto). rewrite IH; auto. intros. apply H. right; auto.
Qed.

Lemma sum_over_scale d k l :
  sum_over (fun i => k * d i) l = k * sum_over d l.
Proof.
  induction l as [|i t IH]; cbn [sum_over]; [lia|]. rewrite IH. ring.
Qed.

Lemma value_sum_shift x : forall a,
  sum_over (fun i => get x (i - a) * weight i) (seq a (length x)) =
  weight a * value x.
Proof.
  induction x as [|h t IH]; intros a; cbn [length seq sum_over value]; [lia|].
  rewrite Nat.sub_diag. unfold get at 1. cbn [nth].
  rewrite (sum_over_ext _ (fun i => get t (i - S a) * weight i)).
  - rewrite IH, weight_S. ring.
  - intros i Hi. apply in_seq in Hi.
    replace (i - a)%nat with (S (i - S a)) by lia. reflexivity.
Qed.

Lemma value_sum x :
  sum_over (fun i => get x i * weight i) (seq 0 (length x)) = value x.
Proof.
  pose proof (value_sum_shift x 0%nat) as H. rewrite weight_0 in H.
  rewrite <- (Z.mul_1_l (value x)), <- H.
  apply sum_over_ext. intros i _. now rewrite Nat.sub_0_r.
Qed.

(** A loop whose body adds [d i] (mod 2^1024) adds the sum of the [d i]. *)
Lemma fold_congr (f : list Z -> nat -> list Z) (d : nat -> Z) (l : list nat) :
  (forall x i, In i l -> limbs_ok x ->
     limbs_ok (f x i) /\ congr (value (f x i)) (value x + d i)) ->
  forall x, limbs_ok x ->
    limbs_ok (fold_left f l x) /\
    congr (value (fold_left f l x)) (value x + sum_over d l).
Proof.
  induction l as [|i t IH]; intros Hf x Hx; cbn [fold_left sum_over].
  - split; auto. exists 0. lia.
  - destruct (Hf x i (or_introl eq_refl) Hx) as [Hok Hc].
    destruct (IH (fun y j Hj => Hf y j (or_intror Hj)) _ Hok) as [Hok' Hc'].
    split; auto.
    destruct Hc as [k Hk], Hc' as [k' Hk']. exists (k + k'). lia.
Qed.

Lemma congr_mod y z : limbs_ok y -> congr (value y) z -> value y = z mod M.
Proof.
  intros [Hl Hf] [k Hk].
  pose proof (value_bound y Hf) as Hb. rewrite Hl in Hb. fold M in Hb.
  apply (Z.mod_unique_pos _ _ (- k)); lia.
Qed.

Lemma umul128_split a b :
  is_u64 a -> is_u64 b ->
  is_u64 (fst (umul128 a b)) /\ is_u64 (snd (umul128 a b)) /\
  fst (umul128 a b) + 2 ^ 64 * snd (umul128 a b) = a * b.
Proof.
  unfold umul128, is_u64, wrap64. cbn [fst snd]. intros Ha Hb.
  assert (0 <= a * b < 2 ^ 64 * 2 ^ 64) by nia.
  lia.
Qed.

(** *** operator++ *)

Lemma incr_congr c :
  limbs_ok (state c) -> limbs_ok (increment c) ->
  limbs_ok (state (incr c)) /\
  congr (value (state (incr c))) (value (state c) + value (increment c)).
Proof.
  intros Hs Hi. unfold incr. cbn [state].
  rewrite <- (value_sum (increment c)), (proj1 Hi).
  apply fold_congr; auto.
  intros x i _ Hx. apply add_carry_spec; auto. apply get_u64, Hi.
Qed.

Lemma increment_incr c : increment (incr c) = increment c.
Proof. reflexivity. Qed.

(** *** operator+= *)

Lemma advance_body_congr inc n x i :
  limbs_ok inc -> is_u64 n -> limbs_ok x ->
  limbs_ok (advance_body inc n x i) /\
  congr (value (advance_body inc n x i)) (value x + n * (get inc i * weight i)).
Proof.
  intros Hinc Hn Hx. unfold advance_body.
  pose proof (umul128_split (get inc i) n (get_u64 _ i (proj2 Hinc)) Hn) as H.
  destruct (umul128 (get inc i) n) as [lo hi]. cbn [fst snd] in H.
  destruct H as (Hlo & Hhi & Hp).
  destruct (add_carry_spec x lo i Hx Hlo) as [Hok1 Hc1].
  assert (Heq : n * (get inc i * weight i) = lo * weight i + hi * weight (i + 1)).
  { rewrite Nat.add_1_r, weight_S.
    replace (n * (get inc i * weight i)) with ((get inc i * n) * weight i) by ring.
    rewrite <- Hp. ring. }
  rewrite Heq.
  destruct (Nat.leb_spec i 14).
  - destruct (add_carry_spec _ hi (i + 1) Hok1 Hhi) as [Hok2 Hc2].
    split; auto.
    destruct Hc1 as [k1 H1], Hc2 as [k2 H2]. exists (k1 + k2). lia.
  - split; auto.
    destruct (congr_weight_ge (i + 1) hi ltac:(lia)) as [k Hk].
    destruct Hc1 as [k1 H1]. exists (k1 - k). lia.
Qed.

Lemma advance_congr c n :
  limbs_ok (state c) -> limbs_ok (increment c) -> is_u64 n ->
  limbs_ok (state (advance c n)) /\
  congr (value (state (advance c n)))
        (value (state c) + n * value (increment c)).
Proof.
  intros Hs Hi Hn. unfold advance.
  destruct (Z.eqb_spec n 0) as [->|H0].
  { split; auto. exists 0. lia. }
  destruct (Z.eqb_spec n 1) as [->|H1].
  { rewrite Z.mul_1_l. now apply incr_congr. }
  cbn [state].
  rewrite <- (value_sum (increment c)), (proj1 Hi), <- sum_over_scale.
  apply fold_congr; auto.
  intros x i _ Hx. now apply advance_body_congr.
Qed.

(** *** big_jump *)

Lemma big_jump_inner_congr inc s i x j :
  limbs_ok inc -> is_u64 s -> limbs_ok x ->
  limbs_ok (big_jump_inner inc s i x j) /\
  congr (value (big_jump_inner inc s i x j))
        (value x + (s * weight i) * (get inc j * weight j)).
Proof.
  intros Hinc Hs Hx. unfold big_jump_inner.
  assert (Hw : (s * weight i) * (get inc j * weight j) =
               (get inc j * s) * weight (i + j)).
  { rewrite weight_add. ring. }
  rewrite Hw.
  destruct (Nat.ltb_spec (i + j) 16) as [Hlt|Hge].
  - pose proof (umul128_split (get inc j) s (get_u64 _ j (proj2 Hinc)) Hs) as H.
    destruct (umul128 (get inc j) s) as [lo hi]. cbn [fst snd] in H.
    destruct H as (Hlo & Hhi & Hp).
    destruct (add_carry_spec x lo (i + j) Hx Hlo) as [Hok1 Hc1].
    destruct (add_carry_spec _ hi (i + j + 1) Hok1 Hhi) as [Hok2 Hc2].
    split; auto.
    rewrite Nat.add_1_r, weight_S in Hc2. rewrite <- Hp.
    destruct Hc1 as [k1 H1], Hc2 as [k2 H2]. exists (k1 + k2).
    rewrite Nat.add_1_r. lia.
  - split; auto.
    destruct (congr_weight_ge (i + j) (get inc j * s) Hge) as [k Hk].
    exists (- k). lia.
Qed.

Lemma big_jump_outer_congr inc step x i :
  limbs_ok inc -> limbs_ok step -> limbs_ok x ->
  limbs_ok (big_jump_outer inc step x i) /\
  congr (value (big_jump_outer inc step x i))
        (value x + value inc * (get step i * weight i)).
Proof.
  intros Hinc Hstep Hx. unfold big_jump_outer.
  destruct (Z.eqb_spec (get step i) 0) as [Hz|Hnz].
  - split; auto. rewrite Hz. exists 0. lia.
  - replace (value inc * (get step i * weight i))
      with ((get step i * weight i) * value inc) by ring.
    rewrite <- (value_sum inc), (proj1 Hinc), <- sum_over_scale.
    apply fold_congr; auto.
    intros y j _ Hy. apply big_jump_inner_congr; auto. apply get_u64, Hstep.
Qed.

Lemma big_jump_congr c step :
  limbs_ok (state c) -> limbs_ok (increment c) -> limbs_ok step ->
  limbs_ok (state (big_jump c step)) /\
  congr (value (state (big_jump c step)))
        (value (state c) + value step * value (increment c)).
Proof.
  intros Hs Hi Hstep. unfold big_jump. cbn [state].
  replace (value step * value (increment c))
    with (value (increment c) * value step) by ring.
  rewrite <- (value_sum step), (proj1 Hstep), <- sum_over_scale.
  apply fold_congr; auto.
  intros x i _ Hx. now apply big_jump_outer_congr.
Qed.

Lemma M_eq : M = 2 ^ 1024.
Proof. reflexivity. Qed.

Lemma counter_eq (a b : t) :
  increment a = increment b ->
  limbs_ok (state a) -> limbs_ok (state b) ->
  value (state a) = value (state b) -> a = b.
Proof.
  destruct a as [sa ia], b as [sb ib]. cbn [state increment].
  intros -> [La Fa] [Lb Fb] Hv. f_equal.
  apply value_inj; auto. congruence.
Qed.

Lemma iter_incr_congr c (k : N) :
  limbs_ok (state c) -> limbs_ok (increment c) ->
  increment (N.iter k incr c) = increment c /\
  limbs_ok (state (N.iter k incr c)) /\
  congr (value (state (N.iter k incr c)))
        (value (state c) + Z.of_N k * value (increment c)).
Proof.
  intros Hs Hi. pattern k. apply N.peano_ind; clear k; [|intros k IH].
  - cbn [N.iter]. split; [|split]; auto. exists 0. lia.
  - rewrite N.iter_succ. destruct IH as (Hinc & Hok & Hc).
    rewrite increment_incr.
    destruct (incr_congr (N.iter k incr c) Hok) as [Hok' Hc'].
    { now rewrite Hinc. }
    split; [|split]; auto.
    rewrite Hinc in Hc'.
    destruct Hc as [a Ha], Hc' as [b Hb]. exists (a + b). lia.
Qed.

Lemma increment_advance c n : increment (advance c n) = increment c.
Proof.
  unfold advance. destruct (n =? 0); auto. destruct (n =? 1); auto.
Qed.

Lemma increment_big_jump c s : increment (big_jump c s) = increment c.
Proof. reflexivity. Qed.

(** [operator+=] is the repeated [operator++]; used for [advance] itself
    and for [Nasam1024::discard]. *)
Lemma advance_iter c n :
  limbs_ok (state c) -> limbs_ok (increment c) -> is_u64 n ->
  advance c n = N.iter (Z.to_N n) incr c.
Proof.
  intros Hs Hi Hn.
  destruct (advance_congr c n Hs Hi Hn) as [Hok Hc].
  destruct (iter_incr_congr c (Z.to_N n) Hs Hi) as (Hinc & Hok' & Hc').
  apply counter_eq; auto.
  - now rewrite increment_advance, Hinc.
  - rewrite (congr_mod _ _ Hok Hc), (congr_mod _ _ Hok' Hc').
    rewrite Z2N.id by (unfold is_u64 in Hn; lia). reflexivity.
Qed.

Lemma odd_coprime_M a : Z.odd a = true -> Z.coprime a M.
Proof.
  intros Ha. rewrite M_eq. apply Z.coprime_pow_r; [lia|].
  apply Z.coprime_Bezout.
  exists 1, (- (a / 2)).
  rewrite (Zodd_div2 a) at 1 by (now apply Zodd_bool_iff).
  rewrite Z.div2_div. lia.
Qed.

Lemma value_odd x : Z.odd (get x 0) = true -> Z.odd (value x) = true.
Proof.
  destruct x as [|h t]; unfold get; cbn [nth value]; intros H; [discriminate|].
  replace (2 ^ 64 * value t) with (2 * (2 ^ 63 * value t)).
  - now rewrite Z.odd_add_mul_2.
  - change (2 ^ 64) with (2 * 2 ^ 63). ring.
Qed.

Lemma Forall_u64_check l :
  forallb (fun x => (0 <=? x) && (x <? 2 ^ 64)) l = true -> Forall is_u64 l.
Proof.
  intros H. apply Forall_forall. intros x Hx.
  apply (proj1 (forallb_forall _ l) H) in Hx.
  apply andb_true_iff in Hx. destruct Hx as [H0 H1].
  apply Z.leb_le in H0. apply Z.ltb_lt in H1. split; assumption.
Qed.

Lemma limbs_ok_ctor_increment : limbs_ok (increment ctor).
Proof.
  split; [vm_compute; reflexivity|].
  apply Forall_u64_check. vm_compute. reflexivity.
Qed.

(** C2. For every counter (16 limbs of 64 bits in state and increment) and
    every 64-bit [n], [operator+=(n)] yields exactly the state reached by [n]
    applications of [operator++]; [n = 0] leaves the counter unchanged,
    [n = 1] is one [operator++], and the state's value is
    [state + n * increment] reduced modulo 2^1024. *)
Theorem advance_repeats_increment (c : t) (n : Z) :
  limbs_ok (state c) -> limbs_ok (increment c) -> is_u64 n ->
  advance c n = N.iter (Z.to_N n) incr c /\
  advance c 0 = c /\
  advance c 1 = incr c /\
  value (state (advance c n)) =
    (value (state c) + n * value (increment c)) mod 2 ^ 1024.
Proof.
  intros Hs Hi Hn. split; [|split; [|split]].
  - now apply advance_iter.
  - reflexivity.
  - reflexivity.
  - rewrite <- M_eq. destruct (advance_congr c n Hs Hi Hn) as [Hok Hc].
    now apply congr_mod.
Qed.

Lemma limbs_ok_ctor_state : limbs_ok (state ctor).
Proof.
  split; [reflexivity|].
  apply Forall_u64_check. vm_compute. reflexivity.
Qed.

Lemma advance_repeats_increment_witness :
  advance ctor 3 = N.iter (Z.to_N 3) incr ctor /\
  advance ctor 0 = ctor /\
  advance ctor 1 = incr ctor /\
  value (state (advance ctor 3)) =
    (value (state ctor) + 3 * value (increment ctor)) mod 2 ^ 1024.
Proof.
  apply (advance_repeats_increment ctor 3).
  - exact limbs_ok_ctor_state.
  - exact limbs_ok_ctor_increment.
  - unfold is_u64. lia.
Defined.

Lemma add_1024_congr a b :
  limbs_ok a -> limbs_ok b ->
  limbs_ok (add_1024 a b) /\ congr (value (add_1024 a b)) (value a + value b).
Proof. intros Ha Hb. exact (incr_congr (mk a b) Ha Hb). Qed.

(** C3. For every counter and arbitrary 16-limb step vectors [a] and [b],
    [big_jump(a)] followed by [big_jump(b)] yields the same counter as one
    [big_jump] by the 1024-bit sum [a + b] (mod 2^1024), whether or not that
    sum wraps and whether or not limbs are zero. *)
Theorem big_jump_compose (c : t) (a b : list Z) :
  limbs_ok (state c) -> limbs_ok (increment c) ->
  limbs_ok a -> limbs_ok b ->
  limbs_ok (add_1024 a b) /\
  value (add_1024 a b) = (value a + value b) mod 2 ^ 1024 /\
  big_jump (big_jump c a) b = big_jump c (add_1024 a b).
Proof.
  intros Hs Hi Ha Hb.
  destruct (add_1024_congr a b Ha Hb) as [Hsum Hsumc].
  pose proof (congr_mod _ _ Hsum Hsumc) as Hsumv.
  split; [exact Hsum|]. split; [rewrite <- M_eq; exact Hsumv|].
  destruct (big_jump_congr c a Hs Hi Ha) as [H1 C1].
  destruct (big_jump_congr (big_jump c a) b H1 Hi Hb) as [H2 C2].
  destruct (big_jump_congr c (add_1024 a b) Hs Hi Hsum) as [H3 C3].
  apply counter_eq; auto.
  rewrite (congr_mod _ _ H3 C3).
  apply congr_mod; auto.
  rewrite increment_big_jump in C2.
  destruct C1 as [k1 E1], C2 as [k2 E2], Hsumc as [k3 E3].
  unfold congr.
  rewrite E2, E1, E3.
  exists (k1 + k2 - k3 * value (increment c)). ring.
Qed.

Lemma limbs_ok_repeat v : is_u64 v -> limbs_ok (repeat v 16).
Proof.
  intros Hv. split; [reflexivity|].
  apply Forall_forall. intros x Hx. apply repeat_spec in Hx. now subst.
Qed.

Lemma big_jump_compose_witness :
  limbs_ok (add_1024 (repeat UINT64_MAX 16) (repeat 1 16)) /\
  value (add_1024 (repeat UINT64_MAX 16) (repeat 1 16)) =
    (value (repeat UINT64_MAX 16) + value (repeat 1 16)) mod 2 ^ 1024 /\
  big_jump (big_jump ctor (repeat UINT64_MAX 16)) (repeat 1 16) =
  big_jump ctor (add_1024 (repeat UINT64_MAX 16) (repeat 1 16)).
Proof.
  apply (big_jump_compose ctor (repeat UINT64_MAX 16) (repeat 1 16)).
  - exact limbs_ok_ctor_state.
  - exact limbs_ok_ctor_increment.
  - apply limbs_ok_repeat. unfold is_u64, UINT64_MAX. lia.
  - apply limbs_ok_repeat. unfold is_u64. lia.
Defined.

(** Each limb of the increment after the first is the mix of the limb
    before it. *)
Lemma increment_limbs i :
  (1 <= i < 16)%nat ->
  get (increment ctor) i = nasam (get (increment ctor) (i - 1)).
Proof.
  intros Hi. destruct i as [|i]; [lia|].
  do 15 (destruct i as [|i]; [vm_compute; reflexivity|]). lia.
Qed.

(** C8. The increment built by [initialize_increment] (limb 0 the
    golden-ratio constant, each later limb the mix of the limb before it)
    has an odd least-significant limb; hence from every starting state,
    [k] applications of [operator++] with [1 <= k < 2^1024] never return to
    the start, and exactly [2^1024] applications do: the period of the
    counter is 2^1024. *)
Theorem counter_full_period (s : t) (k : Z) :
  limbs_ok (state s) -> increment s = increment ctor ->
  get (increment s) 0 = INC /\
  (forall i, (1 <= i < 16)%nat ->
     get (increment s) i = nasam (get (increment s) (i - 1))) /\
  Z.odd (get (increment s) 0) = true /\
  (1 <= k < 2 ^ 1024 -> N.iter (Z.to_N k) incr s <> s) /\
  N.iter (Z.to_N (2 ^ 1024)) incr s = s.
Proof.
  intros Hs Hinc. rewrite <- M_eq.
  assert (Hi : limbs_ok (increment s))
    by (rewrite Hinc; exact limbs_ok_ctor_increment).
  assert (Hodd : Z.odd (get (increment s) 0) = true)
    by (rewrite Hinc; reflexivity).
  assert (HM : 0 < M) by apply weight_pos.
  destruct (value_bound _ (proj2 Hs)) as [Hv0 Hv1].
  rewrite (proj1 Hs) in Hv1. change (weight 16) with M in Hv1.
  split; [rewrite Hinc; reflexivity|].
  split; [rewrite Hinc; exact increment_limbs|].
  split; [exact Hodd|]. split.
  - intros Hk Heq.
    destruct (iter_incr_congr s (Z.to_N k) Hs Hi) as (_ & Hok & Hc).
    pose proof (congr_mod _ _ Hok Hc) as Hv. rewrite Heq in Hv. clear Hc.
    rewrite Z2N.id in Hv by lia.
    assert (Hz : (k * value (increment s)) mod M = 0).
    { set (v := value (state s)) in *.
      set (p := k * value (increment s)) in *.
      apply Z.mod_divide; [lia|].
      exists ((v + p) / M).
      pose proof (Z.div_mod (v + p) M ltac:(lia)). lia. }
    apply Z.cong_mul_cancel_r_coprime in Hz;
      [| lia | apply odd_coprime_M, value_odd, Hodd].
    rewrite Z.mod_small in Hz
      by (split; [apply Z.le_trans with 1; [discriminate|]|]; apply Hk).
    rewrite Hz in Hk. destruct Hk as [Hk _]. apply Hk. reflexivity.
  - destruct (iter_incr_congr s (Z.to_N M) Hs Hi) as (Hinc' & Hok & Hc).
    apply counter_eq; [exact Hinc' | exact Hok | exact Hs |].
    rewrite (congr_mod _ _ Hok Hc).
    rewrite Z2N.id by lia.
    rewrite (Z.mul_comm M), Z.mod_add by lia.
    apply Z.mod_small. split; assumption.
Qed.

Lemma counter_full_period_witness :
  get (increment ctor) 0 = INC /\
  (forall i, (1 <= i < 16)%nat ->
     get (increment ctor) i = nasam (get (increment ctor) (i - 1))) /\
  Z.odd (get (increment ctor) 0) = true /\
  (1 <= 5 < 2 ^ 1024 -> N.iter (Z.to_N 5) incr ctor <> ctor) /\
  N.iter (Z.to_N (2 ^ 1024)) incr ctor = ctor.
Proof.
  apply (counter_full_period ctor 5).
  - exact limbs_ok_ctor_state.
  - reflexivity.
Defined.

End Counter_1024_facts.

(* ------------------------------------------------------------------------- *)
(** ** Nasam1024: discard against repeated calls                              *)
(* ------------------------------------------------------------------------- *)

Module Nasam1024_facts.
Import Counter_1024 Counter_1024_facts Nasam1024.

Lemma refill_buffer_eq g :
  length (buffer g) = 8%nat ->
  refill_buffer g = mk (incr (counter g)) (block_of (incr (counter g))) 0.
Proof.
  intros Hl. unfold refill_buffer, block_of.
  generalize (incr (counter g)). intros c'. f_equal.
  destruct (buffer g) as [|b0 [|b1 [|b2 [|b3 [|b4 [|b5 [|b6 [|b7 [|b8 l]]]]]]]]];
    try discriminate Hl.
  reflexivity.
Qed.

Lemma length_block_of c : length (block_of c) = 8%nat.
Proof. reflexivity. Qed.

Lemma nasam_calls_succ k g : calls (N.succ k) g = next (snd (calls k g)).
Proof. unfold calls. now rewrite N.iter_succ. Qed.

Lemma iter_incr_succ (q : Z) c :
  0 <= q -> incr (N.iter (Z.to_N q) incr c) = N.iter (Z.to_N (q + 1)) incr c.
Proof.
  intros Hq. rewrite <- N.iter_succ. f_equal.
  rewrite <- Z2N.inj_succ by assumption. reflexivity.
Qed.

Lemma nasam_next_after g k :
  ok g -> 0 <= k -> snd (next (after g k)) = after g (k + 1).
Proof.
  intros (Hs & Hi & Hl & Hp) Hk. unfold after.
  set (p := buffer_position g) in *.
  destruct (Z.leb_spec (p + k) 8) as [Hm|Hm].
  - unfold next, is_buffer_empty, BUFFERSIZE. cbn [buffer_position].
    destruct (Z.eqb_spec (p + k) 8) as [H8|H8].
    + rewrite refill_buffer_eq by exact Hl. cbn [counter buffer buffer_position snd].
      destruct (Z.leb_spec (p + (k + 1)) 8); [lia|].
      replace ((p + (k + 1) - 1) / 8) with 1 by lia.
      replace ((p + (k + 1) - 1) mod 8 + 1) with (0 + 1) by lia.
      reflexivity.
    + cbn [counter buffer buffer_position snd].
      destruct (Z.leb_spec (p + (k + 1)) 8); [|lia].
      f_equal. lia.
  - destruct (Z.leb_spec (p + (k + 1)) 8); [lia|].
    unfold next, is_buffer_empty, BUFFERSIZE. cbn [buffer_position].
    destruct (Z.eqb_spec ((p + k - 1) mod 8 + 1) 8) as [H8|H8].
    + rewrite refill_buffer_eq by apply length_block_of.
      cbn [counter buffer buffer_position snd].
      rewrite iter_incr_succ by lia.
      replace ((p + (k + 1) - 1) / 8) with ((p + k - 1) / 8 + 1) by lia.
      replace ((p + (k + 1) - 1) mod 8 + 1) with (0 + 1) by lia.
      reflexivity.
    + cbn [counter buffer buffer_position snd].
      replace ((p + (k + 1) - 1) / 8) with ((p + k - 1) / 8) by lia.
      f_equal. lia.
Qed.

Lemma nasam_after_0 g : ok g -> after g 0 = g.
Proof.
  intros (Hs & Hi & Hl & Hp). unfold after. rewrite Z.add_0_r.
  destruct (Z.leb_spec (buffer_position g) 8); [|lia]. now destruct g.
Qed.

Lemma nasam_calls_after g (k : N) : ok g -> snd (calls k g) = after g (Z.of_N k).
Proof.
  intros Hg. pattern k. apply N.peano_ind; clear k; [|intros k IH].
  - unfold calls. cbn [N.iter snd Z.of_N]. now rewrite nasam_after_0.
  - rewrite nasam_calls_succ, IH, N2Z.inj_succ.
    apply nasam_next_after; [exact Hg | lia].
Qed.

Lemma to_int_small x : 0 <= x <= 8 -> to_int x = x.
Proof. unfold to_int. lia. Qed.

Lemma nasam_discard_eq g n :
  ok g -> is_u64 n ->
  discard g n =
    let p := buffer_position g in
    if n <=? 8 - p then mk (counter g) (buffer g) (p + n)
    else
      let c := N.iter (Z.to_N ((p + n - 8) / 8 + 1)) incr (counter g) in
      mk c (block_of c) ((p + n - 8) mod 8).
Proof.
  intros (Hs & Hi & Hl & Hp) Hn. unfold discard, BUFFERSIZE. cbv zeta.
  set (p := buffer_position g) in *.
  assert (Hr : wrap64 (8 - p) = 8 - p) by (apply wrap64_id; unfold is_u64; lia).
  rewrite Hr.
  destruct (Z.leb_spec n (8 - p)) as [Hle|Hgt].
  - rewrite to_int_small by (unfold is_u64 in Hn; lia). reflexivity.
  - assert (Hn' : wrap64 (n - (8 - p)) = p + n - 8).
    { rewrite wrap64_id by (unfold is_u64 in *; lia). lia. }
    rewrite Hn'.
    set (full := (p + n - 8) / 8).
    assert (Hfull : is_u64 full) by (unfold is_u64 in *; subst full; lia).
    assert (Hc : counter (if 0 <? full
                          then mk (advance (counter g) full) (buffer g) p
                          else g) = N.iter (Z.to_N full) incr (counter g)).
    { destruct (Z.ltb_spec 0 full) as [Hpos|Hz].
      - cbn [counter]. now apply advance_iter.
      - replace full with 0 by (unfold is_u64 in Hfull; lia). reflexivity. }
    assert (Hb : length (buffer (if 0 <? full
                          then mk (advance (counter g) full) (buffer g) p
                          else g)) = 8%nat).
    { destruct (0 <? full); exact Hl. }
    rewrite (refill_buffer_eq _ Hb), Hc. cbn [counter buffer].
    rewrite iter_incr_succ by (unfold is_u64 in Hfull; lia).
    rewrite to_int_small by lia. reflexivity.
Qed.

(** Nasam1024 half of the discard law: [discard(n)] followed by one call
    returns what the last of [n + 1] calls returns. *)
Lemma nasam_discard_then_next g n :
  ok g -> is_u64 n ->
  fst (next (discard g n)) = fst (calls (Z.to_N (n + 1)) g).
Proof.
  intros Hg Hn.
  assert (Hn0 : 0 <= n) by (unfold is_u64 in Hn; lia).
  rewrite Z2N.inj_add by lia. change (Z.to_N 1) with 1%N.
  rewrite N.add_1_r, nasam_calls_succ, (nasam_calls_after g _ Hg), Z2N.id by exact Hn0.
  rewrite (nasam_discard_eq g n Hg Hn). cbv zeta. unfold after.
  destruct Hg as (Hs & Hi & Hl & Hp).
  set (p := buffer_position g) in *.
  destruct (Z.leb_spec n (8 - p)) as [Hle|Hgt];
    destruct (Z.leb_spec (p + n) 8) as [Hle'|Hgt'];
    [reflexivity | exfalso; lia | exfalso; lia |].
  destruct (Z.eq_dec ((p + n - 8) mod 8) 0) as [Hz|Hnz].
  - (* the final block is refilled by the call itself *)
    unfold next at 2. unfold is_buffer_empty, BUFFERSIZE. cbn [buffer_position].
      replace ((p + n - 1) mod 8 + 1 =? 8) with true by (symmetry; apply Z.eqb_eq; lia).
      rewrite refill_buffer_eq by apply length_block_of.
      cbn [counter buffer buffer_position fst].
      rewrite iter_incr_succ by lia.
      replace ((p + n - 1) / 8 + 1) with ((p + n - 8) / 8 + 1) by lia.
      unfold next, is_buffer_empty, BUFFERSIZE. cbn [buffer_position].
      rewrite Hz. cbn [Z.eqb buffer fst buffer_position]. reflexivity.
  - replace ((p + n - 1) / 8) with ((p + n - 8) / 8 + 1) by lia.
      replace ((p + n - 1) mod 8 + 1) with ((p + n - 8) mod 8) by lia.
      reflexivity.
Qed.

End Nasam1024_facts.

(* ------------------------------------------------------------------------- *)
(** ** csprng                                                                 *)
(* ------------------------------------------------------------------------- *)

Module csprng_facts.
Import Counter_1024_facts csprng.

(** *** Repeated calls in closed form *)

Section Calls.
Variable ChaCha_state : Type.
Variable build_state : list Z -> list Z -> Z -> ChaCha_state.
Variable permute_block : ChaCha_state -> list Z.

Local Abbreviation refill_buffer := (refill_buffer ChaCha_state build_state permute_block).
Local Abbreviation next := (next ChaCha_state build_state permute_block).
Local Abbreviation discard := (discard ChaCha_state build_state permute_block).
Local Abbreviation calls := (calls ChaCha_state build_state permute_block).
Local Abbreviation after := (after ChaCha_state build_state permute_block).
Local Abbreviation block := (block ChaCha_state build_state permute_block).

Lemma csprng_calls_succ k s : calls (N.succ k) s = bind (calls k s) (fun _ => next).
Proof. unfold csprng.calls. now rewrite N.iter_succ. Qed.

Lemma csprng_next_after s k :
  ok s -> 0 <= k -> survives s k = true ->
  if survives s (k + 1)
  then exists v, next (after s k) = Ok v (after s (k + 1))
  else exists e s', next (after s k) = Throw e s'.
Proof.
  destruct s as [ky nn c b p]. unfold ok, survives, csprng.after, is_u64.
  cbn [word_index block_counter key nonce buffer]. intros [Hp Hc] Hk Hs.
  unfold csprng.next, csprng.refill_buffer, with_buffer, with_word_index,
    with_block_counter, wrap64, csprng.block.
  destruct (Z.leb_spec (p + k) 8) as [Hm|Hm];
    cbn [word_index block_counter key nonce buffer bind].
  - destruct (Z.leb_spec 8 (p + k)) as [H8|H8];
      cbn [word_index block_counter key nonce buffer bind].
    + (* the buffer is exhausted: refill from counter c *)
      destruct (Z.leb_spec (p + (k + 1)) 8) as [Hm'|Hm']; [lia|].
      cbn [orb].
      replace ((p + (k + 1) - 1) / 8) with 1 by lia.
      destruct (Z.ltb_spec (c + 1) (2 ^ 64)) as [Hlt|Hge].
      * replace ((c + 1) mod 2 ^ 64) with (c + 1) by lia.
        destruct (Z.eqb_spec (c + 1) 0) as [H0|H0]; [lia|].
        cbn [bind word_index block_counter key nonce buffer].
        eexists. f_equal. f_equal; [f_equal; f_equal; lia | lia].
      * replace ((c + 1) mod 2 ^ 64) with 0 by lia.
        cbn [Z.eqb bind]. eauto.
    + destruct (Z.leb_spec (p + (k + 1)) 8) as [Hm'|Hm']; [|lia].
      cbn [orb]. eexists. f_equal. f_equal. lia.
  - cbn [orb] in Hs. apply Z.ltb_lt in Hs.
    destruct (Z.leb_spec (p + (k + 1)) 8) as [Hm'|Hm']; [lia|].
    cbn [orb].
    set (q := (p + k - 1) / 8) in *.
    destruct (Z.leb_spec 8 ((p + k - 1) mod 8 + 1)) as [H8|H8];
      cbn [word_index block_counter key nonce buffer bind].
    + replace ((p + (k + 1) - 1) / 8) with (q + 1) by lia.
      destruct (Z.ltb_spec (c + (q + 1)) (2 ^ 64)) as [Hlt|Hge].
      * replace ((c + q + 1) mod 2 ^ 64) with (c + q + 1) by lia.
        destruct (Z.eqb_spec (c + q + 1) 0) as [H0|H0]; [lia|].
        cbn [bind word_index block_counter key nonce buffer].
        eexists. f_equal.
        f_equal; [lia | f_equal; f_equal; lia | lia].
      * replace ((c + q + 1) mod 2 ^ 64) with 0 by lia.
        cbn [Z.eqb bind]. eauto.
    + replace ((p + (k + 1) - 1) / 8) with q by lia.
      replace (c + q <? 2 ^ 64) with true by (symmetry; apply Z.ltb_lt; lia).
      eexists. f_equal. f_equal. lia.
Qed.

Lemma survives_mono s k :
  ok s -> 0 <= k -> survives s (k + 1) = true -> survives s k = true.
Proof.
  unfold ok, survives, is_u64. intros [Hp Hc] Hk H.
  apply orb_true_iff in H. apply orb_true_iff.
  rewrite Z.leb_le, Z.ltb_lt in *. lia.
Qed.

Lemma csprng_after_0 s : ok s -> after s 0 = s.
Proof.
  intros [Hp _]. unfold csprng.after. rewrite Z.add_0_r.
  destruct (Z.leb_spec (word_index s) 8); [|lia]. now destruct s.
Qed.

Lemma csprng_calls_spec s (k : N) :
  ok s ->
  if survives s (Z.of_N k)
  then exists v, calls k s = Ok v (after s (Z.of_N k))
  else exists e s', calls k s = Throw e s'.
Proof.
  intros Hs. pattern k. apply N.peano_ind; clear k; [|intros k IH].
  - replace (survives s (Z.of_N 0)) with true.
    + exists 0. unfold csprng.calls. cbn [N.iter Z.of_N]. now rewrite csprng_after_0.
    + symmetry. unfold survives. apply orb_true_iff. left. apply Z.leb_le.
      destruct Hs. cbn [Z.of_N]. lia.
  - rewrite csprng_calls_succ, N2Z.inj_succ. unfold Z.succ.
    pose proof (csprng_next_after s (Z.of_N k) Hs ltac:(lia)) as Hn.
    pose proof (survives_mono s (Z.of_N k) Hs ltac:(lia)) as Hmono.
    destruct (survives s (Z.of_N k)).
    + destruct IH as [v ->]. cbn [bind]. apply Hn. reflexivity.
    + destruct (survives s (Z.of_N k + 1)); [discriminate Hmono; reflexivity|].
      destruct IH as (e & s' & ->). cbn [bind]. eauto.
Qed.

End Calls.

(** *** The class invariant

    Construction and reseeding establish it, and every call keeps it,
    whether the call returns or throws. *)

Section Invariant.
Variable ChaCha_state : Type.
Variable build_state : list Z -> list Z -> Z -> ChaCha_state.
Variable permute_block : ChaCha_state -> list Z.

Local Abbreviation refill_buffer := (refill_buffer ChaCha_state build_state permute_block).
Local Abbreviation next := (next ChaCha_state build_state permute_block).
Local Abbreviation discard := (discard ChaCha_state build_state permute_block).
Local Abbreviation reseed := (reseed ChaCha_state build_state permute_block).
Local Abbreviation ctor := (ctor ChaCha_state build_state permute_block).
Local Abbreviation block := (block ChaCha_state build_state permute_block).
Local Abbreviation buffer_current :=
  (buffer_current ChaCha_state build_state permute_block).
Local Abbreviation inv := (inv ChaCha_state build_state permute_block).

Lemma refill_inv s :
  is_u64 (block_counter s) -> inv (engine (refill_buffer s)).
Proof.
  destruct s as [ky nn c b p]. unfold csprng.inv, ok, csprng.buffer_current, is_u64.
  cbn [block_counter]. intros Hc.
  unfold csprng.refill_buffer, with_buffer, with_word_index,
    with_block_counter, csprng.block.
  cbn [key nonce block_counter buffer word_index].
  assert (Hw : wrap64 (wrap64 (c + 1) - 1) = c) by (unfold wrap64; lia).
  assert (Hu : 0 <= wrap64 (c + 1) < 2 ^ 64) by apply wrap64_range.
  destruct (wrap64 (c + 1) =? 0);
    cbn [engine key nonce block_counter buffer word_index];
    rewrite Hw; repeat split; auto; lia.
Qed.

Lemma refill_word_index s :
  word_index (engine (refill_buffer s)) = 0.
Proof.
  unfold csprng.refill_buffer, with_buffer, with_word_index,
    with_block_counter. cbn [block_counter].
  destruct (_ =? 0); reflexivity.
Qed.

Lemma inv_advance_index s w :
  inv s -> word_index s <= w <= 8 -> inv (with_word_index s w).
Proof.
  intros [[Hp Hc] Hb] Hw. unfold csprng.inv, ok, csprng.buffer_current, with_word_index.
  cbn [key nonce block_counter buffer word_index].
  split; [split; [lia|exact Hc]|].
  intros Hlt. apply Hb. lia.
Qed.

Lemma inv_exhausted s c :
  is_u64 c -> inv (mk (key s) (nonce s) c (buffer s) 8).
Proof.
  intros Hc. unfold csprng.inv, ok, csprng.buffer_current.
  cbn [key nonce block_counter buffer word_index].
  split; [split; [lia|exact Hc]|]. lia.
Qed.

Lemma next_inv s : inv s -> inv (engine (next s)).
Proof.
  intros Hs. pose proof Hs as [[Hp Hc] Hb]. unfold csprng.next.
  destruct (Z.leb_spec 8 (word_index s)) as [H8|H8].
  - pose proof (refill_inv s Hc) as Hr.
    pose proof (refill_word_index s) as Hw.
    destruct (refill_buffer s) as [u s'|e s']; cbn [bind engine] in *.
    + apply inv_advance_index; [exact Hr|]. rewrite Hw.
      change (wrap64 (0 + 1)) with 1. lia.
    + exact Hr.
  - cbn [bind engine]. apply inv_advance_index; [exact Hs|].
    rewrite wrap64_id by (unfold is_u64; lia). lia.
Qed.

Lemma refill_then_index_inv s w :
  is_u64 (block_counter s) -> 0 <= w <= 8 ->
  inv (engine (bind (refill_buffer s)
                    (fun _ rng => Ok tt (with_word_index rng w)))).
Proof.
  intros Hc Hw.
  pose proof (refill_inv s Hc) as Hr.
  pose proof (refill_word_index s) as Hi.
  destruct (refill_buffer s) as [u s'|e s']; cbn [bind engine] in *.
  - apply inv_advance_index; [exact Hr|]. rewrite Hi. exact Hw.
  - exact Hr.
Qed.

Lemma discard_inv s n : inv s -> is_u64 n -> inv (engine (discard s n)).
Proof.
  intros Hs Hn. pose proof Hs as [[Hp Hc] Hb]. unfold csprng.discard.
  destruct (Z.eqb_spec n 0); [exact Hs|].
  assert (Hrem : wrap64 (8 - word_index s) = 8 - word_index s)
    by (apply wrap64_id; unfold is_u64; lia).
  rewrite Hrem. unfold is_u64 in Hn, Hc.
  destruct (Z.ltb_spec n (8 - word_index s)) as [Hlt|Hge].
  - cbn [engine]. apply inv_advance_index; [exact Hs|].
    rewrite wrap64_id by (unfold is_u64; lia). lia.
  - rewrite (wrap64_id (n - (8 - word_index s))) by (unfold is_u64; lia).
    set (full := (n - (8 - word_index s)) / 8).
    set (rm := (n - (8 - word_index s)) mod 8).
    assert (Hrm : 0 <= rm <= 8) by (subst rm; lia).
    unfold with_word_index at 1 2 3 4, with_block_counter.
    cbn [key nonce block_counter buffer word_index].
    destruct (0 <? full).
    + destruct (block_counter s >? UINT64_MAX - full); cbn [bind].
      * cbn [engine]. now apply inv_exhausted.
      * destruct (rm =? 0); cbn [negb].
        -- cbn [engine]. apply inv_exhausted, wrap64_range.
        -- apply refill_then_index_inv; [apply wrap64_range | exact Hrm].
    + cbn [bind]. destruct (rm =? 0); cbn [negb].
      * cbn [engine]. now apply inv_exhausted.
      * apply refill_then_index_inv; [exact Hc | exact Hrm].
Qed.

Lemma ctor_inv k n c : is_u64 c -> inv (engine (ctor k n c)).
Proof. intros Hc. unfold csprng.ctor. now apply refill_inv. Qed.

Lemma reseed_inv s k n : inv (engine (reseed s k n)).
Proof.
  unfold csprng.reseed. apply refill_inv.
  cbn [with_block_counter block_counter]. unfold is_u64. lia.
Qed.

End Invariant.

(** The skip of [full] whole blocks when the block counter has room. *)
Lemma skip_fits ky nn c b full :
  0 <= c -> 0 <= full -> c + full < 2 ^ 64 ->
  (if 0 <? full
   then if c >? 2 ^ 64 - 1 - full
        then Throw block_counter_overflow_during_discard (mk ky nn c b 8)
        else Ok tt (mk ky nn (wrap64 (c + full)) b 8)
   else Ok tt (mk ky nn c b 8)) = Ok tt (mk ky nn (c + full) b 8).
Proof.
  intros Hc Hfull Hfit.
  destruct (Z.ltb_spec 0 full) as [Hpos|Hzero].
  - destruct (Z.gtb_spec c (2 ^ 64 - 1 - full)); [lia|].
    rewrite wrap64_id by (unfold is_u64; lia). reflexivity.
  - replace full with 0 by lia. now rewrite Z.add_0_r.
Qed.

(** *** discard against repeated calls *)

Section Discard.
Variable ChaCha_state : Type.
Variable build_state : list Z -> list Z -> Z -> ChaCha_state.
Variable permute_block : ChaCha_state -> list Z.

Local Abbreviation refill_buffer := (refill_buffer ChaCha_state build_state permute_block).
Local Abbreviation next := (next ChaCha_state build_state permute_block).
Local Abbreviation discard := (discard ChaCha_state build_state permute_block).
Local Abbreviation calls := (calls ChaCha_state build_state permute_block).
Local Abbreviation after := (after ChaCha_state build_state permute_block).
Local Abbreviation block := (block ChaCha_state build_state permute_block).

(** With the buffer exhausted, a call does not depend on the stale buffer. *)
Lemma next_exhausted ky nn c b b' :
  next (mk ky nn c b 8) = next (mk ky nn c b' 8).
Proof. reflexivity. Qed.

(** csprng half of the discard law. *)
Lemma csprng_discard_then_next s n :
  ok s -> is_u64 n ->
  returned (bind (discard s n) (fun _ => next)) =
  returned (calls (Z.to_N (n + 1)) s).
Proof.
  intros Hs Hn.
  assert (Hn0 : 0 <= n) by (unfold is_u64 in Hn; lia).
  rewrite Z2N.inj_add by lia. change (Z.to_N 1) with 1%N.
  rewrite N.add_1_r, csprng_calls_succ.
  pose proof (csprng_calls_spec _ build_state permute_block s (Z.to_N n) Hs) as Hn_calls.
  pose proof (csprng_calls_spec _ build_state permute_block s (N.succ (Z.to_N n)) Hs)
    as Hn1_calls.
  rewrite csprng_calls_succ in Hn1_calls.
  rewrite N2Z.inj_succ in Hn1_calls. unfold Z.succ in Hn1_calls.
  rewrite Z2N.id in Hn_calls, Hn1_calls by exact Hn0.
  revert Hn_calls Hn1_calls.
  destruct s as [ky nn c b p]. destruct Hs as [Hp Hc].
  unfold is_u64 in *. cbn [word_index block_counter] in Hp, Hc.
  unfold survives, csprng.after, csprng.block.
  cbn [word_index block_counter key nonce buffer].
  unfold csprng.discard, with_word_index, with_block_counter, UINT64_MAX.
  cbn [word_index block_counter key nonce buffer].
  destruct (Z.eqb_spec n 0) as [->|Hnz].
  { (* n = 0 *)
    intros _ _. unfold csprng.calls. cbn [N.iter Z.to_N bind]. reflexivity. }
  assert (Hrem : wrap64 (8 - p) = 8 - p) by (apply wrap64_id; unfold is_u64; lia).
  rewrite Hrem.
  destruct (Z.ltb_spec n (8 - p)) as [Hlt|Hge].
  { (* within the buffer *)
    rewrite wrap64_id by (unfold is_u64; lia).
    destruct (Z.leb_spec (p + n) 8) as [_|]; [|lia]. cbn [orb].
    intros [v ->] _. cbn [bind]. reflexivity. }
  assert (Hn' : wrap64 (n - (8 - p)) = p + n - 8).
  { rewrite wrap64_id by (unfold is_u64; lia). lia. }
  rewrite Hn'.
  set (full := (p + n - 8) / 8). set (rm := (p + n - 8) mod 8).
  assert (Hfull : 0 <= full) by (subst full; lia).
  assert (Hq1 : (p + (n + 1) - 1) / 8 = full + 1) by (subst full; lia).
  destruct (Z.leb_spec (p + (n + 1)) 8) as [|_]; [lia|]. cbn [orb].
  rewrite Hq1.
  (* the state reached by the skip of whole blocks, unless it overflows *)
  destruct (Z.ltb_spec (c + (full + 1)) (2 ^ 64)) as [Hfit|Hover].
  2:{ (* n + 1 calls throw *)
    intros _ (e & s' & ->). cbn [returned].
    destruct (Z.ltb_spec 0 full) as [Hpos|Hzero].
    - destruct (Z.gtb_spec c (2 ^ 64 - 1 - full)) as [Hgt|Hle].
      + reflexivity.
      + cbn [bind block_counter].
        assert (c + full = 2 ^ 64 - 1) by lia.
        rewrite (wrap64_id (c + full)) by (unfold is_u64; lia).
        destruct (Z.eqb_spec rm 0) as [Hr0|Hr0];
          cbn [negb bind]; unfold csprng.next, csprng.refill_buffer,
          with_buffer, with_word_index, with_block_counter;
          cbn [word_index block_counter key nonce buffer Z.leb];
          replace (wrap64 (c + full + 1)) with 0 by (unfold wrap64; lia);
          reflexivity.
    - assert (full = 0) by lia. assert (c = 2 ^ 64 - 1) by lia.
      cbn [bind].
      destruct (Z.eqb_spec rm 0) as [Hr0|Hr0];
        cbn [negb bind]; unfold csprng.next, csprng.refill_buffer,
        with_buffer, with_word_index, with_block_counter;
        cbn [word_index block_counter key nonce buffer Z.leb];
        replace (wrap64 (c + 1)) with 0 by (unfold wrap64; lia);
        reflexivity. }
  (* no overflow *)
  intros Hcalls _.
  rewrite (skip_fits ky nn c b full) by lia. cbn [bind].
  destruct (Z.eqb_spec rm 0) as [Hr0|Hr0]; cbn [negb bind].
  - (* the skip ends on a block boundary *)
    destruct (Z.leb_spec (p + n) 8) as [Hm|Hm]; cbn [orb] in Hcalls.
    + destruct Hcalls as [v ->]. cbn [bind].
      replace full with 0 by (subst full; lia).
      replace (p + n) with 8 by lia. now rewrite Z.add_0_r.
    + assert (Hq : (p + n - 1) / 8 = full) by (subst full rm; lia).
      assert (Hr : (p + n - 1) mod 8 + 1 = 8) by (subst full rm; lia).
      rewrite Hq, Hr in Hcalls.
      replace (c + full <? 2 ^ 64) with true in Hcalls
        by (symmetry; apply Z.ltb_lt; lia).
      destruct Hcalls as [v ->]. cbn [bind].
      apply (f_equal returned). apply next_exhausted.
  - (* the skip ends inside the next block *)
    destruct (Z.leb_spec (p + n) 8) as [Hm|Hm]; [subst rm; lia|].
    cbn [orb] in Hcalls.
    assert (Hq : (p + n - 1) / 8 = full + 1) by (subst full rm; lia).
    assert (Hr : (p + n - 1) mod 8 + 1 = rm) by (subst full rm; lia).
    rewrite Hq, Hr in Hcalls.
    replace (c + (full + 1) <? 2 ^ 64) with true in Hcalls
      by (symmetry; apply Z.ltb_lt; lia).
    destruct Hcalls as [v ->]. cbn [bind].
    unfold csprng.refill_buffer, with_buffer, with_word_index,
      with_block_counter.
    cbn [word_index block_counter key nonce buffer].
    rewrite (wrap64_id (c + full + 1)) by (unfold is_u64; lia).
    destruct (Z.eqb_spec (c + full + 1) 0); [lia|]. cbn [bind].
    replace (c + (full + 1)) with (c + full + 1) by lia.
    replace (c + full + 1 - 1) with (c + full) by lia.
    reflexivity.
Qed.

End Discard.

(** *** operator== *)

Lemma lor_lxor_step d x y : Z.lor d (Z.lxor x y) = 0 <-> d = 0 /\ x = y.
Proof.
  rewrite Z.lor_eq_0_iff. split; intros [Hd Hx]; split; auto.
  - now apply Z.lxor_eq.
  - subst. apply Z.lxor_nilpotent.
Qed.

Lemma diff_fold_zero (a b : list Z) :
  fold_left (fun d i => Z.lor d (Z.lxor (get a i) (get b i))) (seq 0 8) 0 = 0
  <-> words_agree a b.
Proof.
  cbn [fold_left seq]. rewrite !lor_lxor_step. unfold words_agree. split.
  - intros H i Hi.
    do 8 (destruct i as [|i]; [tauto|]). lia.
  - intros H. repeat split; try reflexivity; apply H; lia.
Qed.

Lemma words_agree_eq (a b : list Z) :
  length a = 8%nat -> length b = 8%nat -> words_agree a b -> a = b.
Proof.
  intros Ha Hb H. apply (nth_ext a b 0 0); [congruence|].
  intros i Hi. apply H. lia.
Qed.

Lemma words_agree_refl a : words_agree a a.
Proof. intros i _. reflexivity. Qed.

Lemma bytes_eqb_true a b : bytes_eqb a b = true <-> a = b.
Proof. unfold bytes_eqb. destruct (list_eq_dec Z.eq_dec a b); split; congruence. Qed.

(** [operator==] in full. *)
Lemma eqb_true_iff (lhs rhs : t) :
  eqb lhs rhs = true <->
  words_agree (key lhs) (key rhs) /\ nonce lhs = nonce rhs /\
  block_counter lhs = block_counter rhs /\ word_index lhs = word_index rhs /\
  (word_index lhs < 8 -> words_agree (buffer lhs) (buffer rhs)).
Proof.
  unfold eqb.
  pose proof (diff_fold_zero (key lhs) (key rhs)) as Hk.
  pose proof (diff_fold_zero (buffer lhs) (buffer rhs)) as Hb.
  destruct (Z.eqb_spec
    (fold_left (fun d i => Z.lor d (Z.lxor (get (key lhs) i) (get (key rhs) i)))
       (seq 0 8) 0) 0) as [Hk0|Hk0]; cbn [negb orb].
  - destruct (bytes_eqb (nonce lhs) (nonce rhs)) eqn:En; cbn [andb negb].
    + apply bytes_eqb_true in En.
      destruct (Z.eqb_spec (block_counter lhs) (block_counter rhs)) as [Ec|Ec];
        cbn [andb negb].
      * destruct (Z.eqb_spec (word_index lhs) (word_index rhs)) as [Ew|Ew];
          cbn [andb negb].
        -- destruct (Z.ltb_spec (word_index lhs) 8) as [Hlt|Hge].
           ++ rewrite Z.eqb_eq, Hb. tauto.
           ++ split; [|reflexivity]. intros _.
              repeat split; try tauto. lia.
        -- split; [discriminate|tauto].
      * split; [discriminate|tauto].
    + split; [discriminate|]. intros (_ & Hn & _).
      apply bytes_eqb_true in Hn. congruence.
  - split; [discriminate|]. tauto.
Qed.

(** C7. Engines that agree on key, nonce, block counter and word index with
    the word index at 8 compare equal whatever their buffers hold; engines
    whose keys differ never compare equal; and below word index 8 equality
    also asks for identical buffer words. *)
Theorem equality_ignores_stale_buffer (lhs rhs : t) :
  length (key lhs) = 8%nat -> length (key rhs) = 8%nat ->
  (key lhs = key rhs -> nonce lhs = nonce rhs ->
   block_counter lhs = block_counter rhs ->
   word_index lhs = 8 -> word_index rhs = 8 ->
   eqb lhs rhs = true) /\
  (key lhs <> key rhs -> eqb lhs rhs = false) /\
  (word_index lhs < 8 ->
   (eqb lhs rhs = true <->
    key lhs = key rhs /\ nonce lhs = nonce rhs /\
    block_counter lhs = block_counter rhs /\
    word_index lhs = word_index rhs /\
    words_agree (buffer lhs) (buffer rhs))).
Proof.
  intros Hl Hr. split; [|split].
  - intros Hk Hn Hc Hw Hw'. apply eqb_true_iff.
    rewrite Hk. repeat split; auto using words_agree_refl; lia.
  - intros Hk. destruct (eqb lhs rhs) eqn:E; [|reflexivity].
    apply eqb_true_iff in E. destruct E as (Ha & _).
    elim Hk. now apply words_agree_eq.
  - intros Hw. rewrite eqb_true_iff. split.
    + intros (Hk & Hn & Hc & Hi & Hb). repeat split; auto.
      now apply words_agree_eq.
    + intros (Hk & Hn & Hc & Hi & Hb). rewrite Hk.
      repeat split; auto using words_agree_refl.
Qed.

Lemma equality_ignores_stale_buffer_witness :
  (length (key eq_lhs) = 8%nat /\ length (key eq_rhs) = 8%nat) /\
  (key eq_lhs = key eq_rhs -> nonce eq_lhs = nonce eq_rhs ->
   block_counter eq_lhs = block_counter eq_rhs ->
   word_index eq_lhs = 8 -> word_index eq_rhs = 8 ->
   eqb eq_lhs eq_rhs = true) /\
  (key eq_lhs <> key eq_rhs -> eqb eq_lhs eq_rhs = false) /\
  (word_index eq_lhs < 8 ->
   (eqb eq_lhs eq_rhs = true <->
    key eq_lhs = key eq_rhs /\ nonce eq_lhs = nonce eq_rhs /\
    block_counter eq_lhs = block_counter eq_rhs /\
    word_index eq_lhs = word_index eq_rhs /\
    words_agree (buffer eq_lhs) (buffer eq_rhs))).
Proof.
  split; [split; reflexivity|].
  apply (equality_ignores_stale_buffer eq_lhs eq_rhs); reflexivity.
Defined.

(** *** Block-counter exhaustion and overflow *)

Section Overflow.
Variable ChaCha_state : Type.
Variable build_state : list Z -> list Z -> Z -> ChaCha_state.
Variable permute_block : ChaCha_state -> list Z.

Local Abbreviation refill_buffer := (refill_buffer ChaCha_state build_state permute_block).
Local Abbreviation next := (next ChaCha_state build_state permute_block).
Local Abbreviation discard := (discard ChaCha_state build_state permute_block).
Local Abbreviation take := (take ChaCha_state build_state permute_block).
Local Abbreviation block := (block ChaCha_state build_state permute_block).

(** C9. When [refill_buffer] detects exhaustion (block counter 2^64-1),
    it throws only after the buffer holds the block generated at counter
    2^64-1, [word_index] is 0 and [block_counter] has wrapped to 0; the
    next eight calls return that buffer's words without throwing, and the
    call after them refills from block counter 0 under the same key and
    nonce. *)
Theorem refill_exhaustion_leaves_usable_engine (s : t) :
  block_counter s = UINT64_MAX ->
  let last := block s UINT64_MAX in
  let s' := mk (key s) (nonce s) 0 last 0 in
  refill_buffer s = Throw key_nonce_pair_exhausted s' /\
  (8 <= word_index s -> next s = Throw key_nonce_pair_exhausted s') /\
  take 8 s' = Ok (map (get last) (seq 0 8)) (with_word_index s' 8) /\
  next (with_word_index s' 8) =
    Ok (get (block s 0) 0) (mk (key s) (nonce s) 1 (block s 0) 1).
Proof.
  intros Hc last s'.
  assert (Hr : refill_buffer s = Throw key_nonce_pair_exhausted s').
  { unfold csprng.refill_buffer, with_buffer, with_word_index,
      with_block_counter. cbn [key nonce block_counter buffer word_index].
    rewrite Hc. reflexivity. }
  split; [exact Hr|]. split; [|split].
  - intros Hw. unfold csprng.next.
    destruct (Z.leb_spec 8 (word_index s)); [|lia]. now rewrite Hr.
  - reflexivity.
  - reflexivity.
Qed.

(** C5, as the code has it.  With [full_blocks] the whole blocks skipped
    after the current buffer and [remainder] the outputs skipped in the
    block after them: an overflow of [block_counter + full_blocks] is
    reported by the skip itself with its own condition, key, nonce,
    block counter and buffer untouched; otherwise the block counter is
    advanced by [full_blocks], and by one more when the final block is
    generated, whose refill reports its own exhaustion condition when the
    counter wraps there. *)
Theorem discard_block_counter (s : t) (n : Z) :
  ok s -> is_u64 n ->
  let remaining := 8 - word_index s in
  let full_blocks := (n - remaining) / 8 in
  let remainder := (n - remaining) mod 8 in
  (n = 0 \/ n < remaining ->
     exists s', discard s n = Ok tt s' /\
       key s' = key s /\ nonce s' = nonce s /\
       block_counter s' = block_counter s /\ buffer s' = buffer s) /\
  (n <> 0 -> remaining <= n ->
     (0 < full_blocks -> UINT64_MAX < block_counter s + full_blocks ->
        exists s', discard s n = Throw block_counter_overflow_during_discard s' /\
          key s' = key s /\ nonce s' = nonce s /\
          block_counter s' = block_counter s /\ buffer s' = buffer s) /\
     (block_counter s + full_blocks <= UINT64_MAX -> remainder = 0 ->
        exists s', discard s n = Ok tt s' /\
          key s' = key s /\ nonce s' = nonce s /\
          block_counter s' = block_counter s + full_blocks /\
          buffer s' = buffer s /\ word_index s' = 8) /\
     (block_counter s + full_blocks < UINT64_MAX -> remainder <> 0 ->
        exists s', discard s n = Ok tt s' /\
          key s' = key s /\ nonce s' = nonce s /\
          block_counter s' = block_counter s + full_blocks + 1 /\
          buffer s' = block s (block_counter s + full_blocks) /\
          word_index s' = remainder) /\
     (block_counter s + full_blocks = UINT64_MAX -> remainder <> 0 ->
        exists s', discard s n = Throw key_nonce_pair_exhausted s' /\
          key s' = key s /\ nonce s' = nonce s /\
          block_counter s' = 0 /\
          buffer s' = block s UINT64_MAX /\ word_index s' = 0)).
Proof.
  destruct s as [ky nn c b p]. unfold ok, is_u64, UINT64_MAX.
  cbn [word_index block_counter key nonce buffer]. intros [Hp Hc] Hn.
  cbv zeta. unfold csprng.discard, with_word_index, with_block_counter,
    UINT64_MAX. cbn [word_index block_counter key nonce buffer].
  assert (Hrem : wrap64 (8 - p) = 8 - p) by (apply wrap64_id; unfold is_u64; lia).
  rewrite Hrem. split.
  - intros [->|Hlt].
    + cbn [Z.eqb]. eexists. split; [reflexivity|]. cbn. auto.
    + destruct (Z.eqb_spec n 0).
      * eexists. split; [reflexivity|]. cbn. auto.
      * destruct (Z.ltb_spec n (8 - p)); [|lia].
        eexists. split; [reflexivity|]. cbn. auto.
  - intros Hnz Hge.
    destruct (Z.eqb_spec n 0); [lia|].
    destruct (Z.ltb_spec n (8 - p)); [lia|].
    rewrite (wrap64_id (n - (8 - p))) by (unfold is_u64; lia).
    set (full := (n - (8 - p)) / 8). set (rm := (n - (8 - p)) mod 8).
    assert (Hfull : 0 <= full) by (subst full; lia).
    split; [|split; [|split]].
    + intros Hpos Hover.
      destruct (Z.ltb_spec 0 full); [|lia].
      destruct (Z.gtb_spec c (2 ^ 64 - 1 - full)); [|lia].
      cbn [bind]. eexists. split; [reflexivity|]. cbn. auto.
    + intros Hfit Hr0.
      rewrite (skip_fits ky nn c b full) by lia. rewrite Hr0.
      cbn [bind Z.eqb negb].
      eexists. split; [reflexivity|]. cbn. auto.
    + intros Hfit Hr0.
      rewrite (skip_fits ky nn c b full) by lia. cbn [bind].
      destruct (Z.eqb_spec rm 0); [lia|]. cbn [negb].
      unfold csprng.refill_buffer, with_buffer, with_word_index,
        with_block_counter. cbn [word_index block_counter key nonce buffer].
      rewrite (wrap64_id (c + full + 1)) by (unfold is_u64; lia).
      destruct (Z.eqb_spec (c + full + 1) 0); [lia|]. cbn [bind].
      eexists. split; [reflexivity|]. cbn. auto.
    + intros Hfit Hr0.
      rewrite (skip_fits ky nn c b full) by lia. cbn [bind].
      destruct (Z.eqb_spec rm 0); [lia|]. cbn [negb].
      unfold csprng.refill_buffer, with_buffer, with_word_index,
        with_block_counter. cbn [word_index block_counter key nonce buffer].
      replace (wrap64 (c + full + 1)) with 0 by (unfold wrap64; lia).
      cbn [Z.eqb bind].
      eexists. split; [reflexivity|]. cbn [key nonce block_counter buffer word_index].
      unfold csprng.block. cbn [key nonce]. rewrite Hfit. auto.
Qed.

End Overflow.

(** *** Serialization *)

Lemma length_le_bytes n w : length (le_bytes n w) = n.
Proof. revert w. induction n; intros w; cbn [le_bytes length]; auto. Qed.

Lemma le_word_le_bytes n : forall w,
  0 <= w < 256 ^ Z.of_nat n -> le_word (le_bytes n w) = w.
Proof.
  induction n as [|n IH]; intros w Hw.
  - cbn [le_bytes le_word]. change (256 ^ Z.of_nat 0) with 1 in Hw. lia.
  - cbn [le_bytes le_word].
    rewrite Nat2Z.inj_succ, Z.pow_succ_r in Hw by lia.
    rewrite IH by lia. lia.
Qed.

Lemma words_of_bytes_of_words width ks : forall count a rest,
  (forall i, 0 <= get ks i < 256 ^ Z.of_nat width) ->
  words_of_bytes width count
    (flat_map (fun i => le_bytes width (get ks i)) (seq a count) ++ rest) =
  map (get ks) (seq a count).
Proof.
  induction count as [|c IH]; intros a rest Hks; [reflexivity|].
  cbn [seq flat_map words_of_bytes map]. rewrite <- app_assoc.
  rewrite firstn_app, length_le_bytes, Nat.sub_diag, firstn_O, app_nil_r.
  rewrite firstn_all2 by (rewrite length_le_bytes; lia).
  rewrite skipn_app, length_le_bytes, Nat.sub_diag, skipn_O.
  rewrite skipn_all2 by (rewrite length_le_bytes; lia).
  cbn [app]. rewrite le_word_le_bytes by apply Hks.
  f_equal. now apply IH.
Qed.

Lemma map_get_seq ks : map (get ks) (seq 0 (length ks)) = ks.
Proof.
  apply (nth_ext _ _ 0 0).
  - now rewrite length_map, length_seq.
  - intros i Hi. rewrite length_map, length_seq in Hi.
    rewrite (nth_indep _ 0 (get ks 0)) by (now rewrite length_map, length_seq).
    rewrite map_nth, seq_nth by exact Hi. reflexivity.
Qed.

Lemma get_u32 ks i : Forall is_u32 ks -> 0 <= get ks i < 256 ^ Z.of_nat 4.
Proof.
  intros H. change (256 ^ Z.of_nat 4) with (2 ^ 32). unfold get. revert i.
  induction H as [|k t Hk Ht IH]; intros [|i]; cbn [nth]; auto; lia.
Qed.

Lemma words_roundtrip count ks rest :
  length ks = count -> Forall is_u32 ks ->
  words_of_bytes 4 count (bytes_of_words 4 count ks ++ rest) = ks.
Proof.
  intros Hl Hf. unfold bytes_of_words.
  rewrite words_of_bytes_of_words by (intros i; now apply get_u32).
  rewrite <- Hl. apply map_get_seq.
Qed.

Lemma length_bytes_of_words width count ks :
  length (bytes_of_words width count ks) = (count * width)%nat.
Proof.
  unfold bytes_of_words. generalize 0%nat.
  induction count as [|c IH]; intros a; cbn [seq flat_map]; [reflexivity|].
  rewrite length_app, length_le_bytes, IH. lia.
Qed.

Lemma overlay_full data old :
  (length old <= length data)%nat -> overlay data old = data.
Proof.
  intros H. unfold overlay. rewrite skipn_all2 by exact H. apply app_nil_r.
Qed.

Lemma read_app n data rest :
  length data = n ->
  read n (mk_istream (data ++ rest) true) = (data, mk_istream rest true).
Proof.
  intros Hl. unfold read. cbn [good negb pending].
  destruct (Nat.ltb_spec (length (data ++ rest)) n) as [H|H].
  - rewrite length_app in H. lia.
  - rewrite firstn_app, skipn_app, Hl, Nat.sub_diag, firstn_O, skipn_O, app_nil_r.
    rewrite <- Hl, firstn_all, skipn_all. reflexivity.
Qed.

Lemma get_char_cons b rest :
  get_char (mk_istream (b :: rest) true) = (b, mk_istream rest true).
Proof. reflexivity. Qed.

Lemma length_serialize s : length (serialize s) = 65%nat.
Proof.
  unfold serialize.
  rewrite !length_app, !length_bytes_of_words, length_le_bytes. reflexivity.
Qed.

Section Serialization.
Variable ChaCha_state : Type.
Variable build_state : list Z -> list Z -> Z -> ChaCha_state.
Variable permute_block : ChaCha_state -> list Z.
Variable literal_pad : Z.

Local Abbreviation refill_buffer := (refill_buffer ChaCha_state build_state permute_block).
Local Abbreviation calls := (calls ChaCha_state build_state permute_block).
Local Abbreviation deserialize :=
  (deserialize ChaCha_state build_state permute_block literal_pad).
Local Abbreviation block := (block ChaCha_state build_state permute_block).
Local Abbreviation inv := (csprng.inv ChaCha_state build_state permute_block).

(** [operator>>] on a record written by [operator<<], up to the point
    where the buffer is rebuilt. *)
Lemma deserialize_serialized (s rng0 : t) (rest : list Z) :
  literal_pad = 0 -> fields_ok s -> 0 <= word_index s <= 8 ->
  deserialize (mk_istream (serialize s ++ rest) true) rng0 =
    let rng := mk (key s) (nonce s) (block_counter s) (buffer rng0)
                  (word_index s) in
    if word_index s <? 8 then
      if block_counter s =? 0
      then Throw mid_block_state_at_counter_zero rng
      else
        bind (refill_buffer
                (with_block_counter rng (wrap64 (block_counter s - 1))))
             (fun _ rng =>
                Ok (mk_istream rest true)
                   (with_word_index
                      (with_block_counter rng (block_counter s))
                      (word_index s)))
    else Ok (mk_istream rest true) rng.
Proof.
  intros Hpad (Hk & Hkf & Hn & Hnf & Hc) Hw.
  unfold csprng.deserialize, serialize. rewrite <- !app_assoc.
  rewrite read_app by reflexivity.
  rewrite overlay_full by (cbn; lia).
  rewrite Hpad. cbn [good negb orb literal_csprng app].
  change (bytes_eqb magic [99; 115; 112; 114; 110; 103; 0; 0]) with true.
  cbn [negb]. cbn [app]. rewrite get_char_cons.
  cbn [good negb orb]. change (version mod 256 =? 1) with true. cbn [negb].
  rewrite read_app by apply length_bytes_of_words.
  rewrite overlay_full by (rewrite !length_bytes_of_words; lia).
  rewrite <- (app_nil_r (bytes_of_words 4 8 (key s))).
  rewrite words_roundtrip by assumption.
  rewrite read_app by apply length_bytes_of_words.
  unfold with_key. cbn [key nonce block_counter buffer word_index].
  rewrite overlay_full by (rewrite !length_bytes_of_words; lia).
  rewrite <- (app_nil_r (bytes_of_words 4 2 (nonce s))).
  rewrite words_roundtrip by assumption.
  rewrite read_app by apply length_le_bytes.
  unfold with_nonce. cbn [key nonce block_counter buffer word_index].
  rewrite overlay_full by (rewrite !length_le_bytes; lia).
  rewrite le_word_le_bytes by (exact Hc).
  cbn [app]. rewrite get_char_cons. cbn [good negb orb].
  replace (word_index s mod 256) with (word_index s) by lia.
  destruct (Z.ltb_spec (word_index s) 0); [lia|].
  destruct (Z.gtb_spec (word_index s) 8); [lia|]. cbn [orb].
  rewrite read_app by reflexivity. cbn [good negb].
  unfold with_word_index, with_block_counter, with_nonce, with_key.
  cbn [key nonce block_counter buffer word_index].
  reflexivity.
Qed.

(** The round trip as far as the code achieves it: only if the byte read
    past the literal happens to be 0, and only for an engine that satisfies
    the class invariant.  Then the record of an engine that is mid-buffer
    (word index in (0,8)) with block counter at least 1 restores that
    engine exactly, and a record with word index in (0,8) and block counter
    0 is rejected with its own error. *)
Lemma roundtrip_when_pad_reads_zero (s rng0 : t) (rest : list Z) :
  literal_pad = 0 -> fields_ok s -> inv s -> 0 < word_index s < 8 ->
  length (serialize s) = 65%nat /\
  (1 <= block_counter s ->
   deserialize (mk_istream (serialize s ++ rest) true) rng0 =
     Ok (mk_istream rest true) s /\
   forall k,
     calls k (engine (deserialize (mk_istream (serialize s ++ rest) true) rng0))
     = calls k s) /\
  (block_counter s = 0 ->
   exists rng',
     deserialize (mk_istream (serialize s ++ rest) true) rng0 =
       Throw mid_block_state_at_counter_zero rng').
Proof.
  intros Hpad Hf [_ Hcur] Hw. split; [apply length_serialize|].
  rewrite (deserialize_serialized s rng0 rest Hpad Hf) by lia. cbv zeta.
  destruct (Z.ltb_spec (word_index s) 8) as [Hw8|]; [|lia].
  specialize (Hcur Hw8).
  destruct Hf as (_ & _ & _ & _ & Hc). unfold is_u64 in Hc.
  split.
  - intros Hc1.
    destruct (Z.eqb_spec (block_counter s) 0); [lia|].
    assert (Hr : bind
      (refill_buffer
         (with_block_counter
            (mk (key s) (nonce s) (block_counter s) (buffer rng0) (word_index s))
            (wrap64 (block_counter s - 1))))
      (fun _ rng =>
         Ok (mk_istream rest true)
            (with_word_index (with_block_counter rng (block_counter s))
               (word_index s))) = Ok (mk_istream rest true) s).
    { unfold csprng.refill_buffer, with_buffer, with_word_index,
        with_block_counter. cbn [key nonce block_counter buffer word_index].
      rewrite (wrap64_id (block_counter s - 1)) by (unfold is_u64; lia).
      replace (block_counter s - 1 + 1) with (block_counter s) by lia.
      rewrite (wrap64_id (block_counter s)) by (unfold is_u64; lia).
      destruct (Z.eqb_spec (block_counter s) 0); [lia|]. cbn [bind].
      f_equal. destruct s as [ky nn c b p].
      cbn [key nonce block_counter buffer word_index] in *.
      unfold csprng.block in Hcur. cbn [key nonce] in Hcur.
      rewrite (wrap64_id (c - 1)) in Hcur by (unfold is_u64; lia).
      now rewrite Hcur. }
    rewrite Hr. split; reflexivity.
  - intros Hc0. rewrite Hc0. cbn [Z.eqb]. eauto.
Qed.

(** When the byte after the literal is not zero, the magic tag written by
    [operator<<] is never recognised. *)
Lemma deserialize_bad_magic (s rng0 : t) (rest : list Z) :
  literal_pad <> 0 ->
  deserialize (mk_istream (serialize s ++ rest) true) rng0 =
    Throw bad_magic rng0.
Proof.
  intros Hpad. unfold csprng.deserialize, serialize. rewrite <- !app_assoc.
  rewrite read_app by reflexivity.
  rewrite overlay_full by (cbn; lia).
  cbn [good negb orb literal_csprng app].
  unfold bytes_eqb.
  destruct (list_eq_dec Z.eq_dec magic [99; 115; 112; 114; 110; 103; 0; literal_pad])
    as [E|E]; [|reflexivity].
  unfold magic in E. congruence.
Qed.

(** Even when the byte read past the literal is 0, what comes back is the
    engine with its buffer rebuilt from key, nonce and counter: an engine
    whose buffer is not the block of the previous counter (as a failed
    [operator>>] leaves it) is not restored as it was. *)
Lemma roundtrip_rebuilds_buffer (s rng0 : t) (rest : list Z) :
  literal_pad = 0 -> fields_ok s -> 0 < word_index s < 8 ->
  1 <= block_counter s ->
  deserialize (mk_istream (serialize s ++ rest) true) rng0 =
    Ok (mk_istream rest true)
       (with_buffer s (block s (block_counter s - 1))).
Proof.
  intros Hpad Hf Hw Hc1.
  rewrite (deserialize_serialized s rng0 rest Hpad Hf) by lia. cbv zeta.
  destruct (Z.ltb_spec (word_index s) 8) as [Hw8|]; [|lia].
  destruct Hf as (_ & _ & _ & _ & Hc). unfold is_u64 in Hc.
  destruct (Z.eqb_spec (block_counter s) 0); [lia|].
  unfold csprng.refill_buffer, with_buffer, with_word_index,
    with_block_counter, csprng.block.
  cbn [key nonce block_counter buffer word_index].
  rewrite (wrap64_id (block_counter s - 1)) by (unfold is_u64; lia).
  replace (block_counter s - 1 + 1) with (block_counter s) by lia.
  rewrite (wrap64_id (block_counter s)) by (unfold is_u64; lia).
  destruct (Z.eqb_spec (block_counter s) 0); [lia|]. cbn [bind].
  reflexivity.
Qed.

(** C6 (the code does not do what the claim says).  [operator<<] writes the
    magic tag with a zero eighth byte; [operator>>] compares the eight
    bytes it read with the seven bytes of the literal ["csprng"] and the
    byte that follows the literal in memory.  Whenever that byte is not 0,
    the 65-byte record of every engine, with whatever follows it in the
    stream, is rejected as bad magic and the target engine is left as it
    was: no engine is restored and no round trip takes place. *)
Theorem written_record_is_rejected (s rng0 : t) (rest : list Z) :
  literal_pad <> 0 ->
  length (serialize s) = 65%nat /\
  firstn 8 (serialize s) = literal_csprng ++ [0] /\
  deserialize (mk_istream (serialize s ++ rest) true) rng0 =
    Throw bad_magic rng0 /\
  engine (deserialize (mk_istream (serialize s ++ rest) true) rng0) = rng0.
Proof.
  intros Hpad. split; [apply length_serialize|]. split; [reflexivity|].
  rewrite (deserialize_bad_magic s rng0 rest Hpad). split; reflexivity.
Qed.

End Serialization.

(** *** The discard law for both engines *)

Section Discard_law.
Variable ChaCha_state : Type.
Variable build_state : list Z -> list Z -> Z -> ChaCha_state.
Variable permute_block : ChaCha_state -> list Z.

Local Abbreviation next := (next ChaCha_state build_state permute_block).
Local Abbreviation discard := (discard ChaCha_state build_state permute_block).
Local Abbreviation calls := (calls ChaCha_state build_state permute_block).

(** C1. For both engines, from every engine state (cursor within [0,8],
    64-bit counters) and for every 64-bit [n]: [discard(n)] followed by one
    call returns what the last of [n + 1] successive calls returns; for
    [csprng], where a call can throw on block-counter exhaustion, either
    both sides return that same value or neither returns a value. *)
Theorem discard_then_next_is_last_call
  (g : Nasam1024.t) (s : t) (n : Z) :
  Nasam1024.ok g -> ok s -> is_u64 n ->
  fst (Nasam1024.next (Nasam1024.discard g n)) =
    fst (Nasam1024.calls (Z.to_N (n + 1)) g) /\
  returned (bind (discard s n) (fun _ => next)) =
    returned (calls (Z.to_N (n + 1)) s).
Proof.
  intros Hg Hs Hn. split.
  - now apply Nasam1024_facts.nasam_discard_then_next.
  - now apply csprng_discard_then_next.
Qed.

End Discard_law.

Lemma discard_then_next_is_last_call_witness :
  (Nasam1024.ok (Nasam1024.mk Counter_1024.ctor (repeat 0 8) 8) /\
   ok (mk (repeat 0 8) [0; 0] 5 (repeat 4 8) 3) /\ is_u64 13) /\
  fst (Nasam1024.next
         (Nasam1024.discard (Nasam1024.mk Counter_1024.ctor (repeat 0 8) 8) 13)) =
    fst (Nasam1024.calls (Z.to_N (13 + 1))
           (Nasam1024.mk Counter_1024.ctor (repeat 0 8) 8)) /\
  returned (bind (discard Z toy_build_state toy_permute_block
                    (mk (repeat 0 8) [0; 0] 5 (repeat 4 8) 3) 13)
                 (fun _ => next Z toy_build_state toy_permute_block)) =
    returned (calls Z toy_build_state toy_permute_block (Z.to_N (13 + 1))
                (mk (repeat 0 8) [0; 0] 5 (repeat 4 8) 3)).
Proof.
  assert (Hg : Nasam1024.ok (Nasam1024.mk Counter_1024.ctor (repeat 0 8) 8)).
  { split; [exact limbs_ok_ctor_state|].
    split; [exact limbs_ok_ctor_increment|].
    split; [reflexivity|]. cbn [Nasam1024.buffer_position]. lia. }
  assert (Hs : ok (mk (repeat 0 8) [0; 0] 5 (repeat 4 8) 3)).
  { unfold ok, is_u64. cbn [word_index block_counter]. lia. }
  assert (Hn : is_u64 13) by (unfold is_u64; lia).
  split; [auto|].
  exact (discard_then_next_is_last_call Z toy_build_state toy_permute_block
           _ _ 13 Hg Hs Hn).
Defined.

(** [discard] does not always report an overflow itself, nor before any
    state has changed: skipping one output from an exhausted buffer at
    block counter 2^64-1 overflows the counter in the refill, which
    reports exhaustion, not the skip's own condition, after buffer, word
    index and block counter have changed; and when the skip itself reports
    the overflow the word index has already been set to 8. *)
Lemma discard_overflow_counterexample :
  (discard Z toy_build_state toy_permute_block
     (mk (repeat 0 8) [0; 0] UINT64_MAX (repeat 7 8) 8) 1
   = Throw key_nonce_pair_exhausted
       (mk (repeat 0 8) [0; 0] 0 (repeat UINT64_MAX 8) 0) /\
   discard Z toy_build_state toy_permute_block
     (mk (repeat 0 8) [0; 0] UINT64_MAX (repeat 7 8) 8) 1
   <> Throw block_counter_overflow_during_discard
        (mk (repeat 0 8) [0; 0] UINT64_MAX (repeat 7 8) 8)) /\
  (discard Z toy_build_state toy_permute_block
     (mk (repeat 0 8) [0; 0] UINT64_MAX (repeat 7 8) 3) 13
   = Throw block_counter_overflow_during_discard
       (mk (repeat 0 8) [0; 0] UINT64_MAX (repeat 7 8) 8) /\
   discard Z toy_build_state toy_permute_block
     (mk (repeat 0 8) [0; 0] UINT64_MAX (repeat 7 8) 3) 13
   <> Throw block_counter_overflow_during_discard
        (mk (repeat 0 8) [0; 0] UINT64_MAX (repeat 7 8) 3)).
Proof.
  split; split; try (vm_compute; reflexivity); vm_compute; discriminate.
Qed.

Lemma discard_block_counter_witness :
  (ok (mk (repeat 0 8) [0; 0] 5 (repeat 4 8) 3) /\ is_u64 13) /\
  let s := mk (repeat 0 8) [0; 0] 5 (repeat 4 8) 3 in
  let n := 13 in
  let discard := discard Z toy_build_state toy_permute_block in
  let block := block Z toy_build_state toy_permute_block in
  let remaining := 8 - word_index s in
  let full_blocks := (n - remaining) / 8 in
  let remainder := (n - remaining) mod 8 in
  (n = 0 \/ n < remaining ->
     exists s', discard s n = Ok tt s' /\
       key s' = key s /\ nonce s' = nonce s /\
       block_counter s' = block_counter s /\ buffer s' = buffer s) /\
  (n <> 0 -> remaining <= n ->
     (0 < full_blocks -> UINT64_MAX < block_counter s + full_blocks ->
        exists s', discard s n = Throw block_counter_overflow_during_discard s' /\
          key s' = key s /\ nonce s' = nonce s /\
          block_counter s' = block_counter s /\ buffer s' = buffer s) /\
     (block_counter s + full_blocks <= UINT64_MAX -> remainder = 0 ->
        exists s', discard s n = Ok tt s' /\
          key s' = key s /\ nonce s' = nonce s /\
          block_counter s' = block_counter s + full_blocks /\
          buffer s' = buffer s /\ word_index s' = 8) /\
     (block_counter s + full_blocks < UINT64_MAX -> remainder <> 0 ->
        exists s', discard s n = Ok tt s' /\
          key s' = key s /\ nonce s' = nonce s /\
          block_counter s' = block_counter s + full_blocks + 1 /\
          buffer s' = block s (block_counter s + full_blocks) /\
          word_index s' = remainder) /\
     (block_counter s + full_blocks = UINT64_MAX -> remainder <> 0 ->
        exists s', discard s n = Throw key_nonce_pair_exhausted s' /\
          key s' = key s /\ nonce s' = nonce s /\
          block_counter s' = 0 /\
          buffer s' = block s UINT64_MAX /\ word_index s' = 0)).
Proof.
  assert (Hs : ok (mk (repeat 0 8) [0; 0] 5 (repeat 4 8) 3)).
  { unfold ok, is_u64. cbn [word_index block_counter]. lia. }
  assert (Hn : is_u64 13) by (unfold is_u64; lia).
  split; [auto|].
  exact (discard_block_counter Z toy_build_state toy_permute_block _ 13 Hs Hn).
Defined.

Lemma refill_exhaustion_leaves_usable_engine_witness :
  block_counter (mk (repeat 0 8) [0; 0] UINT64_MAX (repeat 7 8) 8) = UINT64_MAX /\
  let s := mk (repeat 0 8) [0; 0] UINT64_MAX (repeat 7 8) 8 in
  let refill_buffer := refill_buffer Z toy_build_state toy_permute_block in
  let next := next Z toy_build_state toy_permute_block in
  let take := take Z toy_build_state toy_permute_block in
  let block := block Z toy_build_state toy_permute_block in
  let last := block s UINT64_MAX in
  let s' := mk (key s) (nonce s) 0 last 0 in
  refill_buffer s = Throw key_nonce_pair_exhausted s' /\
  (8 <= word_index s -> next s = Throw key_nonce_pair_exhausted s') /\
  take 8%nat s' = Ok (map (get last) (seq 0 8)) (with_word_index s' 8) /\
  next (with_word_index s' 8) =
    Ok (get (block s 0) 0) (mk (key s) (nonce s) 1 (block s 0) 1).
Proof.
  split; [reflexivity|].
  exact (refill_exhaustion_leaves_usable_engine Z toy_build_state
           toy_permute_block
           (mk (repeat 0 8) [0; 0] UINT64_MAX (repeat 7 8) 8) eq_refl).
Defined.

Lemma roundtrip_when_pad_reads_zero_example :
  (0 = 0 /\ fields_ok (mk (repeat 1 8) [2; 3] 5 (repeat 4 8) 3) /\
   inv Z toy_build_state toy_permute_block
       (mk (repeat 1 8) [2; 3] 5 (repeat 4 8) 3) /\
   0 < word_index (mk (repeat 1 8) [2; 3] 5 (repeat 4 8) 3) < 8) /\
  let s := mk (repeat 1 8) [2; 3] 5 (repeat 4 8) 3 in
  let rng0 := mk (repeat 0 8) [0; 0] 0 (repeat 0 8) 8 in
  let deserialize := deserialize Z toy_build_state toy_permute_block 0 in
  let calls := calls Z toy_build_state toy_permute_block in
  length (serialize s) = 65%nat /\
  (1 <= block_counter s ->
   deserialize (mk_istream (serialize s ++ []) true) rng0 =
     Ok (mk_istream [] true) s /\
   forall k,
     calls k (engine (deserialize (mk_istream (serialize s ++ []) true) rng0))
     = calls k s) /\
  (block_counter s = 0 ->
   exists rng',
     deserialize (mk_istream (serialize s ++ []) true) rng0 =
       Throw mid_block_state_at_counter_zero rng').
Proof.
  assert (Hf : fields_ok (mk (repeat 1 8) [2; 3] 5 (repeat 4 8) 3)).
  { unfold fields_ok, is_u64, is_u32. cbn [key nonce block_counter].
    repeat split; try reflexivity; try lia;
      apply Forall_forall; intros x Hx; cbn in Hx; lia. }
  assert (Hi : inv Z toy_build_state toy_permute_block
                 (mk (repeat 1 8) [2; 3] 5 (repeat 4 8) 3)).
  { unfold inv, ok, buffer_current, is_u64. cbn [word_index block_counter buffer].
    split; [lia|]. intros _. reflexivity. }
  assert (Hw : 0 < word_index (mk (repeat 1 8) [2; 3] 5 (repeat 4 8) 3) < 8)
    by (cbn [word_index]; lia).
  split; [auto|].
  exact (roundtrip_when_pad_reads_zero Z toy_build_state toy_permute_block 0 _
           (mk (repeat 0 8) [0; 0] 0 (repeat 0 8) 8) [] eq_refl Hf Hi Hw).
Defined.

(** The failing round trip at a concrete engine: constructed from a key of
    eight words 3, nonce (1, 2) and initial counter 5, then three calls
    (word index 3, block counter 6); the byte after the literal reads 99. *)
Lemma written_record_is_rejected_witness :
  let s := engine (bind (ctor Z toy_build_state toy_permute_block
                              (repeat 3 8) [1; 2] 5)
                        (fun _ rng => calls Z toy_build_state toy_permute_block
                                        3 rng)) in
  let rng0 := mk (repeat 0 8) [0; 0] 0 (repeat 0 8) 8 in
  let deserialize := deserialize Z toy_build_state toy_permute_block 99 in
  (word_index s = 3 /\ block_counter s = 6) /\
  length (serialize s) = 65%nat /\
  firstn 8 (serialize s) = literal_csprng ++ [0] /\
  deserialize (mk_istream (serialize s ++ []) true) rng0 =
    Throw bad_magic rng0 /\
  engine (deserialize (mk_istream (serialize s ++ []) true) rng0) = rng0.
Proof.
  split; [split; reflexivity|].
  apply (written_record_is_rejected Z toy_build_state toy_permute_block 99).
  discriminate.
Defined.

(** An engine whose buffer is stale (key, nonce and counter 9 read by a
    failed [operator>>], buffer and word index 3 left from before): read
    back from its own record with the byte after the literal 0, the next
    call returns the rebuilt word 8 where the original returns 4. *)
Lemma roundtrip_stale_buffer_example :
  let s := mk (repeat 3 8) [1; 2] 9 (repeat 4 8) 3 in
  let s' := mk (repeat 3 8) [1; 2] 9 (repeat 8 8) 3 in
  deserialize Z toy_build_state toy_permute_block 0
    (mk_istream (serialize s) true) s = Ok (mk_istream [] true) s' /\
  returned (next Z toy_build_state toy_permute_block s) = Some 4 /\
  returned (next Z toy_build_state toy_permute_block s') = Some 8.
Proof.
  cbv zeta. split; [|split]; vm_compute; reflexivity.
Qed.

End csprng_facts.

(* ------------------------------------------------------------------------- *)
(** ** Bounded sampling                                                       *)
(* ------------------------------------------------------------------------- *)

Module unbiased_facts.
Import Counter_1024_facts.

Lemma unbiased_redraw_eq draws range t : forall l h,
  unbiased_redraw draws range t l h =
  if l <? t then first_accepted draws range t else Some (h, draws).
Proof.
  induction draws as [|x rest IH]; intros l h; cbn [unbiased_redraw first_accepted].
  - reflexivity.
  - destruct (l <? t); [|reflexivity].
    destruct (umul128 x range) as [l' h'] eqn:E. cbn [fst snd].
    rewrite IH. reflexivity.
Qed.

(** Ceiling division: the multiples of [R] from [N] on. *)
Lemma ceil_le R N y : 0 < R -> (N <= y * R <-> (N + R - 1) / R <= y).
Proof.
  intros HR.
  pose proof (Z.div_mod (N + R - 1) R ltac:(lia)) as Hd.
  pose proof (Z.mod_pos_bound (N + R - 1) R HR) as Hm.
  set (a := (N + R - 1) / R) in *. set (m := (N + R - 1) mod R) in *.
  clearbody a m. split; intros H; nia.
Qed.

(** Quotient and remainder of [y] by [B] against a window
    [v * B + t <= y < (v + 1) * B]. *)
Lemma div_mod_window B y v t :
  0 < B -> 0 <= t < B ->
  (y / B = v /\ t <= y mod B) <-> v * B + t <= y < (v + 1) * B.
Proof.
  intros HB Ht.
  pose proof (Z.div_mod y B ltac:(lia)) as Hd.
  pose proof (Z.mod_pos_bound y B HB) as Hm.
  set (d := y / B) in *. set (m := y mod B) in *. clearbody d m.
  split.
  - intros [-> Htm]. nia.
  - intros [H1 H2]. assert (d = v) by nia. subst d. split; [reflexivity|nia].
Qed.

(** Lemire's count: the draws accepted with high word [v] are the [B / R]
    consecutive values from [a] on. *)
Lemma lemire_interval B R v x :
  0 < R <= B ->
  let t := B mod R in
  let a := (v * B + t + R - 1) / R in
  ((x * R) / B = v /\ t <= (x * R) mod B) <-> a <= x < a + B / R.
Proof.
  intros HR t a.
  assert (Ht : 0 <= t < R) by (apply Z.mod_pos_bound; lia).
  rewrite (div_mod_window B (x * R) v t) by lia.
  pose proof (ceil_le R (v * B + t) x ltac:(lia)) as Hlo.
  pose proof (ceil_le R (v * B + t) (x - B / R) ltac:(lia)) as Hhi.
  fold a in Hlo, Hhi.
  pose proof (Z.div_mod B R ltac:(lia)) as Hd. fold t in Hd.
  set (q := B / R) in *. clearbody q a t.
  assert (E : (x - q) * R = x * R - q * R) by ring.
  rewrite E in Hhi.
  split.
  - intros [H1 H2]. split; [apply Hlo; exact H1|].
    assert (~ a <= x - q); [|lia].
    intros Hc. apply Hhi in Hc. nia.
  - intros [H1 H2]. split; [apply Hlo; exact H1|].
    assert (~ (v * B + t <= x * R - q * R)); [|nia].
    intros Hc. apply Hhi in Hc. lia.
Qed.

Lemma lemire_interval_bounds B R v :
  0 < R <= B -> 0 <= v < R ->
  let a := (v * B + B mod R + R - 1) / R in
  0 <= a /\ a + B / R <= B.
Proof.
  intros HR Hv a.
  assert (Ht : 0 <= B mod R < R) by (apply Z.mod_pos_bound; lia).
  pose proof (Z.div_mod B R ltac:(lia)) as Hd.
  pose proof (Z.div_mod (v * B + B mod R + R - 1) R ltac:(lia)) as Ha.
  pose proof (Z.mod_pos_bound (v * B + B mod R + R - 1) R ltac:(lia)) as Hm.
  fold a in Ha.
  set (t := B mod R) in *. set (q := B / R) in *.
  set (m := (v * B + t + R - 1) mod R) in *. clearbody a t q m.
  assert (0 <= q) by nia.
  split; [nia|].
  (* R * (a + q) <= v * B + t + R - 1 + q * R = (v + 1) * B + R - 1 - ... *)
  assert (R * (a + q) <= (v + 1) * B + R - 1) by nia.
  assert (R * (a + q) <= R * B + R - 1) by nia.
  nia.
Qed.

Lemma threshold_eq R :
  0 < R < 2 ^ 64 -> wrap64 (UINT64_MAX - R + 1) mod R = 2 ^ 64 mod R.
Proof.
  intros HR. unfold UINT64_MAX.
  rewrite wrap64_id by (unfold is_u64; lia).
  replace (2 ^ 64 - 1 - R + 1) with (2 ^ 64 + (-1) * R) by lia.
  apply Z.mod_add. lia.
Qed.

Lemma unbiased_same lo draws : unbiased draws lo lo = Some (lo, draws).
Proof.
  unfold unbiased. destruct (Z.gtb_spec lo lo); [lia|].
  now rewrite Z.eqb_refl.
Qed.

Lemma unbiased_swap lo hi draws :
  hi < lo -> unbiased draws lo hi = unbiased draws hi lo.
Proof.
  intros H. unfold unbiased.
  destruct (Z.gtb_spec lo hi); [|lia]. destruct (Z.gtb_spec hi lo); [lia|].
  reflexivity.
Qed.

(** The full 64-bit range passes the draw through. *)
Lemma unbiased_full_range lo hi draws :
  is_u64 lo -> is_u64 hi -> hi - lo + 1 = 2 ^ 64 ->
  unbiased draws lo hi = draw64 draws.
Proof.
  unfold is_u64. intros Hlo Hhi HR. unfold unbiased.
  destruct (Z.gtb_spec lo hi); [lia|].
  destruct (Z.eqb_spec lo hi); [lia|].
  rewrite HR. reflexivity.
Qed.

(** Any smaller range: the first accepted draw decides. *)
Lemma unbiased_first_accepted lo hi draws :
  is_u64 lo -> is_u64 hi -> lo < hi -> hi - lo + 1 < 2 ^ 64 ->
  unbiased draws lo hi =
  match first_accepted draws (hi - lo + 1) (2 ^ 64 mod (hi - lo + 1)) with
  | None => None
  | Some (h, rest) => Some (wrap64 (lo + h), rest)
  end.
Proof.
  unfold is_u64. intros Hlo Hhi Hlt HR. unfold unbiased.
  destruct (Z.gtb_spec lo hi); [lia|].
  destruct (Z.eqb_spec lo hi); [lia|].
  rewrite (wrap64_id (hi - lo + 1)) by (unfold is_u64; lia).
  set (R := hi - lo + 1) in *.
  destruct (Z.eqb_spec R 0); [lia|].
  rewrite threshold_eq by lia.
  assert (Ht : 0 <= 2 ^ 64 mod R < R) by (apply Z.mod_pos_bound; lia).
  destruct draws as [|x rest]; cbn [draw64 first_accepted]; [reflexivity|].
  destruct (umul128 x R) as [l h] eqn:E. cbn [fst snd].
  rewrite unbiased_redraw_eq.
  destruct (Z.ltb_spec l R) as [HlR|HlR].
  - destruct (l <? 2 ^ 64 mod R); reflexivity.
  - destruct (Z.ltb_spec l (2 ^ 64 mod R)); [lia|]. reflexivity.
Qed.

Lemma first_accepted_cons x rest R t :
  first_accepted (x :: rest) R t =
  match first_accepted [x] R t with
  | Some (h, _) => Some (h, rest)
  | None => first_accepted rest R t
  end.
Proof.
  cbn [first_accepted]. destruct (fst (umul128 x R) <? t); reflexivity.
Qed.

Lemma first_accepted_high draws R t h rest :
  0 < R < 2 ^ 64 -> Forall is_u64 draws ->
  first_accepted draws R t = Some (h, rest) -> 0 <= h < R.
Proof.
  intros HR Hd. induction Hd as [|x ds Hx Hds IH]; cbn [first_accepted].
  - discriminate.
  - destruct (fst (umul128 x R) <? t); [exact IH|].
    intros E. injection E as <- _. unfold umul128. cbn [snd].
    unfold is_u64 in Hx.
    pose proof (Z.div_mod (x * R) (2 ^ 64) ltac:(lia)).
    pose proof (Z.mod_pos_bound (x * R) (2 ^ 64) ltac:(lia)).
    nia.
Qed.

Lemma first_accepted_none draws R t :
  first_accepted draws R t = None ->
  forall x, In x draws -> first_accepted [x] R t = None.
Proof.
  induction draws as [|y ds IH]; cbn [first_accepted In]; [tauto|].
  destruct (fst (umul128 y R) <? t) eqn:E; [|discriminate].
  intros H x [->|Hin]; [now rewrite E | now apply IH].
Qed.

(** One draw, for a range below 2^64. *)
Lemma unbiased_single lo hi x r :
  is_u64 lo -> is_u64 hi -> lo < hi -> hi - lo + 1 < 2 ^ 64 -> is_u64 x ->
  lo <= r <= hi ->
  (unbiased [x] lo hi = Some (r, []) <->
   (x * (hi - lo + 1)) / 2 ^ 64 = r - lo /\
   2 ^ 64 mod (hi - lo + 1) <= (x * (hi - lo + 1)) mod 2 ^ 64).
Proof.
  intros Hlo Hhi Hlt HR Hx Hr.
  rewrite unbiased_first_accepted by assumption.
  cbn [first_accepted]. unfold umul128, wrap64. cbn [fst snd].
  set (R := hi - lo + 1) in *.
  unfold is_u64 in *.
  assert (Hh : 0 <= x * R / 2 ^ 64 < R).
  { pose proof (Z.div_mod (x * R) (2 ^ 64) ltac:(lia)).
    pose proof (Z.mod_pos_bound (x * R) (2 ^ 64) ltac:(lia)).
    nia. }
  destruct (Z.ltb_spec ((x * R) mod 2 ^ 64) (2 ^ 64 mod R)) as [Hrej|Hacc].
  - split; [discriminate|]. intros [_ H]. lia.
  - rewrite (Z.mod_small (lo + x * R / 2 ^ 64)) by lia.
    split.
    + intros E. injection E as E. split; [lia|exact Hacc].
    + intros [E _]. f_equal. f_equal. lia.
Qed.

Lemma range_cases lo hi :
  is_u64 lo -> is_u64 hi -> lo <= hi ->
  lo = hi \/ (lo < hi /\ hi - lo + 1 = 2 ^ 64) \/
  (lo < hi /\ hi - lo + 1 < 2 ^ 64).
Proof. unfold is_u64. lia. Qed.

Lemma unbiased_in_range lo hi draws r rest :
  is_u64 lo -> is_u64 hi -> lo <= hi -> Forall is_u64 draws ->
  unbiased draws lo hi = Some (r, rest) -> lo <= r <= hi.
Proof.
  intros Hlo Hhi Hle Hd.
  destruct (range_cases lo hi Hlo Hhi Hle) as [->|[[Hlt HR]|[Hlt HR]]].
  - rewrite unbiased_same. intros E. injection E as <- _. lia.
  - rewrite unbiased_full_range by assumption.
    destruct Hd as [|x ds Hx _]; cbn [draw64]; [discriminate|].
    intros E. injection E as <- _. unfold is_u64 in *. lia.
  - rewrite unbiased_first_accepted by assumption.
    destruct (first_accepted draws (hi - lo + 1) (2 ^ 64 mod (hi - lo + 1)))
      as [[h rest']|] eqn:E; [|discriminate].
    apply first_accepted_high in E; [|unfold is_u64 in *; lia|assumption].
    intros E'. injection E' as <- _.
    rewrite wrap64_id by (unfold is_u64 in *; lia). lia.
Qed.

Lemma unbiased_cons lo hi x draws :
  is_u64 lo -> is_u64 hi -> lo < hi ->
  unbiased (x :: draws) lo hi =
  match unbiased [x] lo hi with
  | Some (r, _) => Some (r, draws)
  | None => unbiased draws lo hi
  end.
Proof.
  intros Hlo Hhi Hlt.
  destruct (range_cases lo hi Hlo Hhi ltac:(lia)) as [->|[[_ HR]|[_ HR]]]; [lia| |].
  - rewrite !unbiased_full_range by assumption. reflexivity.
  - rewrite !unbiased_first_accepted by assumption.
    rewrite first_accepted_cons.
    destruct (first_accepted [x] (hi - lo + 1) (2 ^ 64 mod (hi - lo + 1)))
      as [[h rest']|]; reflexivity.
Qed.

Lemma unbiased_none lo hi draws :
  is_u64 lo -> is_u64 hi -> lo <= hi ->
  unbiased draws lo hi = None ->
  forall x, In x draws -> unbiased [x] lo hi = None.
Proof.
  intros Hlo Hhi Hle.
  destruct (range_cases lo hi Hlo Hhi Hle) as [->|[[Hlt HR]|[Hlt HR]]].
  - rewrite unbiased_same. discriminate.
  - rewrite unbiased_full_range by assumption.
    destruct draws; cbn [draw64 In]; [tauto|discriminate].
  - rewrite unbiased_first_accepted by assumption.
    intros E x Hin. rewrite unbiased_first_accepted by assumption.
    destruct (first_accepted draws (hi - lo + 1) (2 ^ 64 mod (hi - lo + 1)))
      as [[h rest']|] eqn:E'; [discriminate|].
    now rewrite (first_accepted_none _ _ _ E' x Hin).
Qed.

(** The draw 2^64-1 is accepted for every range. *)
Lemma unbiased_accepts_max lo hi :
  is_u64 lo -> is_u64 hi -> lo <= hi -> unbiased [UINT64_MAX] lo hi <> None.
Proof.
  intros Hlo Hhi Hle.
  destruct (range_cases lo hi Hlo Hhi Hle) as [->|[[Hlt HR]|[Hlt HR]]].
  - rewrite unbiased_same. discriminate.
  - rewrite unbiased_full_range by assumption. discriminate.
  - rewrite unbiased_first_accepted by assumption.
    cbn [first_accepted]. unfold umul128, wrap64, UINT64_MAX. cbn [fst snd].
    set (R := hi - lo + 1) in *. unfold is_u64 in *.
    assert (Hl : ((2 ^ 64 - 1) * R) mod 2 ^ 64 = 2 ^ 64 - R).
    { symmetry. apply (Z.mod_unique_pos _ _ (R - 1)); lia. }
    rewrite Hl.
    assert (Ht : 2 ^ 64 mod R <= 2 ^ 64 - R).
    { replace (2 ^ 64) with ((2 ^ 64 - R) + 1 * R) at 1 by lia.
      rewrite Z.mod_add by lia. apply Z.mod_le; lia. }
    destruct (Z.ltb_spec (2 ^ 64 - R) (2 ^ 64 mod R)); [lia|]. discriminate.
Qed.

(** C4. For [lo <= hi], [unbiased(lo, hi)] returns a value of [lo, hi];
    the first accepted draw alone decides the result (the call ends without
    one only if every draw supplied was rejected), and every value [r] of
    [lo, hi] is the result of exactly [2^64 / R] of the [2^64] possible
    draws ([R = hi - lo + 1]; the full range passes each draw through):
    the accepted draws giving [r] are the [2^64 / R] consecutive values from
    some [a] on.  The same text serves [csprng] and [random_device]. *)
Theorem unbiased_uniform (lo hi : Z) :
  is_u64 lo -> is_u64 hi -> lo <= hi ->
  (forall draws r rest,
     Forall is_u64 draws -> unbiased draws lo hi = Some (r, rest) ->
     lo <= r <= hi) /\
  (lo = hi -> forall draws, unbiased draws lo hi = Some (lo, draws)) /\
  (lo < hi -> forall x draws,
     unbiased (x :: draws) lo hi =
     match unbiased [x] lo hi with
     | Some (r, _) => Some (r, draws)
     | None => unbiased draws lo hi
     end) /\
  (forall draws, unbiased draws lo hi = None ->
     forall x, In x draws -> unbiased [x] lo hi = None) /\
  (lo < hi -> forall r, lo <= r <= hi ->
     exists a, 0 <= a /\ a + 2 ^ 64 / (hi - lo + 1) <= 2 ^ 64 /\
       forall x, is_u64 x ->
         (unbiased [x] lo hi = Some (r, []) <->
          a <= x < a + 2 ^ 64 / (hi - lo + 1))).
Proof.
  intros Hlo Hhi Hle. split; [|split; [|split; [|split]]].
  - intros draws r rest Hd. now apply unbiased_in_range.
  - intros ->. apply unbiased_same.
  - intros Hlt x draws. now apply unbiased_cons.
  - intros draws. now apply unbiased_none.
  - intros Hlt r Hr.
    destruct (range_cases lo hi Hlo Hhi Hle) as [->|[[_ HR]|[_ HR]]]; [lia| |].
    + exists r. rewrite HR, Z.div_same by lia. unfold is_u64 in *.
      split; [lia|]. split; [lia|]. intros x Hx.
      rewrite unbiased_full_range by (unfold is_u64; auto). cbn [draw64].
      split; [intros E; injection E as E; lia|].
      intros H. f_equal. f_equal. lia.
    + set (R := hi - lo + 1) in *.
      assert (HR' : 0 < R <= 2 ^ 64) by (subst R; lia).
      assert (Hv : 0 <= r - lo < R) by (subst R; lia).
      destruct (lemire_interval_bounds (2 ^ 64) R (r - lo) HR' Hv) as [Ha0 Ha1].
      exists (((r - lo) * 2 ^ 64 + 2 ^ 64 mod R + R - 1) / R).
      split; [exact Ha0|]. split; [exact Ha1|]. intros x Hx.
      rewrite (unbiased_single lo hi x r) by assumption. fold R.
      exact (lemire_interval (2 ^ 64) R (r - lo) x HR').
Qed.

Lemma unbiased_uniform_witness :
  (is_u64 10 /\ is_u64 12 /\ 10 <= 12) /\
  (forall draws r rest,
     Forall is_u64 draws -> unbiased draws 10 12 = Some (r, rest) ->
     10 <= r <= 12) /\
  (10 = 12 -> forall draws, unbiased draws 10 12 = Some (10, draws)) /\
  (10 < 12 -> forall x draws,
     unbiased (x :: draws) 10 12 =
     match unbiased [x] 10 12 with
     | Some (r, _) => Some (r, draws)
     | None => unbiased draws 10 12
     end) /\
  (forall draws, unbiased draws 10 12 = None ->
     forall x, In x draws -> unbiased [x] 10 12 = None) /\
  (10 < 12 -> forall r, 10 <= r <= 12 ->
     exists a, 0 <= a /\ a + 2 ^ 64 / (12 - 10 + 1) <= 2 ^ 64 /\
       forall x, is_u64 x ->
         (unbiased [x] 10 12 = Some (r, []) <->
          a <= x < a + 2 ^ 64 / (12 - 10 + 1))).
Proof.
  split; [unfold is_u64; lia|].
  apply (unbiased_uniform 10 12); unfold is_u64; lia.
Defined.

(** C10. [unbiased(lo, hi)] accepts every pair of 64-bit arguments:
    [lo > hi] behaves as [unbiased(hi, lo)], [lo = hi] returns the bound
    and consumes no draw, every result lies between the smaller and the
    larger bound, and the call ends without a result only if every draw the
    source supplied was rejected, which the draw 2^64-1 never is. *)
Theorem unbiased_total (lo hi : Z) :
  is_u64 lo -> is_u64 hi ->
  (hi < lo -> forall draws, unbiased draws lo hi = unbiased draws hi lo) /\
  (lo = hi -> forall draws, unbiased draws lo hi = Some (lo, draws)) /\
  (forall draws r rest,
     Forall is_u64 draws -> unbiased draws lo hi = Some (r, rest) ->
     Z.min lo hi <= r <= Z.max lo hi) /\
  (forall draws, unbiased draws lo hi = None ->
     forall x, In x draws -> unbiased [x] lo hi = None) /\
  unbiased [UINT64_MAX] lo hi <> None.
Proof.
  intros Hlo Hhi. split; [|split; [|split; [|split]]].
  - intros Hlt draws. now apply unbiased_swap.
  - intros ->. apply unbiased_same.
  - intros draws r rest Hd.
    destruct (Z.le_gt_cases lo hi) as [Hle|Hgt].
    + intros E. apply unbiased_in_range in E; auto. lia.
    + rewrite unbiased_swap by lia. intros E.
      apply unbiased_in_range in E; auto; lia.
  - intros draws.
    destruct (Z.le_gt_cases lo hi) as [Hle|Hgt].
    + now apply unbiased_none.
    + rewrite unbiased_swap by lia. intros E x Hin.
      rewrite unbiased_swap by lia. revert x Hin.
      apply unbiased_none; auto; lia.
  - destruct (Z.le_gt_cases lo hi) as [Hle|Hgt].
    + now apply unbiased_accepts_max.
    + rewrite unbiased_swap by lia. apply unbiased_accepts_max; auto; lia.
Qed.

Lemma unbiased_total_witness :
  (is_u64 12 /\ is_u64 10) /\
  (10 < 12 -> forall draws, unbiased draws 12 10 = unbiased draws 10 12) /\
  (12 = 10 -> forall draws, unbiased draws 12 10 = Some (12, draws)) /\
  (forall draws r rest,
     Forall is_u64 draws -> unbiased draws 12 10 = Some (r, rest) ->
     Z.min 12 10 <= r <= Z.max 12 10) /\
  (forall draws, unbiased draws 12 10 = None ->
     forall x, In x draws -> unbiased [x] 12 10 = None) /\
  unbiased [UINT64_MAX] 12 10 <> None.
Proof.
  split; [unfold is_u64; lia|].
  apply (unbiased_total 12 10); unfold is_u64; lia.
Defined.

End unbiased_facts.

(* ------------------------------------------------------------------------- *)
(** ** Counter_1024: jumps as repeated increments *)
(* ------------------------------------------------------------------------- *)

Module Counter_1024_jumps.
Import Counter_1024 Counter_1024_facts.

Lemma value_range x : limbs_ok x -> 0 <= value x < M.
Proof.
  intros [L F]. pose proof (value_bound _ F) as H. rewrite L in H. exact H.
Qed.

Lemma big_jump_iter c step :
  limbs_ok (state c) -> limbs_ok (increment c) -> limbs_ok step ->
  big_jump c step = N.iter (Z.to_N (value step)) incr c.
Proof.
  intros Hs Hi Hst.
  destruct (big_jump_congr c step Hs Hi Hst) as [Hok Hc].
  destruct (iter_incr_congr c (Z.to_N (value step)) Hs Hi) as (Hinc & Hok' & Hc').
  pose proof (value_range _ Hst) as Hv.
  apply counter_eq; [ | exact Hok | exact Hok' | ].
  - rewrite Hinc. reflexivity.
  - rewrite (congr_mod _ _ Hok Hc), (congr_mod _ _ Hok' Hc').
    rewrite Z2N.id by apply Hv. reflexivity.
Qed.

Lemma value_single n : value (n :: repeat 0 15) = n.
Proof. cbn [repeat value]. lia. Qed.

Lemma limbs_ok_single n : is_u64 n -> limbs_ok (n :: repeat 0 15).
Proof.
  intros Hn. split; [reflexivity|].
  constructor; [exact Hn|]. apply Forall_forall. intros x Hx.
  apply repeat_spec in Hx. subst x. unfold is_u64. lia.
Qed.

Lemma iter_incr_M c :
  limbs_ok (state c) -> limbs_ok (increment c) ->
  N.iter (Z.to_N M) incr c = c.
Proof.
  intros Hs Hi.
  assert (HM : 0 < M) by apply weight_pos.
  pose proof (value_range _ Hs) as Hv.
  destruct (iter_incr_congr c (Z.to_N M) Hs Hi) as (Hinc' & Hok & Hc).
  apply counter_eq; [exact Hinc' | exact Hok | exact Hs |].
  rewrite (congr_mod _ _ Hok Hc).
  rewrite Z2N.id by lia.
  rewrite (Z.mul_comm M), Z.mod_add by lia.
  apply Z.mod_small. exact Hv.
Qed.

Lemma big_jump_zero c :
  limbs_ok (state c) -> limbs_ok (increment c) ->
  big_jump c (repeat 0 16) = c.
Proof.
  intros Hs Hi. change (repeat 0 16) with (0 :: repeat 0 15).
  rewrite (big_jump_iter c _ Hs Hi (limbs_ok_single 0 ltac:(unfold is_u64; lia))).
  rewrite value_single. reflexivity.
Qed.

Lemma cancel_odd_mod a b i :
  0 <= a < M -> 0 <= b < M -> Z.odd i = true ->
  (a * i) mod M = (b * i) mod M -> a = b.
Proof.
  intros Ha Hb Hodd H.
  assert (HM : 0 < M) by apply weight_pos.
  assert (Hz : ((a - b) * i) mod M = 0).
  { rewrite Z.mul_sub_distr_r, Zminus_mod, H, Z.sub_diag. apply Z.mod_0_l. lia. }
  apply Z.cong_mul_cancel_r_coprime in Hz; [| lia | apply odd_coprime_M, Hodd].
  apply Z.mod_divide in Hz; [|lia]. destruct Hz as [q Hq].
  assert (q = 0) by nia. subst q. lia.
Qed.

Lemma big_jump_inj c a b :
  limbs_ok (state c) -> limbs_ok (increment c) ->
  Z.odd (get (increment c) 0) = true ->
  limbs_ok a -> limbs_ok b ->
  big_jump c a = big_jump c b -> a = b.
Proof.
  intros Hs Hi Hodd Ha Hb Heq.
  assert (HM : 0 < M) by apply weight_pos.
  destruct (big_jump_congr c a Hs Hi Ha) as [Hoka Hca].
  destruct (big_jump_congr c b Hs Hi Hb) as [Hokb Hcb].
  pose proof (congr_mod _ _ Hoka Hca) as Va.
  pose proof (congr_mod _ _ Hokb Hcb) as Vb.
  rewrite Heq in Va. rewrite Vb in Va. clear Vb Hca Hcb Hoka Hokb Heq.
  pose proof (value_range _ Ha) as Ra. pose proof (value_range _ Hb) as Rb.
  apply value_inj; [ | apply Ha | apply Hb | ].
  - destruct Ha as [La _], Hb as [Lb _]. congruence.
  - apply (cancel_odd_mod _ _ (value (increment c))); [exact Ra|exact Rb| |].
    + apply value_odd, Hodd.
    + set (v := value (state c)) in *.
      set (p := value a * value (increment c)) in *.
      set (q := value b * value (increment c)) in *.
      rewrite <- (Z.add_simpl_l v p), <- (Z.add_simpl_l v q).
      rewrite (Zminus_mod (v + p)), (Zminus_mod (v + q)), Va. reflexivity.
Qed.

(** X1. [big_jump(step)] is [operator++] applied as many times as the
    1024-bit number in [step] says; in closed form the counter moves by
    step times increment modulo 2^1024. *)
Theorem big_jump_is_iterated_increment (c : t) (step : list Z) :
  limbs_ok (state c) -> limbs_ok (increment c) -> limbs_ok step ->
  big_jump c step = N.iter (Z.to_N (value step)) incr c /\
  value (state (big_jump c step)) =
    (value (state c) + value step * value (increment c)) mod 2 ^ 1024.
Proof.
  intros Hs Hi Hst. split.
  - exact (big_jump_iter c step Hs Hi Hst).
  - rewrite <- M_eq.
    destruct (big_jump_congr c step Hs Hi Hst) as [Hok Hc].
    exact (congr_mod _ _ Hok Hc).
Qed.

Lemma big_jump_is_iterated_increment_witness :
  big_jump ctor (repeat 1 16) = N.iter (Z.to_N (value (repeat 1 16))) incr ctor /\
  value (state (big_jump ctor (repeat 1 16))) =
    (value (state ctor) + value (repeat 1 16) * value (increment ctor))
      mod 2 ^ 1024.
Proof.
  apply (big_jump_is_iterated_increment ctor (repeat 1 16)).
  - exact limbs_ok_ctor_state.
  - exact limbs_ok_ctor_increment.
  - apply limbs_ok_repeat. unfold is_u64. lia.
Defined.

(** X2. [operator+=(n)] is the special case of [big_jump] whose step has
    [n] in limb 0 and zero elsewhere, and the all-zero step leaves the
    counter as it is. *)
Theorem advance_is_single_limb_big_jump (c : t) (n : Z) :
  limbs_ok (state c) -> limbs_ok (increment c) -> is_u64 n ->
  advance c n = big_jump c (n :: repeat 0 15) /\
  big_jump c (repeat 0 16) = c.
Proof.
  intros Hs Hi Hn. split.
  - rewrite (advance_iter c n Hs Hi Hn).
    rewrite (big_jump_iter c _ Hs Hi (limbs_ok_single n Hn)).
    rewrite value_single. reflexivity.
  - exact (big_jump_zero c Hs Hi).
Qed.

Lemma advance_is_single_limb_big_jump_witness :
  advance ctor 7 = big_jump ctor (7 :: repeat 0 15) /\
  big_jump ctor (repeat 0 16) = ctor.
Proof.
  apply (advance_is_single_limb_big_jump ctor 7).
  - exact limbs_ok_ctor_state.
  - exact limbs_ok_ctor_increment.
  - unfold is_u64. lia.
Defined.

(** X3. With the increment the constructor builds, [big_jump] is injective
    in its step: two different 1024-bit steps from the same counter never
    land on the same counter; in particular only the zero step returns to
    the start. *)
Theorem big_jump_injective_in_step (c : t) (a b : list Z) :
  limbs_ok (state c) -> increment c = increment ctor ->
  limbs_ok a -> limbs_ok b ->
  (big_jump c a = big_jump c b -> a = b) /\
  (big_jump c a = c -> a = repeat 0 16).
Proof.
  intros Hs Hinc Ha Hb.
  assert (Hi : limbs_ok (increment c))
    by (rewrite Hinc; exact limbs_ok_ctor_increment).
  assert (Hodd : Z.odd (get (increment c) 0) = true)
    by (rewrite Hinc; reflexivity).
  assert (H0 : limbs_ok (repeat 0 16))
    by (apply limbs_ok_repeat; unfold is_u64; lia).
  split.
  - exact (big_jump_inj c a b Hs Hi Hodd Ha Hb).
  - intros Heq. apply (big_jump_inj c a _ Hs Hi Hodd Ha H0).
    rewrite Heq. symmetry. exact (big_jump_zero c Hs Hi).
Qed.

Lemma big_jump_injective_in_step_witness :
  (big_jump ctor (repeat 1 16) = big_jump ctor (repeat 2 16) ->
   repeat 1 16 = repeat 2 16) /\
  (big_jump ctor (repeat 1 16) = ctor -> repeat 1 16 = repeat 0 16).
Proof.
  apply (big_jump_injective_in_step ctor (repeat 1 16) (repeat 2 16)).
  - exact limbs_ok_ctor_state.
  - reflexivity.
  - apply limbs_ok_repeat. unfold is_u64. lia.
  - apply limbs_ok_repeat. unfold is_u64. lia.
Defined.

End Counter_1024_jumps.

(* ------------------------------------------------------------------------- *)
(** ** The mixers: nasam and SplitMix64 *)
(* ------------------------------------------------------------------------- *)

Module mixer_facts.
Import Counter_1024_facts.

Lemma u64_testbit_high x n : is_u64 x -> 64 <= n -> Z.testbit x n = false.
Proof.
  intros Hx Hn. rewrite <- (wrap64_id x Hx). unfold wrap64.
  apply Z.mod_pow2_bits_high. lia.
Qed.

Lemma lxor_u64 a b : is_u64 a -> is_u64 b -> is_u64 (Z.lxor a b).
Proof.
  intros Ha Hb.
  assert (E : Z.lxor a b = wrap64 (Z.lxor a b)).
  { unfold wrap64. apply Z.bits_inj'. intros n Hn.
    rewrite Z.testbit_mod_pow2 by lia.
    destruct (n <? 64) eqn:E; [reflexivity|].
    apply Z.ltb_ge in E. rewrite Z.lxor_spec.
    rewrite (u64_testbit_high a n Ha E), (u64_testbit_high b n Hb E).
    reflexivity. }
  rewrite E. apply wrap64_range.
Qed.

Lemma shiftr_u64 a s : is_u64 a -> 0 <= s -> is_u64 (Z.shiftr a s).
Proof.
  unfold is_u64. intros Ha Hs. rewrite Z.shiftr_div_pow2 by exact Hs.
  pose proof (Z.pow_pos_nonneg 2 s ltac:(lia) Hs) as Hp.
  split.
  - apply Z.div_pos; lia.
  - apply Z.le_lt_trans with a; [|lia].
    apply Z.div_le_upper_bound; [lia|]. nia.
Qed.

(** [x ^ (x >> s)] determines [x]. *)
Lemma xorshift_inj x y s :
  0 <= x -> 0 <= y -> 0 < s ->
  Z.lxor x (Z.shiftr x s) = Z.lxor y (Z.shiftr y s) -> x = y.
Proof.
  intros Hx Hy Hs H. apply Z.lxor_eq.
  assert (Hd : Z.lxor (Z.lxor x y) (Z.shiftr (Z.lxor x y) s) = 0).
  { apply Z.bits_inj'. intros n Hn.
    apply (f_equal (fun z => Z.testbit z n)) in H.
    rewrite !Z.lxor_spec, !Z.shiftr_spec in H by exact Hn.
    rewrite !Z.lxor_spec, Z.shiftr_spec, Z.lxor_spec, Z.bits_0 by exact Hn.
    destruct (Z.testbit x n), (Z.testbit y n), (Z.testbit x (n + s)),
      (Z.testbit y (n + s)); cbn in *; congruence. }
  apply Z.lxor_eq in Hd.
  assert (H0 : 0 <= Z.lxor x y) by (apply Z.lxor_nonneg; tauto).
  rewrite Z.shiftr_div_pow2 in Hd by lia.
  destruct (Z.eq_dec (Z.lxor x y) 0) as [E|E]; [exact E|].
  assert (Hp : 1 < 2 ^ s) by (apply Z.pow_gt_1; lia).
  pose proof (Z.div_lt (Z.lxor x y) (2 ^ s) ltac:(lia) Hp). lia.
Qed.

Lemma odd_coprime_pow2 a n : 0 <= n -> Z.odd a = true -> Z.coprime a (2 ^ n).
Proof.
  intros Hn Ha. apply Z.coprime_pow_r; [exact Hn|].
  apply Z.coprime_Bezout.
  exists 1, (- (a / 2)).
  rewrite (Zodd_div2 a) at 1 by (now apply Zodd_bool_iff).
  rewrite Z.div2_div. lia.
Qed.

(** Adding multiples of an odd constant modulo 2^64: different multiples
    less than 2^64 apart give different words. *)
Lemma add_mul_odd_inj s a b c :
  Z.odd c = true -> - 2 ^ 64 < a - b < 2 ^ 64 ->
  wrap64 (s + a * c) = wrap64 (s + b * c) -> a = b.
Proof.
  unfold wrap64. intros Hodd Hab H.
  assert (Hz : ((a - b) * c) mod 2 ^ 64 = 0).
  { replace ((a - b) * c) with ((s + a * c) - (s + b * c)) by ring.
    rewrite Zminus_mod, H, Z.sub_diag. apply Z.mod_0_l. lia. }
  apply Z.cong_mul_cancel_r_coprime in Hz;
    [| lia | apply (odd_coprime_pow2 c 64); [lia|exact Hodd]].
  apply Z.mod_divide in Hz; [|lia]. destruct Hz as [q Hq].
  assert (q = 0) by lia. subst q. lia.
Qed.

Lemma mul_odd_inj a b c :
  is_u64 a -> is_u64 b -> Z.odd c = true ->
  wrap64 (a * c) = wrap64 (b * c) -> a = b.
Proof.
  unfold is_u64. intros Ha Hb Hodd H.
  apply (add_mul_odd_inj 0 a b c Hodd); [lia|exact H].
Qed.

(* ---- nasam ---- *)

Lemma flip_eq x : is_u64 x -> wrap64 (Z.lnot x) = 2 ^ 64 - 1 - x.
Proof.
  unfold is_u64, wrap64, Z.lnot. intros Hx. symmetry.
  apply (Z.mod_unique _ _ (-1)); lia.
Qed.

Lemma testbit_flip x n :
  0 <= n -> Z.testbit (wrap64 (Z.lnot x)) n = (n <? 64) && negb (Z.testbit x n).
Proof.
  intros Hn. unfold wrap64. rewrite Z.testbit_mod_pow2 by lia.
  rewrite Z.lnot_spec by exact Hn. reflexivity.
Qed.

Lemma testbit_rotr64 x r n :
  0 <= n -> 0 < r < 64 ->
  Z.testbit (rotr64 x r) n =
  Z.testbit x (n + r) || ((n <? 64) && Z.testbit x (n - (64 - r))).
Proof.
  intros Hn Hr. unfold rotr64, wrap64.
  rewrite Z.lor_spec, Z.shiftr_spec by exact Hn.
  rewrite Z.testbit_mod_pow2 by lia.
  rewrite Z.shiftl_spec by exact Hn. reflexivity.
Qed.

(** A word and its bitwise complement give the same [v ^ rotr(v, r)]. *)
Lemma xor_rotr_flip x r :
  is_u64 x -> 0 < r < 64 ->
  Z.lxor (wrap64 (Z.lnot x)) (rotr64 (wrap64 (Z.lnot x)) r) =
  Z.lxor x (rotr64 x r).
Proof.
  intros Hx Hr. apply Z.bits_inj'. intros n Hn.
  rewrite !Z.lxor_spec, !testbit_rotr64 by assumption.
  rewrite (testbit_flip x n Hn).
  rewrite (testbit_flip x (n + r)) by lia.
  destruct (Z_lt_le_dec n 64) as [Hlt|Hge].
  - destruct (Z_lt_le_dec n (64 - r)) as [Hlo|Hhi].
    + rewrite (Z.testbit_neg_r _ (n - (64 - r))) by lia.
      rewrite (Z.testbit_neg_r x (n - (64 - r))) by lia.
      replace (n <? 64) with true by (symmetry; apply Z.ltb_lt; lia).
      replace (n + r <? 64) with true by (symmetry; apply Z.ltb_lt; lia).
      destruct (Z.testbit x n), (Z.testbit x (n + r)); reflexivity.
    + rewrite (testbit_flip x (n - (64 - r))) by lia.
      rewrite (u64_testbit_high x (n + r) Hx) by lia.
      replace (n <? 64) with true by (symmetry; apply Z.ltb_lt; lia).
      replace (n + r <? 64) with false by (symmetry; apply Z.ltb_ge; lia).
      replace (n - (64 - r) <? 64) with true by (symmetry; apply Z.ltb_lt; lia).
      destruct (Z.testbit x n), (Z.testbit x (n - (64 - r))); reflexivity.
  - rewrite (u64_testbit_high x n Hx Hge).
    rewrite (u64_testbit_high x (n + r) Hx) by lia.
    replace (n <? 64) with false by (symmetry; apply Z.ltb_ge; lia).
    replace (n + r <? 64) with false by (symmetry; apply Z.ltb_ge; lia).
    reflexivity.
Qed.

Lemma twin_first_step v :
  wrap64 (nasam_twin v * 0x9E6F1D9BB2D6C165) =
  wrap64 (Z.lnot (wrap64 (v * 0x9E6F1D9BB2D6C165))).
Proof.
  unfold nasam_twin, wrap64, Z.lnot.
  set (C := 0x9E6F1D9BB2D6C165). set (K := 0x75d41de70f957793).
  rewrite Z.mul_mod_idemp_l by lia.
  assert (HK : K * C = 2 ^ 64 * (K * C / 2 ^ 64) + (2 ^ 64 - 1))
    by (vm_compute; reflexivity).
  generalize dependent (K * C / 2 ^ 64). intros q HK.
  replace ((K - v) * C) with (K * C - v * C) by ring.
  rewrite HK.
  pose proof (Z.div_mod (v * C) (2 ^ 64) ltac:(lia)) as Hd.
  pose proof (Z.mod_pos_bound (v * C) (2 ^ 64) ltac:(lia)) as Hb.
  generalize dependent ((v * C) mod 2 ^ 64). intros m Hd Hb.
  rewrite Hd at 1.
  generalize (v * C / 2 ^ 64). intros p.
  replace (Z.pred (- m)) with (2 ^ 64 * (-1) + (2 ^ 64 - 1 - m)) by lia.
  replace (2 ^ 64 * q + (2 ^ 64 - 1) - (2 ^ 64 * p + m))
    with (2 ^ 64 * (q - p) + (2 ^ 64 - 1 - m)) by ring.
  rewrite !(Z.add_comm (2 ^ 64 * _)), !(Z.mul_comm (2 ^ 64)), !Z.mod_add by lia.
  reflexivity.
Qed.

(** X4. The mixer [nasam] is not injective: every 64-bit argument has a
    different 64-bit argument with the same result. *)
Theorem nasam_not_injective (v : Z) :
  is_u64 v ->
  is_u64 (nasam_twin v) /\ nasam_twin v <> v /\
  nasam (nasam_twin v) = nasam v.
Proof.
  intros Hv. split; [apply wrap64_range|]. split.
  - unfold nasam_twin, wrap64, is_u64 in *. intros H.
    assert (E : (0x75d41de70f957793 - v) mod 2 ^ 64 = v) by exact H.
    clear H. lia.
  - unfold nasam. cbv zeta. rewrite twin_first_step.
    rewrite (xor_rotr_flip _ 26 (wrap64_range _)) by lia.
    reflexivity.
Qed.

Lemma nasam_not_injective_witness :
  is_u64 (nasam_twin 0) /\ nasam_twin 0 <> 0 /\ nasam (nasam_twin 0) = nasam 0.
Proof.
  apply (nasam_not_injective 0). unfold is_u64. lia.
Defined.

(* ---- SplitMix64 ---- *)

Lemma mix_inj a b :
  is_u64 a -> is_u64 b -> SplitMix64.mix a = SplitMix64.mix b -> a = b.
Proof.
  intros Ha Hb H. unfold SplitMix64.mix in H. cbv zeta in H.
  apply xorshift_inj in H;
    [ | apply wrap64_range | apply wrap64_range | lia ].
  apply mul_odd_inj in H;
    [ | apply lxor_u64; [|apply shiftr_u64; [|lia]]; apply wrap64_range
      | apply lxor_u64; [|apply shiftr_u64; [|lia]]; apply wrap64_range
      | reflexivity ].
  apply xorshift_inj in H;
    [ | apply wrap64_range | apply wrap64_range | lia ].
  apply mul_odd_inj in H;
    [ | apply lxor_u64; [|apply shiftr_u64; [|lia]]; assumption
      | apply lxor_u64; [|apply shiftr_u64; [|lia]]; assumption
      | reflexivity ].
  apply xorshift_inj in H; [exact H | apply Ha | apply Hb | lia ].
Qed.

Lemma mix_u64 z : is_u64 (SplitMix64.mix z).
Proof.
  unfold SplitMix64.mix. cbv zeta.
  apply lxor_u64; [|apply shiftr_u64; [|lia]]; apply wrap64_range.
Qed.

Lemma sm_calls_succ k g :
  SplitMix64.calls (N.succ k) g = SplitMix64.next (snd (SplitMix64.calls k g)).
Proof. unfold SplitMix64.calls. rewrite N.iter_succ. reflexivity. Qed.

Lemma sm_calls_closed (k : N) g :
  SplitMix64.calls (N.succ k) g =
  (SplitMix64.mix (wrap64 (SplitMix64.state g + Z.of_N (N.succ k) * SplitMix64.INCREMENT)),
   SplitMix64.mk (wrap64 (SplitMix64.state g + Z.of_N (N.succ k) * SplitMix64.INCREMENT))).
Proof.
  pattern k. apply N.peano_ind; clear k; [|intros k IH].
  - unfold SplitMix64.calls. cbn [N.succ Pos.succ N.iter Pos.iter snd].
    unfold SplitMix64.next. cbv zeta. rewrite Z.mul_1_l. reflexivity.
  - rewrite sm_calls_succ, IH. cbn [snd].
    unfold SplitMix64.next. cbv zeta. cbn [SplitMix64.state].
    assert (E : wrap64 (wrap64 (SplitMix64.state g +
                  Z.of_N (N.succ k) * SplitMix64.INCREMENT) + SplitMix64.INCREMENT) =
                wrap64 (SplitMix64.state g +
                  Z.of_N (N.succ (N.succ k)) * SplitMix64.INCREMENT)).
    { unfold wrap64. rewrite Z.add_mod_idemp_l by lia. f_equal.
      rewrite (N2Z.inj_succ (N.succ k)). ring. }
    rewrite E. reflexivity.
Qed.

Lemma sm_calls_pos (k : Z) g :
  1 <= k ->
  SplitMix64.calls (Z.to_N k) g =
  (SplitMix64.mix (wrap64 (SplitMix64.state g + k * SplitMix64.INCREMENT)),
   SplitMix64.mk (wrap64 (SplitMix64.state g + k * SplitMix64.INCREMENT))).
Proof.
  intros Hk. replace (Z.to_N k) with (N.succ (Z.to_N (k - 1)))
    by (rewrite <- Z2N.inj_succ by lia; f_equal; lia).
  rewrite sm_calls_closed. rewrite N2Z.inj_succ, Z2N.id by lia.
  replace (Z.succ (k - 1)) with k by lia. reflexivity.
Qed.

Lemma sm_discard_calls g n :
  is_u64 (SplitMix64.state g) -> 0 <= n ->
  SplitMix64.discard g n = snd (SplitMix64.calls (Z.to_N n) g).
Proof.
  intros Hs Hn. unfold SplitMix64.discard.
  assert (E : wrap64 (SplitMix64.state g + wrap64 (SplitMix64.INCREMENT * n)) =
              wrap64 (SplitMix64.state g + n * SplitMix64.INCREMENT)).
  { unfold wrap64. rewrite Z.add_mod_idemp_r by lia. f_equal. ring. }
  rewrite E.
  destruct (Z.eq_dec n 0) as [->|Hz].
  - cbn [Z.to_N SplitMix64.calls N.iter snd]. rewrite Z.mul_0_l, Z.add_0_r.
    rewrite (wrap64_id _ Hs). destruct g; reflexivity.
  - rewrite sm_calls_pos by lia. reflexivity.
Qed.

(** X5. [SplitMix64::discard(n)] leaves the generator where [n] calls of
    [operator()] leave it, so the call after it returns what call number
    [n + 1] would have returned. *)
Theorem splitmix64_discard_is_n_calls (g : SplitMix64.t) (n : Z) :
  is_u64 (SplitMix64.state g) -> is_u64 n ->
  SplitMix64.discard g n = snd (SplitMix64.calls (Z.to_N n) g) /\
  fst (SplitMix64.next (SplitMix64.discard g n)) =
    fst (SplitMix64.calls (Z.to_N (n + 1)) g).
Proof.
  intros Hs Hn. unfold is_u64 in Hn.
  rewrite (sm_discard_calls g n Hs) by lia. split; [reflexivity|].
  replace (Z.to_N (n + 1)) with (N.succ (Z.to_N n))
    by (rewrite <- Z2N.inj_succ by lia; f_equal).
  rewrite sm_calls_succ. reflexivity.
Qed.

Lemma splitmix64_discard_is_n_calls_witness :
  SplitMix64.discard (SplitMix64.ctor 42) 1000 =
    snd (SplitMix64.calls (Z.to_N 1000) (SplitMix64.ctor 42)) /\
  fst (SplitMix64.next (SplitMix64.discard (SplitMix64.ctor 42) 1000)) =
    fst (SplitMix64.calls (Z.to_N (1000 + 1)) (SplitMix64.ctor 42)).
Proof.
  apply (splitmix64_discard_is_n_calls (SplitMix64.ctor 42) 1000).
  - cbn [SplitMix64.ctor SplitMix64.state]. unfold is_u64. lia.
  - unfold is_u64. lia.
Defined.

(** X6. Within one period of 2^64 calls [SplitMix64::operator()] never
    returns the same value twice (the output function is a bijection of the
    64-bit words and the state visits each word once), and after 2^64 calls
    the generator is back where it started. *)
Theorem splitmix64_outputs_distinct (g : SplitMix64.t) (i j : Z) :
  1 <= i -> i < j -> j <= 2 ^ 64 ->
  fst (SplitMix64.calls (Z.to_N i) g) <> fst (SplitMix64.calls (Z.to_N j) g) /\
  snd (SplitMix64.calls (Z.to_N (2 ^ 64)) g) =
    SplitMix64.mk (wrap64 (SplitMix64.state g)).
Proof.
  intros Hi Hij Hj. split.
  - rewrite (sm_calls_pos i g Hi). rewrite (sm_calls_pos j g) by lia.
    cbn [fst]. intros H.
    apply mix_inj in H; [ | apply wrap64_range | apply wrap64_range ].
    apply add_mul_odd_inj in H; [lia | reflexivity | lia].
  - rewrite (sm_calls_pos (2 ^ 64) g) by lia. cbn [snd]. f_equal.
    unfold wrap64.
    rewrite (Z.mul_comm (2 ^ 64)), Z.mod_add by lia. reflexivity.
Qed.

Lemma splitmix64_outputs_distinct_witness :
  fst (SplitMix64.calls (Z.to_N 1) (SplitMix64.ctor 0)) <>
    fst (SplitMix64.calls (Z.to_N (2 ^ 64)) (SplitMix64.ctor 0)) /\
  snd (SplitMix64.calls (Z.to_N (2 ^ 64)) (SplitMix64.ctor 0)) =
    SplitMix64.mk (wrap64 (SplitMix64.state (SplitMix64.ctor 0))).
Proof.
  apply (splitmix64_outputs_distinct (SplitMix64.ctor 0) 1 (2 ^ 64)); lia.
Defined.

End mixer_facts.

(* ------------------------------------------------------------------------- *)
(** ** Nasam1024: the output sequence and the jumps *)
(* ------------------------------------------------------------------------- *)

Module Nasam1024_engine_facts.
Import Counter_1024 Counter_1024_facts Nasam1024 Nasam1024_facts.
Import Counter_1024_jumps mixer_facts.

Lemma get_block_of c i :
  (i < 8)%nat -> get (block_of c) i = nasam (get (state c) (i + 8)).
Proof.
  intros Hi. do 8 (destruct i as [|i]; [reflexivity|]). lia.
Qed.

(** The value call number [k + 1] returns: a buffered word while the
    buffer lasts, then a word of the block of a later counter. *)
Lemma nasam_output g k :
  ok g -> 0 <= k ->
  fst (calls (Z.to_N (k + 1)) g) =
  let m := buffer_position g + k in
  if m <? 8 then get (buffer g) (Z.to_nat m)
  else get (block_of (N.iter (Z.to_N (m / 8)) incr (counter g)))
           (Z.to_nat (m mod 8)).
Proof.
  intros Hg Hk.
  replace (Z.to_N (k + 1)) with (N.succ (Z.to_N k))
    by (rewrite <- Z2N.inj_succ by lia; f_equal).
  rewrite nasam_calls_succ, (nasam_calls_after g _ Hg), Z2N.id by exact Hk.
  destruct Hg as (Hs & Hi & Hl & Hp). cbv zeta. unfold after.
  set (p := buffer_position g) in *.
  destruct (Z.leb_spec (p + k) 8) as [Hm|Hm].
  - unfold next, is_buffer_empty, BUFFERSIZE. cbn [buffer_position].
    destruct (Z.eqb_spec (p + k) 8) as [H8|H8].
    + rewrite refill_buffer_eq by exact Hl. cbn [counter buffer buffer_position fst].
      destruct (Z.ltb_spec (p + k) 8); [lia|].
      rewrite H8. reflexivity.
    + cbn [counter buffer buffer_position fst].
      destruct (Z.ltb_spec (p + k) 8); [reflexivity|lia].
  - destruct (Z.ltb_spec (p + k) 8); [lia|].
    unfold next, is_buffer_empty, BUFFERSIZE. cbn [buffer_position].
    destruct (Z.eqb_spec ((p + k - 1) mod 8 + 1) 8) as [H8|H8].
    + rewrite refill_buffer_eq by apply length_block_of.
      cbn [counter buffer buffer_position fst].
      rewrite iter_incr_succ by lia.
      replace ((p + k - 1) / 8 + 1) with ((p + k) / 8) by lia.
      replace ((p + k) mod 8) with 0 by lia. reflexivity.
    + cbn [counter buffer buffer_position fst].
      replace ((p + k - 1) / 8) with ((p + k) / 8) by lia.
      replace ((p + k - 1) mod 8 + 1) with ((p + k) mod 8) by lia.
      reflexivity.
Qed.

Lemma iter_incr_add (a b : Z) c :
  0 <= a -> 0 <= b ->
  N.iter (Z.to_N (a + b)) incr c = N.iter (Z.to_N a) incr (N.iter (Z.to_N b) incr c).
Proof.
  intros Ha Hb. rewrite Z2N.inj_add by assumption. apply N.iter_add.
Qed.

Lemma ok_big_jump g step :
  ok g -> limbs_ok step -> ok (Nasam1024_more.big_jump g step).
Proof.
  intros (Hs & Hi & Hl & Hp) Hst. unfold ok, Nasam1024_more.big_jump.
  cbn [counter buffer buffer_position].
  destruct (big_jump_congr (counter g) step Hs Hi Hst) as [Hok _].
  split; [exact Hok|]. split; [exact Hi|]. split; [exact Hl|exact Hp].
Qed.

Lemma jump_step_ok (step : list Z) (d : Z) :
  length step = 16%nat ->
  forallb (fun x => (0 <=? x) && (x <? 2 ^ 64)) step = true ->
  value step = d ->
  limbs_ok step /\ value step = d.
Proof.
  intros Hl Hc Hv. split; [split; [exact Hl|apply Forall_u64_check, Hc]|exact Hv].
Qed.

(** X7. From an engine whose buffer is empty (as every constructor and
    [reseed] leave it), call number [j + 1] of [operator()] returns the mix
    of limb [8 + j mod 8] of the counter after [j / 8 + 1] increments: the
    output is a function of the counter alone and reads only its upper
    eight limbs. *)
Theorem nasam1024_output_closed_form (g : t) (j : Z) :
  ok g -> buffer_position g = 8 -> 0 <= j ->
  fst (calls (Z.to_N (j + 1)) g) =
  nasam (get (state (N.iter (Z.to_N (j / 8 + 1)) incr (counter g)))
             (Z.to_nat (j mod 8) + 8)).
Proof.
  intros Hg Hp Hj. rewrite (nasam_output g j Hg Hj). cbv zeta. rewrite Hp.
  destruct (Z.ltb_spec (8 + j) 8); [lia|].
  replace ((8 + j) / 8) with (j / 8 + 1) by lia.
  replace ((8 + j) mod 8) with (j mod 8) by lia.
  apply get_block_of. lia.
Qed.

Lemma nasam1024_output_closed_form_witness :
  fst (calls (Z.to_N (11 + 1)) (mk ctor (repeat 0 8) 8)) =
  nasam (get (state (N.iter (Z.to_N (11 / 8 + 1)) incr
                       (counter (mk ctor (repeat 0 8) 8))))
             (Z.to_nat (11 mod 8) + 8)).
Proof.
  apply (nasam1024_output_closed_form (mk ctor (repeat 0 8) 8) 11).
  - split; [exact limbs_ok_ctor_state|].
    split; [exact limbs_ok_ctor_increment|].
    split; [reflexivity|]. cbn [buffer_position]. lia.
  - reflexivity.
  - lia.
Defined.

(** X8. The output sequence of [operator()] repeats after 8 * 2^1024
    calls: once the words buffered at the start are used up, call number
    [k + 1 + 8 * 2^1024] returns what call number [k + 1] returned. *)
Theorem nasam1024_output_period (g : t) (k : Z) :
  ok g -> 8 - buffer_position g <= k ->
  fst (calls (Z.to_N (k + 8 * 2 ^ 1024 + 1)) g) = fst (calls (Z.to_N (k + 1)) g).
Proof.
  rewrite <- M_eq. intros Hg Hk.
  assert (HM : 0 < M) by apply weight_pos.
  pose proof Hg as (Hs & Hi & Hl & Hp).
  rewrite (nasam_output g (k + 8 * M) Hg) by lia.
  rewrite (nasam_output g k Hg) by lia. cbv zeta.
  set (p := buffer_position g) in *.
  destruct (Z.ltb_spec (p + (k + 8 * M)) 8); [lia|].
  destruct (Z.ltb_spec (p + k) 8); [lia|].
  replace ((p + (k + 8 * M)) / 8) with ((p + k) / 8 + M) by lia.
  replace ((p + (k + 8 * M)) mod 8) with ((p + k) mod 8) by lia.
  rewrite iter_incr_add by lia.
  rewrite (iter_incr_M (counter g) Hs Hi). reflexivity.
Qed.

Lemma nasam1024_output_period_witness :
  fst (calls (Z.to_N (3 + 8 * 2 ^ 1024 + 1)) (mk ctor (repeat 0 8) 8)) =
  fst (calls (Z.to_N (3 + 1)) (mk ctor (repeat 0 8) 8)).
Proof.
  apply (nasam1024_output_period (mk ctor (repeat 0 8) 8) 3).
  - split; [exact limbs_ok_ctor_state|].
    split; [exact limbs_ok_ctor_increment|].
    split; [reflexivity|]. cbn [buffer_position]. lia.
  - cbn [buffer_position]. lia.
Defined.

Lemma big_jump_output g step k :
  ok g -> limbs_ok step -> 0 <= k ->
  fst (calls (Z.to_N (k + 1)) (Nasam1024_more.big_jump g step)) =
  if buffer_position g + k <? 8
  then fst (calls (Z.to_N (k + 1)) g)
  else fst (calls (Z.to_N (8 * value step + k + 1)) g).
Proof.
  intros Hg Hst Hk.
  pose proof (value_range _ Hst) as Hv.
  pose proof Hg as (Hs & Hi & Hl & Hp).
  rewrite (nasam_output _ k (ok_big_jump g step Hg Hst) Hk).
  rewrite (nasam_output g k Hg Hk).
  rewrite (nasam_output g (8 * value step + k) Hg) by lia.
  cbv zeta. unfold Nasam1024_more.big_jump. cbn [counter buffer buffer_position].
  set (p := buffer_position g) in *.
  destruct (Z.ltb_spec (p + k) 8) as [Hlt|Hge]; [reflexivity|].
  destruct (Z.ltb_spec (p + (8 * value step + k)) 8); [lia|].
  rewrite (big_jump_iter (counter g) step Hs Hi Hst).
  replace ((p + (8 * value step + k)) / 8) with ((p + k) / 8 + value step) by lia.
  replace ((p + (8 * value step + k)) mod 8) with ((p + k) mod 8) by lia.
  rewrite iter_incr_add by lia. reflexivity.
Qed.

(** X9. [big_jump(step)] moves the counter only: the words still buffered
    are returned first, unchanged, and the jump of 8 times [step] outputs
    takes effect from the next refill on. *)
Theorem nasam1024_big_jump_outputs (g : t) (step : list Z) (k : Z) :
  ok g -> limbs_ok step -> 0 <= k ->
  (buffer_position g + k < 8 ->
     fst (calls (Z.to_N (k + 1)) (Nasam1024_more.big_jump g step)) =
     fst (calls (Z.to_N (k + 1)) g)) /\
  (8 <= buffer_position g + k ->
     fst (calls (Z.to_N (k + 1)) (Nasam1024_more.big_jump g step)) =
     fst (calls (Z.to_N (8 * value step + k + 1)) g)).
Proof.
  intros Hg Hst Hk. rewrite (big_jump_output g step k Hg Hst Hk).
  destruct (Z.ltb_spec (buffer_position g + k) 8); split; intros; try lia; reflexivity.
Qed.

Lemma nasam1024_big_jump_outputs_witness :
  (buffer_position (mk ctor (repeat 5 8) 6) + 1 < 8 ->
     fst (calls (Z.to_N (1 + 1))
            (Nasam1024_more.big_jump (mk ctor (repeat 5 8) 6) (repeat 1 16))) =
     fst (calls (Z.to_N (1 + 1)) (mk ctor (repeat 5 8) 6))) /\
  (8 <= buffer_position (mk ctor (repeat 5 8) 6) + 1 ->
     fst (calls (Z.to_N (1 + 1))
            (Nasam1024_more.big_jump (mk ctor (repeat 5 8) 6) (repeat 1 16))) =
     fst (calls (Z.to_N (8 * value (repeat 1 16) + 1 + 1))
            (mk ctor (repeat 5 8) 6))).
Proof.
  apply (nasam1024_big_jump_outputs (mk ctor (repeat 5 8) 6) (repeat 1 16) 1).
  - split; [exact limbs_ok_ctor_state|].
    split; [exact limbs_ok_ctor_increment|].
    split; [reflexivity|]. cbn [buffer_position]. lia.
  - apply limbs_ok_repeat. unfold is_u64. lia.
  - lia.
Defined.

(** X10. On an engine whose buffer is empty, [jump()] (which is
    [jump128()]) skips exactly 8 * 2^128 outputs and [long_jump()] (which
    is [jump256()]) exactly 8 * 2^256; [jump64()] and [jump192()] skip
    8 * 2^64 and 8 * 2^192. *)
Theorem nasam1024_jump_distances (g : t) (k : Z) :
  ok g -> buffer_position g = 8 -> 0 <= k ->
  fst (calls (Z.to_N (k + 1)) (Nasam1024_more.jump64 g)) =
    fst (calls (Z.to_N (8 * 2 ^ 64 + k + 1)) g) /\
  fst (calls (Z.to_N (k + 1)) (Nasam1024_more.jump g)) =
    fst (calls (Z.to_N (8 * 2 ^ 128 + k + 1)) g) /\
  fst (calls (Z.to_N (k + 1)) (Nasam1024_more.jump192 g)) =
    fst (calls (Z.to_N (8 * 2 ^ 192 + k + 1)) g) /\
  fst (calls (Z.to_N (k + 1)) (Nasam1024_more.long_jump g)) =
    fst (calls (Z.to_N (8 * 2 ^ 256 + k + 1)) g).
Proof.
  intros Hg Hp Hk.
  assert (H8 : (buffer_position g + k <? 8) = false)
    by (apply Z.ltb_ge; lia).
  unfold Nasam1024_more.jump, Nasam1024_more.long_jump,
    Nasam1024_more.jump64, Nasam1024_more.jump128,
    Nasam1024_more.jump192, Nasam1024_more.jump256.
  split; [|split; [|split]].
  - destruct (jump_step_ok [0; 1; 0; 0; 0; 0; 0; 0; 0; 0; 0; 0; 0; 0; 0; 0]
                (2 ^ 64) eq_refl eq_refl eq_refl) as [Hst Hv].
    rewrite (big_jump_output g _ k Hg Hst Hk), H8, Hv. reflexivity.
  - destruct (jump_step_ok [0; 0; 1; 0; 0; 0; 0; 0; 0; 0; 0; 0; 0; 0; 0; 0]
                (2 ^ 128) eq_refl eq_refl eq_refl) as [Hst Hv].
    rewrite (big_jump_output g _ k Hg Hst Hk), H8, Hv. reflexivity.
  - destruct (jump_step_ok [0; 0; 0; 1; 0; 0; 0; 0; 0; 0; 0; 0; 0; 0; 0; 0]
                (2 ^ 192) eq_refl eq_refl eq_refl) as [Hst Hv].
    rewrite (big_jump_output g _ k Hg Hst Hk), H8, Hv. reflexivity.
  - destruct (jump_step_ok [0; 0; 0; 0; 1; 0; 0; 0; 0; 0; 0; 0; 0; 0; 0; 0]
                (2 ^ 256) eq_refl eq_refl eq_refl) as [Hst Hv].
    rewrite (big_jump_output g _ k Hg Hst Hk), H8, Hv. reflexivity.
Qed.

Lemma nasam1024_jump_distances_witness :
  fst (calls (Z.to_N (0 + 1)) (Nasam1024_more.jump64 (mk ctor (repeat 0 8) 8))) =
    fst (calls (Z.to_N (8 * 2 ^ 64 + 0 + 1)) (mk ctor (repeat 0 8) 8)) /\
  fst (calls (Z.to_N (0 + 1)) (Nasam1024_more.jump (mk ctor (repeat 0 8) 8))) =
    fst (calls (Z.to_N (8 * 2 ^ 128 + 0 + 1)) (mk ctor (repeat 0 8) 8)) /\
  fst (calls (Z.to_N (0 + 1)) (Nasam1024_more.jump192 (mk ctor (repeat 0 8) 8))) =
    fst (calls (Z.to_N (8 * 2 ^ 192 + 0 + 1)) (mk ctor (repeat 0 8) 8)) /\
  fst (calls (Z.to_N (0 + 1)) (Nasam1024_more.long_jump (mk ctor (repeat 0 8) 8))) =
    fst (calls (Z.to_N (8 * 2 ^ 256 + 0 + 1)) (mk ctor (repeat 0 8) 8)).
Proof.
  apply (nasam1024_jump_distances (mk ctor (repeat 0 8) 8) 0).
  - split; [exact limbs_ok_ctor_state|].
    split; [exact limbs_ok_ctor_increment|].
    split; [reflexivity|]. cbn [buffer_position]. lia.
  - reflexivity.
  - lia.
Defined.

End Nasam1024_engine_facts.

(* ------------------------------------------------------------------------- *)
(** ** Nasam1024: comparison and seeding *)
(* ------------------------------------------------------------------------- *)

Module Nasam1024_state_facts.
Import Counter_1024 Counter_1024_facts Nasam1024 Nasam1024_facts.
Import Counter_1024_jumps mixer_facts Nasam1024_engine_facts.

(* ---- operator== ---- *)

Lemma counter_eqb_refl c : Counter_1024.eqb c c = true.
Proof.
  unfold Counter_1024.eqb.
  destruct (list_eq_dec Z.eq_dec (state c) (state c)); [reflexivity|congruence].
Qed.

Lemma words64_of_bytes (ks : list Z) :
  length ks = 8%nat -> Forall is_u64 ks ->
  words_of_bytes 8 8 (bytes_of_words 8 8 ks) = ks.
Proof.
  intros Hl Hu. unfold bytes_of_words.
  rewrite <- (app_nil_r (flat_map _ _)).
  rewrite csprng_facts.words_of_bytes_of_words.
  - rewrite <- Hl. apply csprng_facts.map_get_seq.
  - intros i. pose proof (get_u64 ks i Hu) as H. unfold is_u64 in H.
    change (256 ^ Z.of_nat 8) with (2 ^ 64). exact H.
Qed.

Lemma bytes_of_words64_inj (a b : list Z) :
  length a = 8%nat -> length b = 8%nat ->
  Forall is_u64 a -> Forall is_u64 b ->
  bytes_of_words 8 8 a = bytes_of_words 8 8 b -> a = b.
Proof.
  intros La Lb Ua Ub H.
  rewrite <- (words64_of_bytes a La Ua), <- (words64_of_bytes b Lb Ub), H.
  reflexivity.
Qed.

Lemma same_counter_same_outputs a b (k : N) :
  ok a -> ok b -> counter a = counter b ->
  buffer_position a = 8 -> buffer_position b = 8 ->
  fst (calls k a) = fst (calls k b).
Proof.
  intros Ha Hb Hc Pa Pb.
  destruct (N.eq_dec k 0) as [->|Hk]; [reflexivity|].
  replace k with (Z.to_N (Z.of_N (N.pred k) + 1))
    by (rewrite Z2N.inj_add, N2Z.id by lia; change (Z.to_N 1) with 1%N; lia).
  rewrite (nasam_output a _ Ha) by lia.
  rewrite (nasam_output b _ Hb) by lia.
  cbv zeta. rewrite Pa, Pb, Hc.
  destruct (Z.ltb_spec (8 + Z.of_N (N.pred k)) 8); [lia|reflexivity].
Qed.

(** X11. [Nasam1024::operator==] compares the buffer even when it is
    empty: two engines with the same counter and an empty buffer return
    the same values at every call, and yet compare equal only if the words
    left behind in their buffers (unwritten memory after construction) are
    the same. *)
Theorem nasam1024_equality_reads_stale_buffer (a b : t) (k : N) :
  ok a -> ok b ->
  Forall is_u64 (buffer a) -> Forall is_u64 (buffer b) ->
  counter a = counter b ->
  buffer_position a = 8 -> buffer_position b = 8 ->
  fst (calls k a) = fst (calls k b) /\
  (Nasam1024_more.eqb a b = true <-> buffer a = buffer b).
Proof.
  intros Ha Hb Ua Ub Hc Pa Pb. split.
  - exact (same_counter_same_outputs a b k Ha Hb Hc Pa Pb).
  - unfold Nasam1024_more.eqb. rewrite Pa, Pb, Hc, counter_eqb_refl, Z.eqb_refl.
    cbn [andb]. rewrite csprng_facts.bytes_eqb_true.
    destruct Ha as (_ & _ & La & _), Hb as (_ & _ & Lb & _).
    split.
    + apply bytes_of_words64_inj; assumption.
    + intros ->. reflexivity.
Qed.

Lemma nasam1024_equality_reads_stale_buffer_witness :
  fst (calls 20 (mk ctor (repeat 0 8) 8)) = fst (calls 20 (mk ctor (repeat 1 8) 8)) /\
  (Nasam1024_more.eqb (mk ctor (repeat 0 8) 8) (mk ctor (repeat 1 8) 8) = true <->
   buffer (mk ctor (repeat 0 8) 8) = buffer (mk ctor (repeat 1 8) 8)).
Proof.
  apply (nasam1024_equality_reads_stale_buffer
           (mk ctor (repeat 0 8) 8) (mk ctor (repeat 1 8) 8) 20).
  - split; [exact limbs_ok_ctor_state|].
    split; [exact limbs_ok_ctor_increment|].
    split; [reflexivity|]. cbn [buffer_position]. lia.
  - split; [exact limbs_ok_ctor_state|].
    split; [exact limbs_ok_ctor_increment|].
    split; [reflexivity|]. cbn [buffer_position]. lia.
  - apply Forall_u64_check. reflexivity.
  - apply Forall_u64_check. reflexivity.
  - reflexivity.
  - reflexivity.
  - reflexivity.
Defined.

(* ---- reseed ---- *)

Lemma draw_steps_S n gen :
  Nasam1024_more.draw_steps (S n) gen =
  fst (SplitMix64.next gen) :: Nasam1024_more.draw_steps n (snd (SplitMix64.next gen)).
Proof. reflexivity. Qed.

Lemma length_draw_steps n : forall gen,
  length (Nasam1024_more.draw_steps n gen) = n.
Proof.
  induction n as [|n IH]; intros gen; [reflexivity|].
  rewrite draw_steps_S. cbn [length]. rewrite IH. reflexivity.
Qed.

Lemma draw_steps_u64 n : forall gen,
  Forall is_u64 (Nasam1024_more.draw_steps n gen).
Proof.
  induction n as [|n IH]; intros gen; [constructor|].
  rewrite draw_steps_S. constructor; [|apply IH].
  unfold SplitMix64.next. cbv zeta. cbn [fst]. apply mix_u64.
Qed.

Lemma limbs_ok_draw_steps gen : limbs_ok (Nasam1024_more.draw_steps 16 gen).
Proof. split; [apply length_draw_steps|apply draw_steps_u64]. Qed.

Lemma draw_steps_seed_inj s1 s2 :
  is_u64 s1 -> is_u64 s2 ->
  Nasam1024_more.draw_steps 16 (SplitMix64.ctor s1) =
  Nasam1024_more.draw_steps 16 (SplitMix64.ctor s2) -> s1 = s2.
Proof.
  intros H1 H2 H0.
  rewrite (draw_steps_S 15 (SplitMix64.ctor s1)) in H0.
  rewrite (draw_steps_S 15 (SplitMix64.ctor s2)) in H0.
  pose proof (f_equal (hd 0) H0) as H. clear H0. cbn [hd] in H.
  unfold SplitMix64.next, SplitMix64.ctor in H.
  cbv zeta in H. cbn [fst SplitMix64.state] in H.
  apply mix_inj in H; [ | apply wrap64_range | apply wrap64_range ].
  unfold wrap64, is_u64 in *.
  generalize dependent SplitMix64.INCREMENT. intros c H. lia.
Qed.

(** X12. [reseed(seed)] puts the counter at the jump of sixteen SplitMix64
    words from the zero counter, whatever the engine held before, and
    empties the buffer; different 64-bit seeds give different counters. *)
Theorem nasam1024_reseed_separates_seeds (g g' : t) (s1 s2 : Z) :
  is_u64 s1 -> is_u64 s2 -> s1 <> s2 ->
  counter (Nasam1024_more.reseed g s1) <> counter (Nasam1024_more.reseed g' s2) /\
  buffer_position (Nasam1024_more.reseed g s1) = 8 /\
  value (state (counter (Nasam1024_more.reseed g s1))) =
    (value (Nasam1024_more.draw_steps 16 (SplitMix64.ctor s1)) *
     value (increment ctor)) mod 2 ^ 1024.
Proof.
  intros H1 H2 Hne. unfold Nasam1024_more.reseed. cbv zeta.
  cbn [counter buffer_position]. split; [|split; [reflexivity|]].
  - intros Heq. apply Hne.
    apply (draw_steps_seed_inj s1 s2 H1 H2).
    apply (big_jump_inj ctor _ _ limbs_ok_ctor_state limbs_ok_ctor_increment
             eq_refl (limbs_ok_draw_steps _) (limbs_ok_draw_steps _) Heq).
  - rewrite <- M_eq.
    destruct (big_jump_congr ctor _ limbs_ok_ctor_state limbs_ok_ctor_increment
                (limbs_ok_draw_steps (SplitMix64.ctor s1))) as [Hok Hc].
    rewrite (congr_mod _ _ Hok Hc).
    replace (value (state ctor)) with 0 by (vm_compute; reflexivity).
    rewrite Z.add_0_l. reflexivity.
Qed.

Lemma nasam1024_reseed_separates_seeds_witness :
  counter (Nasam1024_more.reseed (mk ctor (repeat 0 8) 3) 1) <>
    counter (Nasam1024_more.reseed (mk ctor (repeat 0 8) 8) 2) /\
  buffer_position (Nasam1024_more.reseed (mk ctor (repeat 0 8) 3) 1) = 8 /\
  value (state (counter (Nasam1024_more.reseed (mk ctor (repeat 0 8) 3) 1))) =
    (value (Nasam1024_more.draw_steps 16 (SplitMix64.ctor 1)) *
     value (increment ctor)) mod 2 ^ 1024.
Proof.
  apply (nasam1024_reseed_separates_seeds
           (mk ctor (repeat 0 8) 3) (mk ctor (repeat 0 8) 8) 1 2).
  - unfold is_u64. lia.
  - unfold is_u64. lia.
  - discriminate.
Defined.

End Nasam1024_state_facts.

(* ------------------------------------------------------------------------- *)
(** ** Nasam1024: bulk output and the engine invariant *)
(* ------------------------------------------------------------------------- *)

Module Nasam1024_bulk_facts.
Import Counter_1024 Counter_1024_facts Nasam1024 Nasam1024_facts.
Import Counter_1024_jumps mixer_facts Nasam1024_engine_facts.

(** The bytes of the blocks number [a + 1] to [a + q] after counter [c]. *)
Local Abbreviation blocks c a q :=
  (flat_map (fun i => bytes_of_words 8 8
                        (block_of (N.iter (N.of_nat (S i)) incr c)))
            (seq a q)).

Lemma blocks_shift c q : forall a,
  blocks c (S a) q = blocks (incr c) a q.
Proof.
  induction q as [|q IH]; intros a; [reflexivity|].
  cbn [seq flat_map]. rewrite IH. f_equal.
  change (N.of_nat (S (S a))) with (N.succ (N.of_nat (S a))).
  rewrite N.iter_succ_r. reflexivity.
Qed.

Lemma length_blocks c q : forall a,
  length (blocks c a q) = (64 * q)%nat.
Proof.
  induction q as [|q IH]; intros a; [reflexivity|].
  cbn [seq flat_map]. rewrite length_app, IH.
  rewrite csprng_facts.length_bytes_of_words. lia.
Qed.

Lemma bulk_loop_spec fuel : forall g n out,
  length (buffer g) = 8%nat -> 0 <= n -> n / 64 < Z.of_nat fuel ->
  exists g',
    Nasam1024_more.bulk_loop fuel g n out =
      (g', n mod 64, out ++ blocks (counter g) 0 (Z.to_nat (n / 64))) /\
    counter g' = N.iter (Z.to_N (n / 64)) incr (counter g) /\
    length (buffer g') = 8%nat /\
    (n / 64 = 0 -> g' = g) /\
    (0 < n / 64 -> buffer g' = block_of (counter g')).
Proof.
  induction fuel as [|fuel IH]; intros g n out Hl Hn Hf; [lia|].
  cbn [Nasam1024_more.bulk_loop].
  destruct (Z.leb_spec 64 n) as [Hge|Hlt].
  - rewrite (refill_buffer_eq g Hl). cbn [buffer counter].
    destruct (IH (mk (incr (counter g)) (block_of (incr (counter g))) 0)
                 (n - 64)
                 (out ++ bytes_of_words 8 8 (block_of (incr (counter g))))
                 (length_block_of _) ltac:(lia) ltac:(lia))
      as (g' & E & Hc & Hl' & H0 & Hpos).
    cbn [counter buffer] in *.
    exists g'. split; [|split; [|split; [exact Hl'|split]]].
    + rewrite E. f_equal; [f_equal; lia|].
      replace (Z.to_nat (n / 64)) with (S (Z.to_nat ((n - 64) / 64))) by lia.
      cbn [seq flat_map]. rewrite blocks_shift, <- app_assoc. reflexivity.
    + rewrite Hc. replace (n / 64) with ((n - 64) / 64 + 1) by lia.
      rewrite <- iter_incr_succ by lia.
      rewrite <- N.iter_succ, N.iter_succ_r. reflexivity.
    + intros; lia.
    + intros _. destruct (Z.eq_dec ((n - 64) / 64) 0) as [Hz|Hz].
      * rewrite (H0 Hz). reflexivity.
      * apply Hpos. lia.
  - exists g. replace (n / 64) with 0 by lia.
    replace (n mod 64) with n by lia.
    cbn [Z.to_nat seq flat_map Z.to_N N.iter]. rewrite app_nil_r.
    split; [reflexivity|]. split; [reflexivity|]. split; [exact Hl|].
    split; [reflexivity|lia].
Qed.

Lemma bulk_spec g n :
  ok g -> 0 <= n ->
  let q := (n + 63) / 64 in
  fst (Nasam1024_more.bulk g n) =
    firstn (Z.to_nat n) (blocks (counter g) 0 (Z.to_nat q)) /\
  snd (Nasam1024_more.bulk g n) =
    mk (N.iter (Z.to_N q) incr (counter g))
       (if n =? 0 then buffer g
        else block_of (N.iter (Z.to_N q) incr (counter g)))
       8.
Proof.
  intros Hg Hn q. pose proof Hg as (Hs & Hi & Hl & Hp).
  unfold Nasam1024_more.bulk.
  destruct (bulk_loop_spec (Z.to_nat (n / 64) + 1) g n [] Hl ltac:(lia) ltac:(lia))
    as (g' & E & Hc & Hl' & H0 & Hpos).
  rewrite E. cbn [app].
  destruct (Z.ltb_spec 0 (n mod 64)) as [Hr|Hr].
  - rewrite (refill_buffer_eq g' Hl'). cbn [fst snd counter buffer buffer_position].
    assert (Hq : q = n / 64 + 1) by (subst q; lia).
    split.
    + rewrite Hq. replace (Z.to_nat (n / 64 + 1)) with (Z.to_nat (n / 64) + 1)%nat by lia.
      rewrite seq_app, flat_map_app, firstn_app, length_blocks.
      rewrite (@firstn_all2 _ (Z.to_nat n)) by (rewrite length_blocks; lia).
      f_equal. replace (Z.to_nat n - 64 * Z.to_nat (n / 64))%nat
        with (Z.to_nat (n mod 64)) by lia.
      cbn [seq flat_map Nat.add]. rewrite app_nil_r. rewrite Hc.
      rewrite <- N.iter_succ.
      replace (N.of_nat (S (Z.to_nat (n / 64)))) with (N.succ (Z.to_N (n / 64)))
        by lia.
      reflexivity.
    + destruct (Z.eqb_spec n 0); [lia|].
      rewrite Hc, Hq, iter_incr_succ by lia. reflexivity.
  - cbn [fst snd counter buffer buffer_position].
    assert (Hq : q = n / 64) by (subst q; lia).
    split.
    + rewrite Hq. symmetry. apply firstn_all2. rewrite length_blocks. lia.
    + rewrite Hq, <- Hc. destruct (Z.eqb_spec n 0) as [Hz|Hz].
      * rewrite (H0 ltac:(lia)). reflexivity.
      * rewrite (Hpos ltac:(lia)). reflexivity.
Qed.

(** X13. [bulk(x, n)] writes [n] bytes: the little-endian bytes of the
    blocks of the next [ceil(n / 64)] counters, cut to length. It starts at
    a fresh block whatever was buffered, advances the counter by
    [ceil(n / 64)], and leaves the buffer empty, so the unused rest of the
    last block is never returned. *)
Theorem nasam1024_bulk_closed_form (g : t) (n : Z) :
  ok g -> is_u64 n ->
  let q := (n + 63) / 64 in
  fst (Nasam1024_more.bulk g n) =
    firstn (Z.to_nat n)
      (flat_map (fun i => bytes_of_words 8 8
                   (block_of (N.iter (N.of_nat (S i)) incr (counter g))))
                (seq 0 (Z.to_nat q))) /\
  length (fst (Nasam1024_more.bulk g n)) = Z.to_nat n /\
  counter (snd (Nasam1024_more.bulk g n)) = N.iter (Z.to_N q) incr (counter g) /\
  buffer_position (snd (Nasam1024_more.bulk g n)) = 8 /\
  ok (snd (Nasam1024_more.bulk g n)).
Proof.
  intros Hg Hn q. pose proof Hg as (Hs & Hi & Hl & Hp).
  unfold is_u64 in Hn.
  destruct (bulk_spec g n Hg ltac:(lia)) as [E1 E2]. fold q in E1, E2.
  split; [exact E1|]. rewrite E2. cbn [counter buffer buffer_position].
  split; [|split; [reflexivity|split; [reflexivity|]]].
  - rewrite E1, length_firstn, length_blocks. subst q. lia.
  - destruct (iter_incr_congr (counter g) (Z.to_N q) Hs Hi) as (Hinc & Hok & _).
    split; [exact Hok|]. split; [cbn [counter]; rewrite Hinc; exact Hi|].
    split; [|cbn [buffer_position]; lia].
    cbn [buffer]. destruct (n =? 0); [exact Hl|reflexivity].
Qed.

Lemma nasam1024_bulk_closed_form_witness :
  let g := mk ctor (repeat 0 8) 3 in
  let q := (100 + 63) / 64 in
  fst (Nasam1024_more.bulk g 100) =
    firstn (Z.to_nat 100)
      (flat_map (fun i => bytes_of_words 8 8
                   (block_of (N.iter (N.of_nat (S i)) incr (counter g))))
                (seq 0 (Z.to_nat q))) /\
  length (fst (Nasam1024_more.bulk g 100)) = Z.to_nat 100 /\
  counter (snd (Nasam1024_more.bulk g 100)) = N.iter (Z.to_N q) incr (counter g) /\
  buffer_position (snd (Nasam1024_more.bulk g 100)) = 8 /\
  ok (snd (Nasam1024_more.bulk g 100)).
Proof.
  apply (nasam1024_bulk_closed_form (mk ctor (repeat 0 8) 3) 100).
  - split; [exact limbs_ok_ctor_state|].
    split; [exact limbs_ok_ctor_increment|].
    split; [reflexivity|]. cbn [buffer_position]. lia.
  - unfold is_u64. lia.
Defined.

(** X14. The engine invariant (16-limb counter and increment, 8-word
    buffer, cursor between 0 and 8) is kept by [operator()], [discard],
    [big_jump] and the named jumps, and is established by [reseed] and the
    constructors from a seed or a state; so [buffer[buffer_position++]]
    never reads outside the buffer. *)
Theorem nasam1024_invariant (g : t) (n seed : Z) (step buffer0 : list Z) :
  ok g -> is_u64 n -> limbs_ok step -> length buffer0 = 8%nat ->
  ok (snd (next g)) /\
  0 <= buffer_position (if is_buffer_empty g then refill_buffer g else g) < 8 /\
  ok (discard g n) /\
  ok (Nasam1024_more.big_jump g step) /\
  ok (Nasam1024_more.jump g) /\
  ok (Nasam1024_more.long_jump g) /\
  ok (Nasam1024_more.reseed g seed) /\
  ok (Nasam1024_more.ctor_seed buffer0 seed) /\
  ok (Nasam1024_more.ctor_state buffer0 step).
Proof.
  intros Hg Hn Hst Hb0. pose proof Hg as (Hs & Hi & Hl & Hp).
  assert (Hseed : forall b s, length b = 8%nat -> limbs_ok s ->
            ok (mk (big_jump ctor s) b 8)).
  { intros b s Hb Hs'.
    destruct (big_jump_congr ctor s limbs_ok_ctor_state limbs_ok_ctor_increment Hs')
      as [Hok _].
    split; [exact Hok|]. split; [exact limbs_ok_ctor_increment|].
    split; [exact Hb|]. cbn [buffer_position]. lia. }
  split; [|split; [|split; [|split; [|split; [|split; [|split; [|split]]]]]]].
  - pose proof (nasam_next_after g 0 Hg ltac:(lia)) as H.
    rewrite (nasam_after_0 g Hg) in H. rewrite H. clear H.
    unfold after. cbv zeta.
    set (p := buffer_position g) in *.
    destruct (Z.leb_spec (p + (0 + 1)) 8).
    + split; [exact Hs|]. split; [exact Hi|]. split; [exact Hl|].
      cbn [buffer_position]. lia.
    + destruct (iter_incr_congr (counter g) (Z.to_N ((p + (0 + 1) - 1) / 8)) Hs Hi)
        as (Hinc & Hok & _).
      split; [exact Hok|]. split; [cbn [counter]; rewrite Hinc; exact Hi|].
      split; [reflexivity|]. cbn [buffer_position]. lia.
  - unfold is_buffer_empty, BUFFERSIZE.
    destruct (Z.eqb_spec (buffer_position g) 8) as [E|E].
    + cbn [refill_buffer buffer_position]. lia.
    + lia.
  - rewrite (nasam_discard_eq g n Hg Hn). cbv zeta.
    set (p := buffer_position g) in *. unfold is_u64 in Hn.
    destruct (Z.leb_spec n (8 - p)).
    + split; [exact Hs|]. split; [exact Hi|]. split; [exact Hl|].
      cbn [buffer_position]. lia.
    + destruct (iter_incr_congr (counter g) (Z.to_N ((p + n - 8) / 8 + 1)) Hs Hi)
        as (Hinc & Hok & _).
      split; [exact Hok|]. split; [cbn [counter]; rewrite Hinc; exact Hi|].
      split; [reflexivity|]. cbn [buffer_position]. lia.
  - exact (ok_big_jump g step Hg Hst).
  - apply (ok_big_jump g _ Hg).
    exact (proj1 (jump_step_ok [0; 0; 1; 0; 0; 0; 0; 0; 0; 0; 0; 0; 0; 0; 0; 0]
                    (2 ^ 128) eq_refl eq_refl eq_refl)).
  - apply (ok_big_jump g _ Hg).
    exact (proj1 (jump_step_ok [0; 0; 0; 0; 1; 0; 0; 0; 0; 0; 0; 0; 0; 0; 0; 0]
                    (2 ^ 256) eq_refl eq_refl eq_refl)).
  - exact (Hseed (buffer g) _ Hl (Nasam1024_state_facts.limbs_ok_draw_steps _)).
  - exact (Hseed buffer0 _ Hb0 (Nasam1024_state_facts.limbs_ok_draw_steps _)).
  - exact (Hseed buffer0 step Hb0 Hst).
Qed.

Lemma nasam1024_invariant_witness :
  let g := mk ctor (repeat 0 8) 8 in
  ok (snd (next g)) /\
  0 <= buffer_position (if is_buffer_empty g then refill_buffer g else g) < 8 /\
  ok (discard g 1000) /\
  ok (Nasam1024_more.big_jump g (repeat 1 16)) /\
  ok (Nasam1024_more.jump g) /\
  ok (Nasam1024_more.long_jump g) /\
  ok (Nasam1024_more.reseed g 42) /\
  ok (Nasam1024_more.ctor_seed (repeat 0 8) 42) /\
  ok (Nasam1024_more.ctor_state (repeat 0 8) (repeat 1 16)).
Proof.
  apply (nasam1024_invariant (mk ctor (repeat 0 8) 8) 1000 42
           (repeat 1 16) (repeat 0 8)).
  - split; [exact limbs_ok_ctor_state|].
    split; [exact limbs_ok_ctor_increment|].
    split; [reflexivity|]. cbn [buffer_position]. lia.
  - unfold is_u64. lia.
  - apply limbs_ok_repeat. unfold is_u64. lia.
  - reflexivity.
Defined.

Lemma map_seq_shift (f g : nat -> Z) a len :
  (forall w, (w < len)%nat -> f (a + w)%nat = g w) ->
  map f (seq a len) = map g (seq 0 len).
Proof.
  revert a g. induction len as [|len IH]; intros a g H; [reflexivity|].
  cbn [seq map]. f_equal.
  - rewrite <- (H 0%nat) by lia. f_equal. lia.
  - rewrite <- (seq_shift len 0), map_map.
    apply (IH (S a) (fun x => g (S x))). intros w Hw.
    rewrite <- (H (S w)) by lia. f_equal. lia.
Qed.

Lemma flat_map_map_le (f : nat -> Z) l :
  flat_map (le_bytes 8) (map f l) = flat_map (fun i => le_bytes 8 (f i)) l.
Proof.
  induction l as [|a l IH]; [reflexivity|].
  cbn [map flat_map]. rewrite IH. reflexivity.
Qed.

Lemma output_in_block g b w :
  ok g -> buffer_position g = 8 -> (w < 8)%nat ->
  fst (calls (N.of_nat (S (8 * b + w))) g) =
  get (block_of (N.iter (N.of_nat (S b)) incr (counter g))) w.
Proof.
  intros Hg Hp Hw.
  replace (N.of_nat (S (8 * b + w))) with (Z.to_N (Z.of_nat (8 * b + w) + 1)) by lia.
  rewrite (nasam_output g _ Hg) by lia. cbv zeta. rewrite Hp.
  destruct (Z.ltb_spec (8 + Z.of_nat (8 * b + w)) 8); [lia|].
  replace (Z.to_N ((8 + Z.of_nat (8 * b + w)) / 8)) with (N.of_nat (S b)) by lia.
  replace (Z.to_nat ((8 + Z.of_nat (8 * b + w)) mod 8)) with w by lia.
  reflexivity.
Qed.

Lemma blocks_are_outputs g :
  ok g -> buffer_position g = 8 -> forall b,
  blocks (counter g) 0 b =
  flat_map (le_bytes 8)
    (map (fun j => fst (calls (N.of_nat (S j)) g)) (seq 0 (8 * b))).
Proof.
  intros Hg Hp. induction b as [|b IH]; [reflexivity|].
  rewrite seq_S, flat_map_app, IH. cbn [Nat.add flat_map]. rewrite app_nil_r.
  replace (8 * S b)%nat with (8 * b + 8)%nat by lia.
  rewrite seq_app, map_app, flat_map_app. f_equal. cbn [Nat.add].
  rewrite (map_seq_shift _
             (get (block_of (N.iter (N.of_nat (S b)) incr (counter g))))).
  - rewrite flat_map_map_le. reflexivity.
  - intros w Hw. apply output_in_block; assumption.
Qed.

(** X25. On an engine whose buffer is empty, [bulk] for a whole number
    [b] of 64-byte blocks writes the little-endian bytes of the values the
    next [8 * b] calls of [operator()] would return, and leaves the engine
    exactly where those calls would leave it. *)
Theorem nasam1024_bulk_matches_calls (g : t) (b : nat) :
  ok g -> buffer_position g = 8 -> is_u64 (64 * Z.of_nat b) ->
  fst (Nasam1024_more.bulk g (64 * Z.of_nat b)) =
    flat_map (le_bytes 8)
      (map (fun j => fst (calls (N.of_nat (S j)) g)) (seq 0 (8 * b))) /\
  snd (Nasam1024_more.bulk g (64 * Z.of_nat b)) = snd (calls (N.of_nat (8 * b)) g).
Proof.
  intros Hg Hp Hn. unfold is_u64 in Hn.
  destruct (bulk_spec g (64 * Z.of_nat b) Hg ltac:(lia)) as [E1 E2].
  cbv zeta in E1, E2.
  replace ((64 * Z.of_nat b + 63) / 64) with (Z.of_nat b) in E1, E2 by lia.
  rewrite Nat2Z.id in E1. split.
  - rewrite E1, firstn_all2 by (rewrite length_blocks; lia).
    apply blocks_are_outputs; assumption.
  - rewrite E2, (nasam_calls_after g _ Hg). unfold after. rewrite Hp.
    destruct (Z.eqb_spec (64 * Z.of_nat b) 0) as [Hz|Hz].
    + replace b with 0%nat by lia. cbn. rewrite <- Hp. destruct g; reflexivity.
    + destruct (Z.leb_spec (8 + Z.of_N (N.of_nat (8 * b))) 8); [lia|].
      replace ((8 + Z.of_N (N.of_nat (8 * b)) - 1) / 8) with (Z.of_nat b) by lia.
      replace ((8 + Z.of_N (N.of_nat (8 * b)) - 1) mod 8 + 1) with 8 by lia.
      reflexivity.
Qed.

Lemma nasam1024_bulk_matches_calls_witness :
  let g := mk ctor (repeat 0 8) 8 in
  fst (Nasam1024_more.bulk g (64 * Z.of_nat 3)) =
    flat_map (le_bytes 8)
      (map (fun j => fst (calls (N.of_nat (S j)) g)) (seq 0 (8 * 3))) /\
  snd (Nasam1024_more.bulk g (64 * Z.of_nat 3)) = snd (calls (N.of_nat (8 * 3)) g).
Proof.
  apply (nasam1024_bulk_matches_calls (mk ctor (repeat 0 8) 8) 3).
  - split; [exact limbs_ok_ctor_state|].
    split; [exact limbs_ok_ctor_increment|].
    split; [reflexivity|]. cbn [buffer_position]. lia.
  - reflexivity.
  - unfold is_u64. cbn. lia.
Defined.

End Nasam1024_bulk_facts.

(* ------------------------------------------------------------------------- *)
(** ** fast and wyrand *)
(* ------------------------------------------------------------------------- *)

Module fast_facts.
Import Counter_1024_facts mixer_facts.

Local Abbreviation INC := fast.INCREMENT.

(** The buffer [refill] computes from state [s]. *)
Local Abbreviation blk s :=
  (map (fun i => fast.word (wrap64 (s + (Z.of_nat i + 1) * INC))) (seq 0 8)).

Lemma wrap64_add_l a b : wrap64 (wrap64 a + b) = wrap64 (a + b).
Proof. unfold wrap64. apply Z.add_mod_idemp_l. lia. Qed.

Lemma wrap64_add_r a b : wrap64 (a + wrap64 b) = wrap64 (a + b).
Proof. unfold wrap64. apply Z.add_mod_idemp_r. lia. Qed.

Lemma fast_refill_eq g :
  length (fast.buffer g) = 8%nat ->
  fast.refill g =
  fast.mk (wrap64 (fast.state g + 8 * INC)) (blk (fast.state g)) 0.
Proof.
  intros Hl. unfold fast.refill. rewrite wrap64_add_r. f_equal.
  destruct (fast.buffer g) as [|b0 [|b1 [|b2 [|b3 [|b4 [|b5 [|b6 [|b7 [|b8 l]]]]]]]]];
    try discriminate Hl.
  cbn [fold_left seq map fast.refill_body]. unfold fast.refill_body.
  rewrite !wrap64_add_r. reflexivity.
Qed.

Lemma get_blk s i :
  (i < 8)%nat ->
  get (blk s) i = fast.word (wrap64 (s + (Z.of_nat i + 1) * INC)).
Proof.
  intros Hi. do 8 (destruct i as [|i]; [reflexivity|]). lia.
Qed.

Lemma fast_calls_succ k g :
  fast.calls (N.succ k) g = fast.next (snd (fast.calls k g)).
Proof. unfold fast.calls. rewrite N.iter_succ. reflexivity. Qed.

Lemma blk_wrap s : blk (wrap64 s) = blk s.
Proof. apply map_ext. intros i. rewrite wrap64_add_l. reflexivity. Qed.

Lemma wrap64_small x : 0 <= x <= 9 -> wrap64 x = x.
Proof. intros H. apply wrap64_id. unfold is_u64. lia. Qed.

(** The engine after [k] calls. *)
Lemma fast_calls_state g (k : N) :
  fast.ok g ->
  let m := fast.index g + Z.of_N k in
  snd (fast.calls k g) =
  if m <=? 8 then fast.mk (fast.state g) (fast.buffer g) m
  else fast.mk (wrap64 (fast.state g + 8 * ((m - 1) / 8) * INC))
               (blk (wrap64 (fast.state g + 8 * ((m - 1) / 8 - 1) * INC)))
               ((m - 1) mod 8 + 1).
Proof.
  intros [Hl Hp]. pattern k. apply N.peano_ind; clear k; [|intros k IH].
  - cbv zeta. cbn [Z.of_N fast.calls N.iter snd]. rewrite Z.add_0_r.
    destruct (Z.leb_spec (fast.index g) 8); [|lia]. destruct g; reflexivity.
  - cbv zeta in *. rewrite fast_calls_succ, IH, N2Z.inj_succ. clear IH.
    set (p := fast.index g) in *. set (j := Z.of_N k).
    assert (Hj : 0 <= j) by (subst j; lia).
    generalize dependent j. intros j Hj.
    unfold fast.next, fast.BUFFER_SIZE.
    destruct (Z.leb_spec (p + j) 8) as [Hm|Hm].
    + cbn [fast.index].
      destruct (Z.eqb_spec (p + j) 8) as [H8|H8].
      * rewrite fast_refill_eq by exact Hl. cbn [fast.state fast.buffer fast.index snd].
        destruct (Z.leb_spec (p + Z.succ j) 8); [lia|].
        replace ((p + Z.succ j - 1) / 8) with 1 by lia.
        replace ((p + Z.succ j - 1) mod 8 + 1) with 1 by lia.
        replace (8 * 1 * INC) with (8 * INC) by lia.
        replace (8 * (1 - 1) * INC) with 0 by lia.
        rewrite Z.add_0_r, blk_wrap. reflexivity.
      * cbn [fast.state fast.buffer fast.index snd].
        destruct (Z.leb_spec (p + Z.succ j) 8); [|lia].
        rewrite wrap64_small by lia.
        replace (p + Z.succ j) with (p + j + 1) by lia. reflexivity.
    + destruct (Z.leb_spec (p + Z.succ j) 8); [lia|].
      cbn [fast.index].
      destruct (Z.eqb_spec ((p + j - 1) mod 8 + 1) 8) as [H8|H8].
      * rewrite fast_refill_eq by reflexivity.
        cbn [fast.state fast.buffer fast.index snd].
        replace ((p + Z.succ j - 1) / 8) with ((p + j - 1) / 8 + 1) by lia.
        replace ((p + Z.succ j - 1) mod 8 + 1) with 1 by lia.
        replace ((p + j - 1) / 8 + 1 - 1) with ((p + j - 1) / 8) by lia.
        rewrite wrap64_add_l.
        replace (fast.state g + 8 * ((p + j - 1) / 8) * INC + 8 * INC)
          with (fast.state g + 8 * ((p + j - 1) / 8 + 1) * INC) by lia.
        reflexivity.
      * cbn [fast.state fast.buffer fast.index snd].
        replace ((p + Z.succ j - 1) / 8) with ((p + j - 1) / 8) by lia.
        rewrite (wrap64_small ((p + j - 1) mod 8 + 1 + 1)) by lia.
        replace ((p + Z.succ j - 1) mod 8 + 1) with ((p + j - 1) mod 8 + 1 + 1) by lia.
        reflexivity.
Qed.

(** The value call number [k + 1] returns. *)
Lemma fast_output g k :
  fast.ok g -> 0 <= k ->
  fst (fast.calls (Z.to_N (k + 1)) g) =
  let m := fast.index g + k in
  if m <? 8 then get (fast.buffer g) (Z.to_nat m)
  else fast.word (wrap64 (fast.state g + (m - 7) * INC)).
Proof.
  intros Hg Hk. pose proof Hg as [Hl Hp].
  replace (Z.to_N (k + 1)) with (N.succ (Z.to_N k))
    by (rewrite <- Z2N.inj_succ by lia; f_equal).
  rewrite fast_calls_succ, (fast_calls_state g _ Hg), Z2N.id by exact Hk.
  cbv zeta. set (p := fast.index g) in *.
  unfold fast.next, fast.BUFFER_SIZE.
  destruct (Z.leb_spec (p + k) 8) as [Hm|Hm].
  - cbn [fast.index].
    destruct (Z.eqb_spec (p + k) 8) as [H8|H8].
    + rewrite fast_refill_eq by exact Hl. cbn [fast.state fast.buffer fast.index fst].
      destruct (Z.ltb_spec (p + k) 8); [lia|].
      rewrite (get_blk _ 0) by lia. do 2 f_equal. lia.
    + cbn [fast.state fast.buffer fast.index fst].
      destruct (Z.ltb_spec (p + k) 8); [reflexivity|lia].
  - destruct (Z.ltb_spec (p + k) 8); [lia|].
    cbn [fast.index].
    destruct (Z.eqb_spec ((p + k - 1) mod 8 + 1) 8) as [H8|H8].
    + rewrite fast_refill_eq by reflexivity.
      cbn [fast.state fast.buffer fast.index fst].
      rewrite (get_blk _ 0) by lia. rewrite wrap64_add_l. do 2 f_equal.
      cbn [Z.of_nat]. lia.
    + cbn [fast.state fast.buffer fast.index fst].
      rewrite get_blk by lia. rewrite wrap64_add_l. do 2 f_equal.
      rewrite Z2Nat.id by lia. lia.
Qed.

Lemma wy_calls_succ k g :
  wyrand.calls (N.succ k) g = wyrand.next (snd (wyrand.calls k g)).
Proof. unfold wyrand.calls. rewrite N.iter_succ. reflexivity. Qed.

Lemma wy_next g :
  wyrand.next g =
  (fast.word (wrap64 (wyrand.state g + INC)),
   wyrand.mk (wrap64 (wyrand.state g + INC))).
Proof. reflexivity. Qed.

Lemma wy_calls_closed (k : N) g :
  wyrand.calls (N.succ k) g =
  (fast.word (wrap64 (wyrand.state g + Z.of_N (N.succ k) * INC)),
   wyrand.mk (wrap64 (wyrand.state g + Z.of_N (N.succ k) * INC))).
Proof.
  pattern k. apply N.peano_ind; clear k; [|intros k IH].
  - unfold wyrand.calls. cbn [N.succ Pos.succ N.iter Pos.iter snd].
    rewrite wy_next. rewrite Z.mul_1_l. reflexivity.
  - rewrite wy_calls_succ, IH. cbn [snd]. rewrite wy_next. cbn [wyrand.state].
    rewrite wrap64_add_l.
    replace (wyrand.state g + Z.of_N (N.succ k) * INC + INC)
      with (wyrand.state g + Z.of_N (N.succ (N.succ k)) * INC)
      by (rewrite (N2Z.inj_succ (N.succ k)); ring).
    reflexivity.
Qed.

(** X15. [fast] is a buffered [wyrand]: the engine constructed from [seed]
    returns, call after call, the values of a [wyrand] constructed from
    [seed ^ 0x9e3779b97f4a7c15]. *)
Theorem fast_is_buffered_wyrand (buffer0 : list Z) (seed : Z) (k : N) :
  length buffer0 = 8%nat ->
  fst (fast.calls k (fast.ctor buffer0 seed)) =
  fst (wyrand.calls k (wyrand.ctor (Z.lxor seed 0x9e3779b97f4a7c15))).
Proof.
  intros Hl.
  destruct (N.eq_dec k 0) as [->|Hk]; [reflexivity|].
  replace k with (N.succ (N.pred k)) at 2 by lia.
  rewrite wy_calls_closed. cbn [fst wyrand.ctor wyrand.state].
  replace k with (Z.to_N (Z.of_N (N.pred k) + 1)) at 1
    by (rewrite Z2N.inj_add, N2Z.id by lia; change (Z.to_N 1) with 1%N; lia).
  unfold fast.ctor, fast.BUFFER_SIZE.
  rewrite (fast_refill_eq (fast.mk _ buffer0 8) Hl). cbn [fast.state fast.buffer].
  rewrite fast_output; [ | split; [reflexivity|cbn [fast.index]; lia] | lia ].
  cbv zeta. cbn [fast.state fast.buffer fast.index].
  set (j := Z.of_N (N.pred k)).
  assert (Hj : 0 <= j) by (subst j; lia).
  replace (Z.of_N (N.succ (N.pred k))) with (j + 1) by (subst j; lia).
  generalize dependent j. intros j Hj.
  destruct (Z.ltb_spec (0 + j) 8).
  - rewrite get_blk by lia. do 2 f_equal. rewrite Z2Nat.id by lia. lia.
  - rewrite wrap64_add_l. do 2 f_equal. lia.
Qed.

Lemma fast_is_buffered_wyrand_witness :
  fst (fast.calls 100 (fast.ctor (repeat 0 8) 42)) =
  fst (wyrand.calls 100 (wyrand.ctor (Z.lxor 42 0x9e3779b97f4a7c15))).
Proof.
  apply (fast_is_buffered_wyrand (repeat 0 8) 42 100). reflexivity.
Defined.

Lemma ok_discard g n : fast.ok g -> fast.ok (fast.discard g n).
Proof. intros H. exact H. Qed.

(** X16. [fast::discard(n)] moves the state only: the words still in the
    buffer are returned first, unchanged, and the [n] outputs are skipped
    from the next refill on. So the call after [discard(n)] returns what
    call number [n + 1] would have returned only when the buffer is
    empty. *)
Theorem fast_discard_skips_after_buffer (g : fast.t) (n k : Z) :
  fast.ok g -> is_u64 n -> 0 <= k ->
  (fast.index g + k < 8 ->
     fst (fast.calls (Z.to_N (k + 1)) (fast.discard g n)) =
     fst (fast.calls (Z.to_N (k + 1)) g)) /\
  (8 <= fast.index g + k ->
     fst (fast.calls (Z.to_N (k + 1)) (fast.discard g n)) =
     fst (fast.calls (Z.to_N (n + k + 1)) g)).
Proof.
  intros Hg Hn Hk. unfold is_u64 in Hn.
  rewrite (fast_output _ k (ok_discard g n Hg) Hk).
  rewrite (fast_output g k Hg Hk).
  rewrite (fast_output g (n + k) Hg) by lia.
  cbv zeta. unfold fast.discard. cbn [fast.state fast.buffer fast.index].
  set (p := fast.index g).
  split; intros H.
  - destruct (Z.ltb_spec (p + k) 8); [reflexivity|lia].
  - destruct (Z.ltb_spec (p + k) 8); [lia|].
    destruct (Z.ltb_spec (p + (n + k)) 8); [lia|].
    rewrite wrap64_add_r, wrap64_add_l. do 2 f_equal. lia.
Qed.

Lemma fast_discard_skips_after_buffer_witness :
  let g := fast.mk 1 (repeat 7 8) 5 in
  (fast.index g + 1 < 8 ->
     fst (fast.calls (Z.to_N (1 + 1)) (fast.discard g 1000)) =
     fst (fast.calls (Z.to_N (1 + 1)) g)) /\
  (8 <= fast.index g + 1 ->
     fst (fast.calls (Z.to_N (1 + 1)) (fast.discard g 1000)) =
     fst (fast.calls (Z.to_N (1000 + 1 + 1)) g)).
Proof.
  apply (fast_discard_skips_after_buffer (fast.mk 1 (repeat 7 8) 5) 1000 1).
  - split; [reflexivity|]. cbn [fast.index]. lia.
  - unfold is_u64. lia.
  - lia.
Defined.

(** X17. [fast::operator==] looks at the state word only, and a call that
    finds words in the buffer does not change the state: an engine compares
    equal to itself one call later unless that call refilled the buffer. *)
Theorem fast_equality_ignores_position (g : fast.t) :
  fast.ok g -> is_u64 (fast.state g) ->
  (fast.index g < 8 ->
     fast.eqb g (snd (fast.next g)) = true /\
     fast.index (snd (fast.next g)) = fast.index g + 1) /\
  (fast.index g = 8 -> fast.eqb g (snd (fast.next g)) = false).
Proof.
  intros [Hl Hp] Hs. unfold fast.next, fast.BUFFER_SIZE, fast.eqb.
  split; intros H.
  - destruct (Z.eqb_spec (fast.index g) 8); [lia|].
    cbn [snd fast.state fast.index]. split; [apply Z.eqb_refl|].
    unfold wrap64. lia.
  - rewrite H, Z.eqb_refl. unfold fast.refill. cbn [snd fast.state].
    apply Z.eqb_neq. unfold is_u64 in Hs.
    assert (E : 0 < wrap64 (8 * INC) < 2 ^ 64) by (vm_compute; split; reflexivity).
    generalize dependent (wrap64 (8 * INC)). intros c Hc.
    unfold wrap64. lia.
Qed.

Lemma fast_equality_ignores_position_witness :
  let g := fast.mk 1 (repeat 7 8) 5 in
  (fast.index g < 8 ->
     fast.eqb g (snd (fast.next g)) = true /\
     fast.index (snd (fast.next g)) = fast.index g + 1) /\
  (fast.index g = 8 -> fast.eqb g (snd (fast.next g)) = false).
Proof.
  apply (fast_equality_ignores_position (fast.mk 1 (repeat 7 8) 5)).
  - split; [reflexivity|]. cbn [fast.index]. lia.
  - cbn [fast.state]. unfold is_u64. lia.
Defined.

(** X18. [fast::unbiased(lo, hi)] never adds the lower bound: moving both
    bounds by the same amount does not change what it returns, and when
    the first draw is 2^64 - 1 and the range has at most 2^63 values it
    returns 2^64 - 1 whatever the bounds are. *)
Theorem fast_unbiased_ignores_lower_bound (draws : list Z) (lo hi d : Z) :
  is_u64 lo -> is_u64 hi -> lo < hi -> is_u64 (lo + d) -> is_u64 (hi + d) ->
  fast.unbiased draws (lo + d) (hi + d) = fast.unbiased draws lo hi /\
  (hi - lo < 2 ^ 63 ->
   fast.unbiased (UINT64_MAX :: draws) lo hi = Some (UINT64_MAX, draws)).
Proof.
  unfold is_u64. intros Hlo Hhi Hlt Hlo' Hhi'. split.
  - unfold fast.unbiased.
    destruct (Z.gtb_spec (lo + d) (hi + d)); [lia|].
    destruct (Z.gtb_spec lo hi); [lia|].
    destruct (Z.eqb_spec (lo + d) (hi + d)); [lia|].
    destruct (Z.eqb_spec lo hi); [lia|].
    replace (hi + d - (lo + d) + 1) with (hi - lo + 1) by lia.
    reflexivity.
  - intros Hr. unfold fast.unbiased.
    destruct (Z.gtb_spec lo hi); [lia|].
    destruct (Z.eqb_spec lo hi); [lia|].
    assert (Er : wrap64 (hi - lo + 1) = hi - lo + 1)
      by (apply wrap64_id; unfold is_u64; lia).
    rewrite Er. set (r := hi - lo + 1) in *.
    destruct (Z.eqb_spec r 0); [lia|].
    cbn [draw64]. unfold umul128, UINT64_MAX, wrap64.
    assert (E1 : ((2 ^ 64 - 1) * r) mod 2 ^ 64 = 2 ^ 64 - r).
    { symmetry. apply (Z.mod_unique _ _ (r - 1)); lia. }
    assert (E2 : ((2 ^ 64 - 1) * r) / 2 ^ 64 = r - 1).
    { symmetry. apply (Z.div_unique _ _ _ (2 ^ 64 - r)); lia. }
    rewrite E1, E2.
    destruct (Z.ltb_spec (2 ^ 64 - r) r); [lia|].
    do 2 f_equal. replace (2 ^ 64 - r + (r - 1)) with (2 ^ 64 - 1) by lia.
    reflexivity.
Qed.

Lemma fast_unbiased_ignores_lower_bound_witness :
  fast.unbiased [5] (10 + 7) (20 + 7) = fast.unbiased [5] 10 20 /\
  (20 - 10 < 2 ^ 63 ->
   fast.unbiased (UINT64_MAX :: [5]) 10 20 = Some (UINT64_MAX, [5])).
Proof.
  apply (fast_unbiased_ignores_lower_bound [5] 10 20 7); unfold is_u64; lia.
Defined.

End fast_facts.

(* ------------------------------------------------------------------------- *)
(** ** csprng: the keystream and the class invariant *)
(* ------------------------------------------------------------------------- *)

Module csprng_stream_facts.
Import Counter_1024_facts csprng csprng_facts.

Section Keystream.
Variable ChaCha_state : Type.
Variable build_state : list Z -> list Z -> Z -> ChaCha_state.
Variable permute_block : ChaCha_state -> list Z.

Local Abbreviation refill_buffer := (refill_buffer ChaCha_state build_state permute_block).
Local Abbreviation next := (next ChaCha_state build_state permute_block).
Local Abbreviation discard := (discard ChaCha_state build_state permute_block).
Local Abbreviation jump := (jump ChaCha_state build_state permute_block).
Local Abbreviation long_jump := (long_jump ChaCha_state build_state permute_block).
Local Abbreviation reseed := (reseed ChaCha_state build_state permute_block).
Local Abbreviation ctor := (ctor ChaCha_state build_state permute_block).
Local Abbreviation calls := (calls ChaCha_state build_state permute_block).
Local Abbreviation after := (after ChaCha_state build_state permute_block).
Local Abbreviation block := (block ChaCha_state build_state permute_block).
Local Abbreviation inv := (inv ChaCha_state build_state permute_block).

(** The value the call after [k] calls returns. *)
Lemma csprng_next_value s k :
  ok s -> 0 <= k -> survives s (k + 1) = true ->
  returned (next (after s k)) =
  Some (let m := word_index s + k in
        if m <? 8 then get (buffer s) (Z.to_nat m)
        else get (block s (block_counter s + m / 8 - 1)) (Z.to_nat (m mod 8))).
Proof.
  destruct s as [ky nn c b p]. unfold ok, survives, csprng.after, is_u64.
  cbn [word_index block_counter key nonce buffer]. intros [Hp Hc] Hk Hs.
  apply orb_true_iff in Hs. rewrite Z.leb_le, Z.ltb_lt in Hs.
  cbv zeta.
  unfold csprng.next, csprng.refill_buffer, with_buffer, with_word_index,
    with_block_counter, wrap64, csprng.block.
  destruct (Z.leb_spec (p + k) 8) as [Hm|Hm];
    cbn [word_index block_counter key nonce buffer bind].
  - destruct (Z.leb_spec 8 (p + k)) as [H8|H8];
      cbn [word_index block_counter key nonce buffer bind].
    + destruct (Z.ltb_spec (p + k) 8); [lia|].
      replace ((c + 1) mod 2 ^ 64) with (c + 1) by lia.
      destruct (Z.eqb_spec (c + 1) 0) as [H0|H0]; [lia|].
      cbn [bind returned word_index block_counter key nonce buffer].
      replace (c + (p + k) / 8 - 1) with c by lia.
      replace ((p + k) mod 8) with 0 by lia. reflexivity.
    + destruct (Z.ltb_spec (p + k) 8); [|lia]. reflexivity.
  - destruct (Z.ltb_spec (p + k) 8); [lia|].
    set (q := (p + k - 1) / 8) in *.
    destruct (Z.leb_spec 8 ((p + k - 1) mod 8 + 1)) as [H8|H8];
      cbn [word_index block_counter key nonce buffer bind].
    + replace ((c + q + 1) mod 2 ^ 64) with (c + q + 1) by lia.
      destruct (Z.eqb_spec (c + q + 1) 0) as [H0|H0]; [lia|].
      cbn [bind returned word_index block_counter key nonce buffer].
      replace (c + (p + k) / 8 - 1) with (c + q) by lia.
      replace ((p + k) mod 8) with 0 by lia. reflexivity.
    + cbn [returned].
      replace (c + (p + k) / 8 - 1) with (c + q - 1) by lia.
      replace ((p + k - 1) mod 8 + 1) with ((p + k) mod 8) by lia.
      reflexivity.
Qed.

Lemma csprng_call_value s j :
  ok s -> 0 <= j -> survives s (j + 1) = true ->
  returned (calls (Z.to_N (j + 1)) s) =
  Some (let m := word_index s + j in
        if m <? 8 then get (buffer s) (Z.to_nat m)
        else get (block s (block_counter s + m / 8 - 1)) (Z.to_nat (m mod 8))).
Proof.
  intros Hs Hj Hsv.
  replace (Z.to_N (j + 1)) with (N.succ (Z.to_N j))
    by (rewrite <- Z2N.inj_succ by lia; f_equal).
  rewrite csprng_calls_succ.
  pose proof (csprng_calls_spec _ build_state permute_block s (Z.to_N j) Hs) as Hc.
  rewrite Z2N.id in Hc by exact Hj.
  rewrite (survives_mono s j Hs Hj Hsv) in Hc. destruct Hc as [v ->].
  cbn [bind]. exact (csprng_next_value s j Hs Hj Hsv).
Qed.

(** X19. The engine runs the block function in counter mode: for the
    engine constructed from a key, a nonce and an initial counter [c], call
    number [j + 1] of [operator()] returns word [j mod 8] of the block at
    counter [c + j / 8], as long as the counter has not run out. *)
Theorem csprng_keystream_closed_form (ky nn : list Z) (c j : Z) :
  is_u64 c -> 0 <= j -> c + j / 8 + 1 < 2 ^ 64 ->
  returned (bind (ctor ky nn c) (fun _ rng => calls (Z.to_N (j + 1)) rng)) =
  Some (get (permute_block (build_state ky [get nn 0; get nn 1] (c + j / 8)))
            (Z.to_nat (j mod 8))).
Proof.
  unfold is_u64. intros Hc Hj Hlim.
  unfold csprng.ctor, csprng.refill_buffer, with_buffer, with_word_index,
    with_block_counter. cbn [word_index block_counter key nonce buffer].
  rewrite (wrap64_id (c + 1)) by (unfold is_u64; lia).
  destruct (Z.eqb_spec (c + 1) 0); [lia|]. cbn [bind].
  rewrite csprng_call_value.
  - cbv zeta. cbn [word_index block_counter key nonce buffer].
    unfold csprng.block. cbn [key nonce]. rewrite Z.add_0_l.
    destruct (Z.ltb_spec j 8).
    + replace (j / 8) with 0 by lia. replace (j mod 8) with j by lia.
      rewrite Z.add_0_r. reflexivity.
    + replace (c + 1 + j / 8 - 1) with (c + j / 8) by lia. reflexivity.
  - unfold ok, is_u64. cbn [word_index block_counter]. lia.
  - exact Hj.
  - unfold survives. cbn [word_index block_counter].
    apply orb_true_iff. right. apply Z.ltb_lt. lia.
Qed.

(** X20. The class invariant (word index within [0,8], 64-bit block
    counter, and, while words of the buffer remain, a buffer that is the
    block of the previous counter) is established by the constructor and
    by [reseed] and kept by [operator()], [discard], [jump] and
    [long_jump], whether they return or throw; so [operator()] reads the
    buffer at an index below 8. *)
Theorem csprng_invariant (s : t) (n c : Z) (ky nn : list Z) :
  inv s -> is_u64 n -> is_u64 c ->
  inv (engine (next s)) /\
  inv (engine (discard s n)) /\
  inv (engine (jump s)) /\
  inv (engine (long_jump s)) /\
  inv (engine (reseed s ky nn)) /\
  inv (engine (ctor ky nn c)) /\
  0 <= word_index (engine (if 8 <=? word_index s
                           then refill_buffer s else Ok tt s)) < 8.
Proof.
  intros Hs Hn Hc.
  split; [apply next_inv; exact Hs|].
  split; [apply discard_inv; assumption|].
  split; [apply discard_inv; [exact Hs|unfold is_u64; lia]|].
  split; [apply discard_inv; [exact Hs|unfold is_u64; lia]|].
  split; [apply reseed_inv|].
  split; [apply ctor_inv; exact Hc|].
  destruct Hs as [[Hw _] _].
  destruct (Z.leb_spec 8 (word_index s)).
  - rewrite refill_word_index. lia.
  - cbn [engine]. lia.
Qed.

End Keystream.

Lemma csprng_keystream_closed_form_witness :
  returned (bind (ctor Z toy_build_state toy_permute_block (repeat 3 8) [1; 2] 5)
                 (fun _ rng => calls Z toy_build_state toy_permute_block
                                 (Z.to_N (20 + 1)) rng)) =
  Some (get (toy_permute_block (toy_build_state (repeat 3 8)
                                  [get [1; 2] 0; get [1; 2] 1] (5 + 20 / 8)))
            (Z.to_nat (20 mod 8))).
Proof.
  apply (csprng_keystream_closed_form Z toy_build_state toy_permute_block
           (repeat 3 8) [1; 2] 5 20); unfold is_u64; lia.
Defined.

Lemma csprng_invariant_witness :
  let s := mk (repeat 3 8) [1; 2] 5 (repeat 0 8) 8 in
  inv Z toy_build_state toy_permute_block
    (engine (next Z toy_build_state toy_permute_block s)) /\
  inv Z toy_build_state toy_permute_block
    (engine (discard Z toy_build_state toy_permute_block s 1000)) /\
  inv Z toy_build_state toy_permute_block
    (engine (jump Z toy_build_state toy_permute_block s)) /\
  inv Z toy_build_state toy_permute_block
    (engine (long_jump Z toy_build_state toy_permute_block s)) /\
  inv Z toy_build_state toy_permute_block
    (engine (reseed Z toy_build_state toy_permute_block s (repeat 4 8) [7; 8])) /\
  inv Z toy_build_state toy_permute_block
    (engine (ctor Z toy_build_state toy_permute_block (repeat 4 8) [7; 8] 9)) /\
  0 <= word_index (engine (if 8 <=? word_index s
                           then refill_buffer Z toy_build_state toy_permute_block s
                           else Ok tt s)) < 8.
Proof.
  apply (csprng_invariant Z toy_build_state toy_permute_block
           (mk (repeat 3 8) [1; 2] 5 (repeat 0 8) 8) 1000 9 (repeat 4 8) [7; 8]).
  - split; [split; [cbn [word_index]; lia|cbn [block_counter]; unfold is_u64; lia]|].
    unfold buffer_current. cbn [word_index]. lia.
  - unfold is_u64. lia.
  - unfold is_u64. lia.
Defined.

End csprng_stream_facts.

(* ------------------------------------------------------------------------- *)
(** ** csprng: comparison and the reader *)
(* ------------------------------------------------------------------------- *)

Module csprng_state_facts.
Import Counter_1024_facts csprng csprng_facts.

(** Engines that [operator==] cannot tell apart. *)
Local Abbreviation sim a b :=
  (key a = key b /\ nonce a = nonce b /\
   block_counter a = block_counter b /\ word_index a = word_index b /\
   (word_index a < 8 -> words_agree (buffer a) (buffer b))).

Section Equality.
Variable ChaCha_state : Type.
Variable build_state : list Z -> list Z -> Z -> ChaCha_state.
Variable permute_block : ChaCha_state -> list Z.

Local Abbreviation next := (next ChaCha_state build_state permute_block).
Local Abbreviation calls := (calls ChaCha_state build_state permute_block).

Local Abbreviation rel r1 r2 :=
  (match r1, r2 with
   | Ok v1 s1, Ok v2 s2 => v1 = v2 /\ sim s1 s2
   | Throw e1 s1, Throw e2 s2 => e1 = e2 /\ sim s1 s2
   | _, _ => False
   end).

Lemma next_sim a b : sim a b -> rel (next a) (next b).
Proof.
  destruct a as [ka na ca ba pa], b as [kb nb cb bb pb].
  cbn [key nonce block_counter buffer word_index].
  intros (-> & -> & -> & -> & Hb).
  unfold csprng.next, csprng.refill_buffer, with_buffer, with_word_index,
    with_block_counter.
  cbn [key nonce block_counter buffer word_index].
  destruct (Z.leb_spec 8 pb) as [H8|H8].
  - destruct (wrap64 (cb + 1) =? 0); cbn [bind key nonce block_counter buffer word_index].
    + exact (conj eq_refl (conj eq_refl (conj eq_refl (conj eq_refl
               (conj eq_refl (fun _ i _ => eq_refl)))))).
    + exact (conj eq_refl (conj eq_refl (conj eq_refl (conj eq_refl
               (conj eq_refl (fun _ i _ => eq_refl)))))).
  - cbn [bind key nonce block_counter buffer word_index].
    split; [apply (Hb H8); lia|].
    exact (conj eq_refl (conj eq_refl (conj eq_refl
             (conj eq_refl (fun _ => Hb H8))))).
Qed.

Lemma calls_sim a b (k : N) : sim a b -> rel (calls k a) (calls k b).
Proof.
  intros H. pattern k. apply N.peano_ind; clear k; [|intros k IH].
  - unfold csprng.calls. cbn [N.iter]. split; [reflexivity|exact H].
  - rewrite !csprng_calls_succ.
    destruct (calls k a) as [va sa|ea sa], (calls k b) as [vb sb|eb sb];
      try contradiction; cbn [bind].
    + apply next_sim. exact (proj2 IH).
    + exact IH.
Qed.

(** X21. [operator==] is sound: two engines it reports equal return the
    same value, or throw alike, at every later call; the stale buffers it
    does not compare are never read. *)
Theorem csprng_equal_engines_agree (lhs rhs : t) (k : N) :
  length (key lhs) = 8%nat -> length (key rhs) = 8%nat ->
  eqb lhs rhs = true ->
  returned (calls k lhs) = returned (calls k rhs).
Proof.
  intros Ll Lr He. apply eqb_true_iff in He.
  destruct He as (Hk & Hn & Hc & Hw & Hb).
  pose proof (calls_sim lhs rhs k
    (conj (words_agree_eq _ _ Ll Lr Hk) (conj Hn (conj Hc (conj Hw Hb))))) as H.
  destruct (calls k lhs), (calls k rhs); try contradiction; cbn [returned].
  - f_equal. exact (proj1 H).
  - reflexivity.
Qed.

End Equality.

Lemma csprng_equal_engines_agree_witness :
  returned (calls Z toy_build_state toy_permute_block 20 eq_lhs) =
  returned (calls Z toy_build_state toy_permute_block 20 eq_rhs).
Proof.
  apply (csprng_equal_engines_agree Z toy_build_state toy_permute_block
           eq_lhs eq_rhs 20); reflexivity.
Defined.

(* ---- operator>> ---- *)

Lemma read_good n ins d ins' :
  read n ins = (d, ins') -> good ins' = true ->
  good ins = true /\ (n <= length (pending ins))%nat /\
  d = firstn n (pending ins) /\ pending ins' = skipn n (pending ins).
Proof.
  unfold read. destruct (good ins) eqn:G; cbn [negb].
  - destruct (Nat.ltb_spec (length (pending ins)) n) as [H|H];
      intros E Hg; injection E as <- <-; cbn [good pending] in *.
    + discriminate.
    + repeat split. exact H.
  - intros E Hg. injection E as <- <-. congruence.
Qed.

Lemma get_char_good ins c ins' :
  get_char ins = (c, ins') -> good ins' = true ->
  good ins = true /\ (1 <= length (pending ins))%nat /\
  pending ins' = skipn 1 (pending ins).
Proof.
  unfold get_char. destruct (good ins) eqn:G; cbn [negb].
  - destruct (pending ins) as [|b rest]; intros E Hg; injection E as <- <-;
      cbn [good pending] in *.
    + discriminate.
    + repeat split. cbn [length]. lia.
  - intros E Hg. injection E as <- <-. congruence.
Qed.

Section Reading.
Variable ChaCha_state : Type.
Variable build_state : list Z -> list Z -> Z -> ChaCha_state.
Variable permute_block : ChaCha_state -> list Z.
Variable literal_pad : Z.

Local Abbreviation refill_buffer := (refill_buffer ChaCha_state build_state permute_block).
Local Abbreviation next := (next ChaCha_state build_state permute_block).
Local Abbreviation deserialize :=
  (deserialize ChaCha_state build_state permute_block literal_pad).
Local Abbreviation block := (block ChaCha_state build_state permute_block).

(** X22. [operator>>] returns only after reading exactly 65 bytes from a
    good stream: a shorter or failed stream always ends in a throw. The
    engine it returns has its word index within [0,8] and, when words of
    the buffer remain, the buffer rebuilt as the block of the previous
    counter. *)
Theorem deserialize_success_shape (ins ins' : istream) (rng rng' : t) :
  deserialize ins rng = Ok ins' rng' ->
  good ins = true /\ (65 <= length (pending ins))%nat /\
  good ins' = true /\ pending ins' = skipn 65 (pending ins) /\
  0 <= word_index rng' <= 8 /\
  (word_index rng' < 8 ->
   buffer rng' = block rng' (wrap64 (block_counter rng' - 1))).
Proof.
  unfold csprng.deserialize.
  destruct (read 8 ins) as [d1 i1] eqn:R1.
  destruct (good i1) eqn:G1; cbn [negb orb]; [|discriminate].
  destruct (bytes_eqb _ _); cbn [negb]; [|discriminate].
  destruct (get_char i1) as [c2 i2] eqn:R2.
  destruct (good i2) eqn:G2; cbn [negb orb]; [|discriminate].
  destruct (c2 mod 256 =? 1); cbn [negb]; [|discriminate].
  destruct (read 32 i2) as [d3 i3] eqn:R3.
  destruct (read 8 i3) as [d4 i4] eqn:R4.
  destruct (read 8 i4) as [d5 i5] eqn:R5.
  destruct (get_char i5) as [idx i6] eqn:R6.
  destruct (good i6) eqn:G6; cbn [negb orb]; [|discriminate].
  destruct (Z.ltb_spec idx 0) as [Hi0|Hi0]; cbn [orb]; [discriminate|].
  destruct (Z.gtb_spec idx 8) as [Hi8|Hi8]; [discriminate|].
  destruct (read 7 i6) as [d7 i7] eqn:R7.
  destruct (good i7) eqn:G7; cbn [negb]; [|discriminate].
  destruct (read_good _ _ _ _ R7 G7) as (_ & L7 & _ & P7).
  destruct (get_char_good _ _ _ R6 G6) as (G5 & L6 & P6).
  destruct (read_good _ _ _ _ R5 G5) as (G4 & L5 & _ & P5).
  destruct (read_good _ _ _ _ R4 G4) as (G3 & L4 & _ & P4).
  destruct (read_good _ _ _ _ R3 G3) as (_ & L3 & _ & P3).
  destruct (get_char_good _ _ _ R2 G2) as (_ & L2 & P2).
  destruct (read_good _ _ _ _ R1 G1) as (G0 & L1 & _ & P1).
  assert (HP : pending i7 = skipn 65 (pending ins)).
  { rewrite P7, P6, P5, P4, P3, P2, P1, !skipn_skipn. reflexivity. }
  assert (HL : (65 <= length (pending ins))%nat).
  { rewrite P6, P5, P4, P3, P2, P1, !skipn_skipn, length_skipn in L7.
    cbn [Nat.add] in L7. lia. }
  unfold with_word_index, with_block_counter, with_nonce, with_key.
  cbn [key nonce block_counter buffer word_index].
  destruct (Z.ltb_spec idx 8) as [Hlt|Hge].
  - destruct (le_word _ =? 0); [discriminate|].
    unfold csprng.refill_buffer, with_buffer, with_word_index, with_block_counter.
    cbn [key nonce block_counter buffer word_index].
    destruct (wrap64 (wrap64 _ + 1) =? 0); cbn [bind]; [discriminate|].
    cbn [key nonce block_counter buffer word_index].
    intros E. injection E as <- <-.
    cbn [key nonce block_counter buffer word_index].
    repeat split; try assumption; try lia.
  - intros E. injection E as <- <-. cbn [word_index].
    repeat split; try assumption; try lia.
Qed.

(** X23. [operator>>] is not atomic: it reads key, nonce and counter
    straight into the engine before it checks the word index, so a record
    with a word index byte above 8 throws and leaves an engine with the
    key, nonce and counter of the record but its old buffer and word
    index; the next call of such an engine still returns a word of the old
    buffer. *)
Theorem deserialize_failure_is_partial
  (rng : t) (kb nb cb rest : list Z) (idx : Z) :
  literal_pad = 0 ->
  length kb = 32%nat -> length nb = 8%nat -> length cb = 8%nat -> 8 < idx ->
  let ins := mk_istream (magic ++ [version] ++ kb ++ nb ++ cb ++ [idx] ++ rest)
                        true in
  let left := mk (words_of_bytes 4 8 kb) (words_of_bytes 4 2 nb) (le_word cb)
                 (buffer rng) (word_index rng) in
  deserialize ins rng = Throw corrupted_word_index left /\
  (word_index rng < 8 -> returned (next left) = returned (next rng)).
Proof.
  intros Hpad Lk Ln Lc Hi. cbv zeta. split.
  - unfold csprng.deserialize.
    rewrite read_app by reflexivity.
    rewrite overlay_full by (cbn; lia).
    rewrite Hpad. cbn [good negb orb literal_csprng app].
    change (bytes_eqb magic [99; 115; 112; 114; 110; 103; 0; 0]) with true.
    cbn [negb]. rewrite get_char_cons.
    cbn [good negb orb]. change (version mod 256 =? 1) with true. cbn [negb].
    rewrite read_app by exact Lk.
    rewrite overlay_full by (rewrite length_bytes_of_words; lia).
    rewrite read_app by exact Ln.
    unfold with_key. cbn [key nonce block_counter buffer word_index].
    rewrite overlay_full by (rewrite length_bytes_of_words; lia).
    rewrite read_app by exact Lc.
    unfold with_nonce. cbn [key nonce block_counter buffer word_index].
    rewrite overlay_full by (rewrite length_le_bytes; lia).
    cbn [app]. rewrite get_char_cons. cbn [good negb orb].
    destruct (Z.ltb_spec idx 0); [lia|].
    destruct (Z.gtb_spec idx 8); [|lia]. cbn [orb].
    unfold with_block_counter. cbn [key nonce block_counter buffer word_index].
    reflexivity.
  - intros Hw. unfold csprng.next.
    cbn [key nonce block_counter buffer word_index].
    destruct (Z.leb_spec 8 (word_index rng)); [lia|]. reflexivity.
Qed.

End Reading.

Lemma deserialize_success_shape_witness :
  let ins := mk_istream (serialize eq_lhs) true in
  good ins = true /\ (65 <= length (pending ins))%nat /\
  good (mk_istream [] true) = true /\
  pending (mk_istream [] true) = skipn 65 (pending ins) /\
  0 <= word_index eq_lhs <= 8 /\
  (word_index eq_lhs < 8 ->
   buffer eq_lhs =
   block Z toy_build_state toy_permute_block eq_lhs
     (wrap64 (block_counter eq_lhs - 1))).
Proof.
  apply (deserialize_success_shape Z toy_build_state toy_permute_block 0
           (mk_istream (serialize eq_lhs) true) (mk_istream [] true)
           eq_lhs eq_lhs).
  vm_compute. reflexivity.
Defined.

Lemma deserialize_failure_is_partial_witness :
  let rng := eq_lhs in
  let kb := repeat 1 32 in let nb := repeat 2 8 in let cb := repeat 3 8 in
  let ins := mk_istream (magic ++ [version] ++ kb ++ nb ++ cb ++ [9] ++ [])
                        true in
  let left := mk (words_of_bytes 4 8 kb) (words_of_bytes 4 2 nb) (le_word cb)
                 (buffer rng) (word_index rng) in
  deserialize Z toy_build_state toy_permute_block 0 ins rng =
    Throw corrupted_word_index left /\
  (word_index rng < 8 ->
   returned (next Z toy_build_state toy_permute_block left) =
   returned (next Z toy_build_state toy_permute_block rng)).
Proof.
  apply (deserialize_failure_is_partial Z toy_build_state toy_permute_block 0
           eq_lhs (repeat 1 32) (repeat 2 8) (repeat 3 8) [] 9);
    try reflexivity.
Defined.

End csprng_state_facts.

(* ------------------------------------------------------------------------- *)
(** ** fill *)
(* ------------------------------------------------------------------------- *)

Module fill_facts.
Import csprng_facts.

Lemma fill_loop_eq draws size out :
  fill_loop draws size out =
  if 8 <=? size then
    match draws with
    | [] => None
    | z :: rest => fill_loop rest (size - 8) (out ++ le_bytes 8 z)
    end
  else Some (out, size, draws).
Proof. destruct draws; reflexivity. Qed.

Lemma fill_loop_spec draws : forall size out,
  0 <= size ->
  fill_loop draws size out =
  let q := Z.to_nat (size / 8) in
  if (q <=? length draws)%nat
  then Some (out ++ flat_map (le_bytes 8) (firstn q draws),
             size mod 8, skipn q draws)
  else None.
Proof.
  induction draws as [|z rest IH]; intros size out Hs; cbv zeta;
    rewrite fill_loop_eq.
  - destruct (Z.leb_spec 8 size) as [H|H].
    + destruct (Nat.leb_spec (Z.to_nat (size / 8)) (length (@nil Z))) as [L|L];
        [cbn [length] in L; lia|reflexivity].
    + replace (size / 8) with 0 by lia. replace (size mod 8) with size by lia.
      cbn. rewrite app_nil_r. reflexivity.
  - destruct (Z.leb_spec 8 size) as [H|H].
    + rewrite IH by lia. cbv zeta.
      replace (Z.to_nat (size / 8)) with (S (Z.to_nat ((size - 8) / 8))) by lia.
      cbn [length Nat.leb firstn skipn flat_map].
      replace ((size - 8) mod 8) with (size mod 8) by lia.
      rewrite <- app_assoc. reflexivity.
    + replace (size / 8) with 0 by lia. replace (size mod 8) with size by lia.
      cbn. rewrite app_nil_r. reflexivity.
Qed.

Lemma length_flat_le_bytes l :
  length (flat_map (le_bytes 8) l) = (8 * length l)%nat.
Proof.
  induction l as [|a l IH]; [reflexivity|].
  cbn [flat_map length]. rewrite length_app, length_le_bytes, IH. lia.
Qed.

Lemma flat_firstn_skipn q (l : list Z) :
  flat_map (le_bytes 8) l =
  flat_map (le_bytes 8) (firstn q l) ++ flat_map (le_bytes 8) (skipn q l).
Proof. rewrite <- flat_map_app, firstn_skipn. reflexivity. Qed.

(** X24. [fill(data)] writes the little-endian bytes of successive
    [draw64()] values, eight per draw, and cuts the last draw short when
    the size is not a multiple of 8: it takes exactly [ceil(size / 8)]
    draws, writes exactly [size] bytes, and the unused bytes of the last
    draw are discarded; it fails only if the source of draws fails. *)
Theorem fill_closed_form (draws : list Z) (size : Z) :
  0 <= size ->
  let need := Z.to_nat ((size + 7) / 8) in
  fill draws size =
    (if (need <=? length draws)%nat
     then Some (firstn (Z.to_nat size) (flat_map (le_bytes 8) draws),
                skipn need draws)
     else None) /\
  ((need <= length draws)%nat ->
   length (firstn (Z.to_nat size) (flat_map (le_bytes 8) draws)) = Z.to_nat size).
Proof.
  intros Hs need. split.
  - unfold fill. rewrite (fill_loop_spec draws size [] Hs). cbv zeta. cbn [app].
    set (q := Z.to_nat (size / 8)).
    destruct (Z.ltb_spec 0 (size mod 8)) as [Hr|Hr].
    + assert (Hn : need = S q) by (subst need q; lia).
      rewrite Hn.
      destruct (Nat.leb_spec q (length draws)) as [Lq|Lq].
      * replace (0 <? size mod 8) with true
          by (symmetry; apply Z.ltb_lt; exact Hr).
        destruct (skipn q draws) as [|z rest] eqn:E.
        -- pose proof (f_equal (@length Z) E) as El.
           rewrite length_skipn in El. cbn [length] in El.
           destruct (Nat.leb_spec (S q) (length draws)); [lia|]. reflexivity.
        -- pose proof (f_equal (@length Z) E) as El.
           rewrite length_skipn in El. cbn [length] in El.
           destruct (Nat.leb_spec (S q) (length draws)); [|lia].
           cbn [draw64]. f_equal. f_equal.
           ++ rewrite (flat_firstn_skipn q draws), E. cbn [flat_map].
              rewrite firstn_app.
              rewrite (@firstn_all2 _ (Z.to_nat size))
                by (rewrite length_flat_le_bytes, length_firstn; subst q; lia).
              f_equal. rewrite length_flat_le_bytes, length_firstn.
              rewrite firstn_app, length_le_bytes.
              replace (Z.to_nat size - 8 * Nat.min q (length draws))%nat
                with (Z.to_nat (size mod 8)) by (subst q; lia).
              replace (Z.to_nat (size mod 8) - 8)%nat with 0%nat by lia.
              rewrite firstn_O, app_nil_r. reflexivity.
           ++ replace (S q) with (1 + q)%nat by lia.
              rewrite <- skipn_skipn, E. reflexivity.
      * destruct (Nat.leb_spec (S q) (length draws)); [lia|reflexivity].
    + assert (Hn : need = q) by (subst need q; lia).
      rewrite Hn.
      destruct (Nat.leb_spec q (length draws)) as [Lq|Lq]; [|reflexivity].
      replace (0 <? size mod 8) with false by (symmetry; apply Z.ltb_ge; exact Hr).
      f_equal. f_equal.
      rewrite (flat_firstn_skipn q draws), firstn_app.
      rewrite (@firstn_all2 _ (Z.to_nat size))
        by (rewrite length_flat_le_bytes, length_firstn; subst q; lia).
      rewrite length_flat_le_bytes, length_firstn.
      replace (Z.to_nat size - 8 * Nat.min q (length draws))%nat with 0%nat
        by (subst q; lia).
      rewrite firstn_O, app_nil_r. reflexivity.
  - intros Hl. rewrite length_firstn, length_flat_le_bytes. subst need. lia.
Qed.

Lemma fill_closed_form_witness :
  let need := Z.to_nat ((11 + 7) / 8) in
  fill [1; 2; 3] 11 =
    (if (need <=? length [1; 2; 3])%nat
     then Some (firstn (Z.to_nat 11) (flat_map (le_bytes 8) [1; 2; 3]),
                skipn need [1; 2; 3])
     else None) /\
  ((need <= length [1; 2; 3])%nat ->
   length (firstn (Z.to_nat 11) (flat_map (le_bytes 8) [1; 2; 3])) = Z.to_nat 11).
Proof.
  apply (fill_closed_form [1; 2; 3] 11). lia.
Defined.

End fill_facts.

(* ------------------------------------------------------------------------- *)
(** ** get_entropy *)
(* ------------------------------------------------------------------------- *)

Module platform_entropy_facts.
Import platform_entropy.

Lemma store_acc (acc got b0 : list Z) :
  store (acc ++ skipn (length acc) b0) (length acc) got =
  (acc ++ got) ++ skipn (length (acc ++ got)) b0.
Proof.
  unfold store.
  rewrite firstn_app, firstn_all, Nat.sub_diag, firstn_O, app_nil_r.
  rewrite skipn_app, skipn_all2 by lia.
  replace (length acc + length got - length acc)%nat with (length got) by lia.
  rewrite skipn_skipn, length_app, <- app_assoc. cbn [app].
  replace (length got + length acc)%nat with (length acc + length got)%nat by lia.
  reflexivity.
Qed.

Lemma store_keeps (buf got : list Z) (off size : nat) :
  (off + length got <= size)%nat -> (size <= length buf)%nat ->
  length (store buf off got) = length buf /\
  skipn size (store buf off got) = skipn size buf.
Proof.
  intros H1 H2. unfold store. split.
  - rewrite !length_app, length_firstn, length_skipn. lia.
  - rewrite skipn_app, (skipn_all2 (firstn off buf))
      by (rewrite length_firstn; lia).
    rewrite length_firstn. cbn [app].
    rewrite skipn_app, (skipn_all2 got) by lia. cbn [app].
    rewrite skipn_skipn. f_equal. lia.
Qed.

Lemma firstn_extend (acc got more : list Z) (b : Z) (bs : list Z) (size : nat) :
  (length acc < size)%nat ->
  got = firstn (size - length acc) (b :: bs) ->
  firstn size ((acc ++ got) ++ more) = firstn size (acc ++ (b :: bs) ++ more) /\
  (size <= length ((acc ++ got) ++ more) ->
   size <= length (acc ++ (b :: bs) ++ more))%nat.
Proof.
  intros Hlt ->.
  destruct (Nat.le_gt_cases (length (b :: bs)) (size - length acc)) as [Hle|Hgt].
  - rewrite (@firstn_all2 _ (size - length acc) (b :: bs)) by exact Hle.
    rewrite <- app_assoc. split; [reflexivity|].
    intros H. exact H.
  - assert (Hl : length (firstn (size - length acc) (b :: bs)) = (size - length acc)%nat)
      by (rewrite length_firstn; lia).
    split.
    + rewrite <- app_assoc.
      rewrite !(firstn_app size acc).
      f_equal.
      rewrite firstn_app, Hl, Nat.sub_diag, firstn_O, app_nil_r.
      rewrite firstn_firstn, Nat.min_id.
      rewrite firstn_app.
      replace (size - length acc - length (b :: bs))%nat with 0%nat by lia.
      rewrite firstn_O, app_nil_r. reflexivity.
    + intros _. rewrite !length_app. lia.
Qed.

Lemma delivered_cons r rest :
  delivered (r :: rest) =
  match r with Delivered b bs => b :: bs | _ => [] end ++ delivered rest.
Proof. reflexivity. Qed.

Lemma getrandom_loop_eq answers buffer size filled :
  getrandom_loop answers buffer size filled =
  if (filled <? size)%nat then
    match answers with
    | [] => Ran_out buffer
    | Delivered b bs :: rest =>
        let got := firstn (size - filled) (b :: bs) in
        getrandom_loop rest (store buffer filled got) size (filled + length got)
    | Nothing :: _ => Left_loop buffer filled
    | Failed errno :: rest =>
        if errno =? EINTR then getrandom_loop rest buffer size filled
        else if errno =? ENOSYS then Fallback buffer
        else Threw buffer
    end
  else Left_loop buffer filled.
Proof. destruct answers; reflexivity. Qed.

Lemma read_loop_eq answers buffer size done :
  read_loop answers buffer size done =
  if (done <? size)%nat then
    match answers with
    | [] => Blocked buffer
    | Delivered b bs :: rest =>
        let got := firstn (size - done) (b :: bs) in
        read_loop rest (store buffer done got) size (done + length got)
    | Nothing :: _ => Throw unexpected_EOF buffer
    | Failed errno :: rest =>
        if errno =? EINTR then read_loop rest buffer size done
        else Throw read_failed buffer
    end
  else Return buffer.
Proof. destruct answers; reflexivity. Qed.

Lemma getrandom_loop_full (b0 : list Z) (size : nat) answers : forall acc buf',
  (length acc <= size)%nat ->
  getrandom_loop answers (acc ++ skipn (length acc) b0) size (length acc) =
    Left_loop buf' size ->
  buf' = firstn size (acc ++ delivered answers) ++ skipn size b0 /\
  (size <= length (acc ++ delivered answers))%nat.
Proof.
  induction answers as [|r rest IH]; intros acc buf' Hacc;
    rewrite getrandom_loop_eq;
    destruct (Nat.ltb_spec (length acc) size) as [Hlt|Hge].
  - discriminate.
  - intros E. injection E as <- _.
    assert (length acc = size) by lia. subst size.
    rewrite firstn_app, firstn_all, Nat.sub_diag, firstn_O, app_nil_r.
    split; [reflexivity|]. rewrite length_app. lia.
  - destruct r as [b bs| |errno].
    + cbv zeta. set (got := firstn (size - length acc) (b :: bs)).
      assert (Hg : (length got <= size - length acc)%nat)
        by (subst got; rewrite length_firstn; lia).
      rewrite store_acc.
      replace (length acc + length got)%nat with (length (acc ++ got))
        by (rewrite length_app; reflexivity).
      intros E. apply IH in E; [|rewrite length_app; lia].
      rewrite delivered_cons.
      destruct (firstn_extend acc got (delivered rest) b bs size Hlt eq_refl)
        as [F1 F2].
      rewrite <- F1. split; [exact (proj1 E)|exact (F2 (proj2 E))].
    + intros E. injection E as _ E. lia.
    + destruct (errno =? EINTR).
      * intros E. apply IH in E; [|exact Hacc]. exact E.
      * destruct (errno =? ENOSYS); discriminate.
  - intros E. injection E as <- _.
    assert (length acc = size) by lia. subst size.
    rewrite firstn_app, firstn_all, Nat.sub_diag, firstn_O, app_nil_r.
    split; [reflexivity|]. rewrite length_app. lia.
Qed.

Lemma read_loop_full (b0 : list Z) (size : nat) answers : forall acc buf',
  (length acc <= size)%nat ->
  read_loop answers (acc ++ skipn (length acc) b0) size (length acc) =
    Return buf' ->
  buf' = firstn size (acc ++ delivered answers) ++ skipn size b0 /\
  (size <= length (acc ++ delivered answers))%nat.
Proof.
  induction answers as [|r rest IH]; intros acc buf' Hacc;
    rewrite read_loop_eq;
    destruct (Nat.ltb_spec (length acc) size) as [Hlt|Hge].
  - discriminate.
  - intros E. injection E as <-.
    assert (length acc = size) by lia. subst size.
    rewrite firstn_app, firstn_all, Nat.sub_diag, firstn_O, app_nil_r.
    split; [reflexivity|]. rewrite length_app. lia.
  - destruct r as [b bs| |errno].
    + cbv zeta. set (got := firstn (size - length acc) (b :: bs)).
      assert (Hg : (length got <= size - length acc)%nat)
        by (subst got; rewrite length_firstn; lia).
      rewrite store_acc.
      replace (length acc + length got)%nat with (length (acc ++ got))
        by (rewrite length_app; reflexivity).
      intros E. apply IH in E; [|rewrite length_app; lia].
      rewrite delivered_cons.
      destruct (firstn_extend acc got (delivered rest) b bs size Hlt eq_refl)
        as [F1 F2].
      rewrite <- F1. split; [exact (proj1 E)|exact (F2 (proj2 E))].
    + discriminate.
    + destruct (errno =? EINTR).
      * intros E. apply IH in E; [|exact Hacc]. exact E.
      * discriminate.
  - intros E. injection E as <-.
    assert (length acc = size) by lia. subst size.
    rewrite firstn_app, firstn_all, Nat.sub_diag, firstn_O, app_nil_r.
    split; [reflexivity|]. rewrite length_app. lia.
Qed.

Lemma getrandom_loop_tail (size : nat) answers : forall buffer filled,
  (filled <= size)%nat -> (size <= length buffer)%nat ->
  length (exit_buffer (getrandom_loop answers buffer size filled)) = length buffer /\
  skipn size (exit_buffer (getrandom_loop answers buffer size filled)) =
    skipn size buffer.
Proof.
  induction answers as [|r rest IH]; intros buffer filled Hf Hs;
    rewrite getrandom_loop_eq;
    destruct (Nat.ltb_spec filled size) as [Hlt|Hge];
    try (split; reflexivity).
  destruct r as [b bs| |errno].
  - cbv zeta. set (got := firstn (size - filled) (b :: bs)).
    assert (Hg : (length got <= size - filled)%nat)
      by (subst got; rewrite length_firstn; lia).
    destruct (store_keeps buffer got filled size ltac:(lia) Hs) as [K1 K2].
    destruct (IH (store buffer filled got) (filled + length got)%nat
                ltac:(lia) ltac:(lia)) as [I1 I2].
    rewrite I1, I2, K1, K2. split; reflexivity.
  - split; reflexivity.
  - destruct (errno =? EINTR); [apply IH; assumption|].
    destruct (errno =? ENOSYS); split; reflexivity.
Qed.

Lemma filled_shape (size : nat) (data b0 buf' : list Z) :
  (size <= length b0)%nat ->
  buf' = firstn size data ++ skipn size b0 -> (size <= length data)%nat ->
  length buf' = length b0 /\ skipn size buf' = skipn size b0 /\
  firstn size buf' = firstn size data.
Proof.
  intros Hs -> Hd.
  assert (Hl : length (firstn size data) = size) by (rewrite length_firstn; lia).
  split; [|split].
  - rewrite length_app, Hl, length_skipn. lia.
  - rewrite skipn_app, Hl, Nat.sub_diag, skipn_all2 by lia. reflexivity.
  - rewrite firstn_app, Hl, Nat.sub_diag, firstn_O, app_nil_r.
    rewrite firstn_firstn, Nat.min_id. reflexivity.
Qed.

Lemma fallback_shape sys (b0 buf' : list Z) (size : nat) :
  (size <= length b0)%nat ->
  fallback_urandom sys b0 size = Return buf' ->
  length buf' = length b0 /\ skipn size buf' = skipn size b0 /\
  open_urandom sys = true /\
  (size <= length (delivered (urandom sys)))%nat /\
  firstn size buf' = firstn size (delivered (urandom sys)).
Proof.
  intros Hs. unfold fallback_urandom.
  destruct (open_urandom sys); [|discriminate].
  intros E.
  destruct (read_loop_full b0 size (urandom sys) [] buf' ltac:(cbn; lia) E)
    as [E1 E2].
  cbn [app] in E1, E2.
  destruct (filled_shape size _ b0 buf' Hs E1 E2) as (A & B & C).
  repeat split; assumption.
Qed.

(** X26. [get_entropy] never returns with a partly filled buffer: when it
    returns normally, the [size] bytes of the buffer are the first [size]
    bytes one source delivered, all from [getrandom] or all from
    [/dev/urandom] (after a [getrandom] that returned 0 or is not
    supported, the fallback starts again at the first byte), and the bytes
    past [size] are untouched. *)
Theorem get_entropy_fills_whole_buffer
  (sys : os) (buffer buffer' : list Z) (size : nat) :
  (size <= length buffer)%nat ->
  get_entropy sys buffer size = Return buffer' ->
  length buffer' = length buffer /\
  skipn size buffer' = skipn size buffer /\
  (size = 0%nat \/
   ((size <= length (delivered (getrandom sys)))%nat /\
    firstn size buffer' = firstn size (delivered (getrandom sys))) \/
   (open_urandom sys = true /\
    (size <= length (delivered (urandom sys)))%nat /\
    firstn size buffer' = firstn size (delivered (urandom sys)))).
Proof.
  intros Hs. unfold get_entropy.
  destruct (Nat.eqb_spec size 0) as [H0|H0].
  - intros E. injection E as <-. repeat split. left. exact H0.
  - pose proof (getrandom_loop_tail size (getrandom sys) buffer 0
                  ltac:(lia) Hs) as [T1 T2].
    destruct (getrandom_loop (getrandom sys) buffer size 0)
      as [b f|b|b|b] eqn:E1; cbn [exit_buffer] in T1, T2.
    + destruct (Nat.eqb_spec f size) as [Hf|Hf].
      * intros E. injection E as <-. subst f.
        destruct (getrandom_loop_full buffer size (getrandom sys) [] b
                    ltac:(cbn; lia) E1) as [G1 G2].
        cbn [app] in G1, G2.
        destruct (filled_shape size _ buffer b Hs G1 G2) as (A & B & C).
        split; [exact A|]. split; [exact B|]. right. left. split; assumption.
      * intros E.
        destruct (fallback_shape sys b buffer' size ltac:(lia) E)
          as (A & B & C & D & F).
        split; [lia|]. split; [congruence|]. right. right.
        repeat split; assumption.
    + intros E.
      destruct (fallback_shape sys b buffer' size ltac:(lia) E)
        as (A & B & C & D & F).
      split; [lia|]. split; [congruence|]. right. right.
      repeat split; assumption.
    + discriminate.
    + discriminate.
Qed.

Lemma get_entropy_fills_whole_buffer_witness :
  let sys := mk_os [Delivered 1 [2]; Nothing] true
                   [Failed EINTR; Delivered 7 [8; 9]; Delivered 10 [11; 12]] in
  let buffer := [0; 0; 0; 0; 0; 0] in
  let buffer' := [7; 8; 9; 10; 0; 0] in
  length buffer' = length buffer /\
  skipn 4 buffer' = skipn 4 buffer /\
  (4%nat = 0%nat \/
   ((4 <= length (delivered (getrandom sys)))%nat /\
    firstn 4 buffer' = firstn 4 (delivered (getrandom sys))) \/
   (open_urandom sys = true /\
    (4 <= length (delivered (urandom sys)))%nat /\
    firstn 4 buffer' = firstn 4 (delivered (urandom sys)))).
Proof.
  apply (get_entropy_fills_whole_buffer
           (mk_os [Delivered 1 [2]; Nothing] true
                  [Failed EINTR; Delivered 7 [8; 9]; Delivered 10 [11; 12]])
           [0; 0; 0; 0; 0; 0] [7; 8; 9; 10; 0; 0] 4).
  - cbn [length]. lia.
  - reflexivity.
Defined.

End platform_entropy_facts.
